(** * A ray tracer in Rust, chapter by chapter: the renderer core in Rocq

    The posts of the repository carry the Rust listings of a ray tracer
    (vectors, rays, bounding boxes, hittables, the bounding volume hierarchy,
    materials, Perlin noise, the integrator and the image writer).  This file
    embeds those listings and checks the statements of the specification
    against them.

    Numbers.  A Rust [f64] is an IEEE 754 binary64 value; it is modelled by
    Rocq's primitive [float], whose [+ - * / sqrt] and comparisons are the
    IEEE operations (round to nearest even), so every listing computes here
    bit for bit what it computes in Rust, NaN and infinities included.
    Integers ([u32], [i32], [usize]) are modelled by [Z] and [nat] with the
    range checks and wrap-around written out. *)

From Stdlib Require Import Floats ZArith List Bool Lia PeanoNat Permutation.
From Stdlib Require String Ascii DecimalString Finite.
From Stdlib.Strings Require Byte.
Import ListNotations.

Set Warnings "-inexact-float".

Open Scope float_scope.

(** ** 1. [f64]: the operations of the Rust standard library the listings use *)

Definition f64 := float.

(** [a > b], as the listings write it. *)
Notation "a >? b" := (PrimFloat.ltb b a) (at level 70, no associativity) : float_scope.

Definition f64_INFINITY : f64 := infinity.
Definition f64_NEG_INFINITY : f64 := neg_infinity.
(** [std::f64::consts::PI], the binary64 value nearest to pi. *)
Definition f64_PI : f64 := 0x1.921fb54442d18p+1.

(** [f64::min] and [f64::max]: when exactly one argument is NaN the other is
    returned.  (For [+0.0] against [-0.0] Rust leaves the choice open; the
    first argument is kept here.) *)
Definition f64_min (a b : f64) : f64 :=
  if is_nan a then b else if is_nan b then a else if b <? a then b else a.

Definition f64_max (a b : f64) : f64 :=
  if is_nan a then b else if is_nan b then a else if a <? b then b else a.

Definition f64_abs (a : f64) : f64 := abs a.
Definition f64_sqrt (a : f64) : f64 := sqrt a.

(** [f64::powi(x, n)] for a small non-negative [n], by squaring (the
    sequence of roundings of the compiler's runtime routine). *)
Fixpoint powi_pos (x : f64) (n : positive) : f64 :=
  match n with
  | xH => x
  | xO p => powi_pos (x * x) p
  | xI p => x * powi_pos (x * x) p
  end.

Definition f64_powi (x : f64) (n : N) : f64 :=
  match n with
  | N0 => 1
  | Npos p => powi_pos x p
  end.

(** The integer a finite float truncates to (towards zero). *)
Definition SF_trunc (s : bool) (m : positive) (e : Z) : Z :=
  let mag := if (0 <=? e)%Z then (Zpos m * 2 ^ e)%Z else (Zpos m / 2 ^ (- e))%Z in
  if s then (- mag)%Z else mag.

Definition saturate (lo hi n : Z) : Z :=
  if (n <? lo)%Z then lo else if (hi <? n)%Z then hi else n.

(** [x as T] for an integer type with range [lo..hi]: truncation towards
    zero, saturating at the bounds, NaN to 0 (Rust 1.45 and later). *)
Definition f64_as_int (lo hi : Z) (x : f64) : Z :=
  match Prim2SF x with
  | S754_nan => 0%Z
  | S754_zero _ => 0%Z
  | S754_infinity s => if s then lo else hi
  | S754_finite s m e => saturate lo hi (SF_trunc s m e)
  end.

Definition u32_MAX : Z := 4294967295.
Definition i32_MIN : Z := -2147483648.
Definition i32_MAX : Z := 2147483647.

Definition f64_as_u32 (x : f64) : Z := f64_as_int 0 u32_MAX x.
Definition f64_as_i32 (x : f64) : Z := f64_as_int i32_MIN i32_MAX x.

(** [n as f64] for an integer [n] (exact below 2^53, else rounded). *)
Definition f64_of_Z (n : Z) : f64 := SF2Prim (binary_normalize prec emax n 0 false).

(** [f64::floor]. *)
Definition f64_floor (x : f64) : f64 :=
  match Prim2SF x with
  | S754_finite s m e =>
      if (0 <=? e)%Z then x
      else
        let q := (Zpos m / 2 ^ (- e))%Z in
        let r := (Zpos m mod 2 ^ (- e))%Z in
        if s then f64_of_Z (if (r =? 0)%Z then - q else - q - 1)
        else f64_of_Z q
  | _ => x
  end.

(** ** 2. [Vec3], [Point3], [Color] (post "Ch 3. The vec3 Class") *)

(** [pub struct Vec3 { pub e: [f64; 3] }]: the three entries of the array. *)
Record Vec3 : Type := mkVec3 { e0 : f64; e1 : f64; e2 : f64 }.

Definition Point3 := Vec3.
Definition Color := Vec3.

Definition Vec3_new (x y z : f64) : Vec3 := mkVec3 x y z.

Definition Vec3_x (v : Vec3) : f64 := e0 v.
Definition Vec3_y (v : Vec3) : f64 := e1 v.
Definition Vec3_z (v : Vec3) : f64 := e2 v.

(** [impl ops::Index<usize> for Vec3]: [&self.e[index]], a panic ([None])
    for an index of 3 or more. *)
Definition Vec3_index (v : Vec3) (index : nat) : option f64 :=
  match index with
  | 0%nat => Some (e0 v)
  | 1%nat => Some (e1 v)
  | 2%nat => Some (e2 v)
  | _ => None
  end.

Definition Vec3_length_squared (v : Vec3) : f64 :=
  e0 v * e0 v + e1 v * e1 v + e2 v * e2 v.

Definition Vec3_length (v : Vec3) : f64 := f64_sqrt (Vec3_length_squared v).

Definition Vec3_neg (v : Vec3) : Vec3 := mkVec3 (- e0 v) (- e1 v) (- e2 v).

Definition Vec3_add (a b : Vec3) : Vec3 :=
  mkVec3 (e0 a + e0 b) (e1 a + e1 b) (e2 a + e2 b).

Definition Vec3_sub (a b : Vec3) : Vec3 :=
  mkVec3 (e0 a - e0 b) (e1 a - e1 b) (e2 a - e2 b).

(** [impl ops::Mul for Vec3]: component-wise. *)
Definition Vec3_mul (a b : Vec3) : Vec3 :=
  mkVec3 (e0 a * e0 b) (e1 a * e1 b) (e2 a * e2 b).

(** [impl ops::Mul<Vec3> for f64]. *)
Definition Vec3_scale (s : f64) (v : Vec3) : Vec3 :=
  mkVec3 (s * e0 v) (s * e1 v) (s * e2 v).

(** [impl ops::Div<f64> for Vec3]: [(1.0 / rhs) * self]. *)
Definition Vec3_div (v : Vec3) (rhs : f64) : Vec3 := Vec3_scale (1 / rhs) v.

(** The free function [dot] of the post, as it is written there:
    [u.e[0] * v.e[0] + u.e[1] * v.e[1] * u.e[2] * v.e[2]]. *)
Definition dot (u v : Vec3) : f64 :=
  e0 u * e0 v + e1 u * e1 v * e2 u * e2 v.

Definition cross (u v : Vec3) : Vec3 :=
  mkVec3 (e1 u * e2 v - e2 u * e1 v)
         (e2 u * e0 v - e0 u * e2 v)
         (e0 u * e1 v - e1 u * e0 v).

(** [pub fn unit_vector(v: Vec3) -> Vec3 { v / v.length() }]
    (post "Ch 4. Rays, a Simple Camera, and Background"). *)
Definition unit_vector (v : Vec3) : Vec3 := Vec3_div v (Vec3_length v).

(** The Euclidean dot product the specification's contract names,
    [u0*v0 + u1*v1 + u2*v2], in the order of evaluation of the source
    language. *)
Definition euclidean_dot (u v : Vec3) : f64 :=
  e0 u * e0 v + e1 u * e1 v + e2 u * e2 v.

(** Modelled from the spec: the associated function [Vec3::dot] that the
    later posts call is listed in none of them; section 4.1 of the
    specification names it among the standard vector operations. *)
Definition Vec3_dot (u v : Vec3) : f64 := euclidean_dot u v.

(** Modelled from the spec: [Vec3::reflect] is listed in no post; section
    4.8 gives [reflect(v,n) = v - 2*dot(v,n)*n]. *)
Definition Vec3_reflect (v n : Vec3) : Vec3 :=
  Vec3_sub v (Vec3_scale (2 * Vec3_dot v n) n).

(** [Vec3::refract] (post "Ch 10. Dielectrics"). *)
Definition Vec3_refract (uv n : Vec3) (etai_over_etat : f64) : Vec3 :=
  let cos_theta := Vec3_dot (Vec3_neg uv) n in
  let r_out_perp := Vec3_scale etai_over_etat (Vec3_add uv (Vec3_scale cos_theta n)) in
  let r_out_parallel :=
    Vec3_scale (- f64_sqrt (f64_abs (1 - Vec3_length_squared r_out_perp))) n in
  Vec3_add r_out_perp r_out_parallel.

(** [Vec3::unit_vector], the associated form of [unit_vector]. *)
Definition Vec3_unit_vector (v : Vec3) : Vec3 := unit_vector v.

(** ** 3. [Ray] (post "Ch 2. Motion Blur") *)

Record Ray : Type := mkRay { origin : Point3; dir : Vec3; time : f64 }.

Definition Ray_new (origin : Point3) (dir : Vec3) (time : f64) : Ray :=
  mkRay origin dir time.
Definition Ray_origin (r : Ray) : Point3 := origin r.
Definition Ray_direction (r : Ray) : Vec3 := dir r.
Definition Ray_time (r : Ray) : f64 := time r.
Definition Ray_at (r : Ray) (t : f64) : Point3 :=
  Vec3_add (origin r) (Vec3_scale t (dir r)).

(** ** 4. Outcomes, the random number generator and the math library *)

(** What a call that can panic or recurse without end comes to: a value, a
    panic, or no answer within the fuel given (a recursion that never
    returns gives [OutOfFuel] for every fuel). *)
Inductive result (A : Type) : Type :=
  | Ok (a : A)
  | Panic
  | OutOfFuel.
Arguments Ok {A} a.
Arguments Panic {A}.
Arguments OutOfFuel {A}.

Definition bind {A B : Type} (m : result A) (f : A -> result B) : result B :=
  match m with
  | Ok a => f a
  | Panic => Panic
  | OutOfFuel => OutOfFuel
  end.

Notation "'do' x <- m ; k" := (bind m (fun x => k))
  (at level 10, x pattern, m at level 100, k at level 200).

(** Modelled from the spec: the generator behind [random()] and
    [random_usize_in_range] is the external [rand] crate ([thread_rng]);
    the listings only call it.  It is modelled as a tape of the values it
    will hand out and a position on the tape, so that a listing that draws
    twice sees two tape cells.  [random_usize_in_range(min, max)] yields a
    value of the half-open range [min..max) (section 4.5: an axis "among
    {x, y, z}" for the range (0, 3)) and panics on an empty range. *)
Record Rng : Type := mkRng
  { f64_draws : nat -> f64; usize_draws : nat -> nat; pos : nat }.

Definition Rng_advance (g : Rng) : Rng :=
  mkRng (f64_draws g) (usize_draws g) (S (pos g)).

Definition random (g : Rng) : f64 * Rng :=
  (f64_draws g (pos g), Rng_advance g).

Definition random_usize_in_range (min max : nat) (g : Rng) : result (nat * Rng) :=
  if (max <=? min)%nat then Panic
  else Ok ((min + usize_draws g (pos g) mod (max - min))%nat, Rng_advance g).

(** The platform's math library behind [f64::cos], [f64::acos] and
    [f64::atan2]; IEEE 754 does not fix their results, so they are
    parameters of the development. *)
Class Libm : Type :=
  { f64_cos : f64 -> f64; f64_acos : f64 -> f64; f64_atan2 : f64 -> f64 -> f64 }.

(** ** 5. [Aabb] (post "Ch 3. Bounding Volume Hierarchies") *)

Record Aabb : Type := mkAabb { minimum : Point3; maximum : Point3 }.

Definition Aabb_new (minimum maximum : Point3) : Aabb := mkAabb minimum maximum.
Definition Aabb_min (b : Aabb) : Point3 := minimum b.
Definition Aabb_max (b : Aabb) : Point3 := maximum b.

(** [v[a]] for a loop index [a] of [0..3]. *)
Definition Vec3_at (v : Vec3) (a : nat) : f64 :=
  match a with
  | 0%nat => e0 v
  | 1%nat => e1 v
  | _ => e2 v
  end.

(** The body of the loop of the first [Aabb::hit] for axis [a]: [true] when
    the listing executes [return false]. *)
Definition Aabb_hit_first_rejects (b : Aabb) (r : Ray) (t_min t_max : f64) (a : nat) : bool :=
  let t0 := f64_min
    ((Vec3_at (minimum b) a - Vec3_at (Ray_origin r) a) / Vec3_at (Ray_direction r) a)
    ((Vec3_at (maximum b) a - Vec3_at (Ray_origin r) a) / Vec3_at (Ray_direction r) a) in
  let t1 := f64_max
    ((Vec3_at (minimum b) a - Vec3_at (Ray_origin r) a) / Vec3_at (Ray_direction r) a)
    ((Vec3_at (maximum b) a - Vec3_at (Ray_origin r) a) / Vec3_at (Ray_direction r) a) in
  f64_min t1 t_max <=? f64_max t0 t_min.

Definition Aabb_hit_first (b : Aabb) (r : Ray) (t_min t_max : f64) : bool :=
  forallb (fun a => negb (Aabb_hit_first_rejects b r t_min t_max a)) [0; 1; 2]%nat.

(** The body of the loop of the optimized [Aabb::hit] for axis [a].  The
    listing binds the tightened bounds with [let t_min = ...] and
    [let t_max = ...] inside the body: the two names shadow the parameters
    until the end of the iteration, and the next iteration reads the
    parameters again.  The body is therefore a function of the parameters
    [t_min], [t_max] alone; [true] when the listing executes
    [return false]. *)
Definition Aabb_hit_rejects (b : Aabb) (r : Ray) (t_min t_max : f64) (a : nat) : bool :=
  let inv_d := 1 / Vec3_at (Ray_direction r) a in
  let t0 := (Vec3_at (Aabb_min b) a - Vec3_at (Ray_origin r) a) * inv_d in
  let t1 := (Vec3_at (Aabb_max b) a - Vec3_at (Ray_origin r) a) * inv_d in
  let '(t0, t1) := if inv_d <? 0 then (t1, t0) else (t0, t1) in
  let t_min' := if t0 >? t_min then t0 else t_min in
  let t_max' := if t1 <? t_max then t1 else t_max in
  t_max' <=? t_min'.

Definition Aabb_hit (b : Aabb) (r : Ray) (t_min t_max : f64) : bool :=
  forallb (fun a => negb (Aabb_hit_rejects b r t_min t_max a)) [0; 1; 2]%nat.

Definition Aabb_surrounding_box (box0 box1 : Aabb) : Aabb :=
  let small := Vec3_new
    (f64_min (Vec3_x (Aabb_min box0)) (Vec3_x (Aabb_min box1)))
    (f64_min (Vec3_y (Aabb_min box0)) (Vec3_y (Aabb_min box1)))
    (f64_min (Vec3_z (Aabb_min box0)) (Vec3_z (Aabb_min box1))) in
  let big := Vec3_new
    (f64_max (Vec3_x (Aabb_max box0)) (Vec3_x (Aabb_max box1)))
    (f64_max (Vec3_y (Aabb_max box0)) (Vec3_y (Aabb_max box1)))
    (f64_max (Vec3_z (Aabb_max box0)) (Vec3_z (Aabb_max box1))) in
  Aabb_new small big.

(** The box the listings initialise an output parameter with. *)
Definition Aabb_zero : Aabb := Aabb_new (Vec3_new 0 0 0) (Vec3_new 0 0 0).

(** ** 6. [HitRecord] and the [Hittable]s *)

Section Hittables.

(** The materials are behind [Rc<dyn Material>]; the hittables only store
    and hand on the reference, so they are generic in its type [M]. *)
Context {M : Type}.
Context {libm : Libm}.

(** [HitRecord] (posts "Ch 6", "Ch 9. Metal", "Ch 4. Solid Textures"). *)
Record HitRecord : Type := mkHitRecord
  { p : Point3;
    normal : Vec3;
    mat_ptr : option M;
    t : f64;
    u : f64;
    v : f64;
    front_face : bool }.

(** [HitRecord::new()] as listed in "Ch 6" ([p], [normal], [t] at
    [f64::NEG_INFINITY], [front_face] false).  Modelled from the spec: the
    fields added by later posts ([mat_ptr], [u], [v]) are initialised in no
    listing; [mat_ptr] is the [Option] without a material, and [u], [v] are
    given the marker value of the other numeric fields. *)
Definition HitRecord_new : HitRecord :=
  mkHitRecord
    (Vec3_new f64_NEG_INFINITY f64_NEG_INFINITY f64_NEG_INFINITY)
    (Vec3_new f64_NEG_INFINITY f64_NEG_INFINITY f64_NEG_INFINITY)
    None f64_NEG_INFINITY f64_NEG_INFINITY f64_NEG_INFINITY false.

Definition set_p (rec : HitRecord) (x : Point3) : HitRecord :=
  mkHitRecord x (normal rec) (mat_ptr rec) (t rec) (u rec) (v rec) (front_face rec).
Definition set_t (rec : HitRecord) (x : f64) : HitRecord :=
  mkHitRecord (p rec) (normal rec) (mat_ptr rec) x (u rec) (v rec) (front_face rec).
Definition set_u (rec : HitRecord) (x : f64) : HitRecord :=
  mkHitRecord (p rec) (normal rec) (mat_ptr rec) (t rec) x (v rec) (front_face rec).
Definition set_v (rec : HitRecord) (x : f64) : HitRecord :=
  mkHitRecord (p rec) (normal rec) (mat_ptr rec) (t rec) (u rec) x (front_face rec).
Definition set_mat_ptr (rec : HitRecord) (x : option M) : HitRecord :=
  mkHitRecord (p rec) (normal rec) x (t rec) (u rec) (v rec) (front_face rec).

(** [HitRecord::set_face_normal] (post "Ch 6"); it calls the free function
    [dot]. *)
Definition set_face_normal (rec : HitRecord) (r : Ray) (outward_normal : Vec3) : HitRecord :=
  let front_face := dot (Ray_direction r) outward_normal <? 0 in
  mkHitRecord (p rec)
    (if front_face then outward_normal else Vec3_neg outward_normal)
    (mat_ptr rec) (t rec) (u rec) (v rec) front_face.

(** [get_sphere_uv] (post "Ch 4. Solid Textures"): the new [(u, v)]. *)
Definition get_sphere_uv (p : Point3) : f64 * f64 :=
  let theta := f64_cos (- Vec3_y p) in
  let phi := f64_atan2 (- Vec3_z p) (Vec3_x p) + f64_PI in
  (phi / (2 * f64_PI), theta / f64_PI).

(** The texture coordinates as the specification gives them,
    [u = (atan2(-z, x) + pi) / (2 pi)] and [v = acos(-y) / pi]. *)
Definition sphere_uv_spec (p : Point3) : f64 * f64 :=
  ((f64_atan2 (- Vec3_z p) (Vec3_x p) + f64_PI) / (2 * f64_PI),
   f64_acos (- Vec3_y p) / f64_PI).

(** *** [Sphere] (post "Ch 4. Solid Textures") *)

Record Sphere : Type := mkSphere
  { Sphere_center : Point3; Sphere_radius : f64; Sphere_mat_ptr : M }.

Definition Sphere_new (center : Point3) (radius : f64) (mat_ptr : M) : Sphere :=
  mkSphere center radius mat_ptr.

(** What both branches of [Sphere::hit] do once a root [temp] is accepted. *)
Definition Sphere_record (s : Sphere) (r : Ray) (temp : f64) (rec : HitRecord) : HitRecord :=
  let rec := set_t rec temp in
  let rec := set_p rec (Ray_at r (t rec)) in
  let outward_normal := Vec3_div (Vec3_sub (p rec) (Sphere_center s)) (Sphere_radius s) in
  let rec := set_face_normal rec r outward_normal in
  let '(u', v') := get_sphere_uv outward_normal in
  let rec := set_v (set_u rec u') v' in
  set_mat_ptr rec (Some (Sphere_mat_ptr s)).

(** [hit] takes the record by [&mut] and answers a [bool]: here the record
    goes in and comes out beside the answer. *)
Definition Sphere_hit (s : Sphere) (r : Ray) (t_min t_max : f64) (rec : HitRecord)
  : bool * HitRecord :=
  let oc := Vec3_sub (Ray_origin r) (Sphere_center s) in
  let a := Vec3_length_squared (Ray_direction r) in
  let half_b := Vec3_dot oc (Ray_direction r) in
  let c := Vec3_length_squared oc - Sphere_radius s * Sphere_radius s in
  let discriminant := half_b * half_b - a * c in
  if discriminant >? 0 then
    let root := f64_sqrt discriminant in
    let temp := (- half_b - root) / a in
    if (temp <? t_max) && (temp >? t_min) then (true, Sphere_record s r temp rec)
    else
      let temp := (- half_b + root) / a in
      if (temp <? t_max) && (temp >? t_min) then (true, Sphere_record s r temp rec)
      else (false, rec)
  else (false, rec).

(** The output box goes in and comes out beside the answer, as the record
    of [hit] does. *)
Definition Sphere_bounding_box (s : Sphere) (_time0 _time1 : f64) (output_box : Aabb)
  : bool * Aabb :=
  (true,
   Aabb_new
     (Vec3_sub (Sphere_center s) (Vec3_new (Sphere_radius s) (Sphere_radius s) (Sphere_radius s)))
     (Vec3_add (Sphere_center s) (Vec3_new (Sphere_radius s) (Sphere_radius s) (Sphere_radius s)))).

(** *** [MovingSphere] (posts "Ch 2. Motion Blur", "Ch 3. Bounding Volume
    Hierarchies") *)

Record MovingSphere : Type := mkMovingSphere
  { MovingSphere_center0 : Point3;
    MovingSphere_center1 : Point3;
    MovingSphere_time0 : f64;
    MovingSphere_time1 : f64;
    MovingSphere_radius : f64;
    MovingSphere_mat_ptr : M }.

Definition MovingSphere_center (s : MovingSphere) (time : f64) : Point3 :=
  Vec3_add (MovingSphere_center0 s)
    (Vec3_scale
       ((time - MovingSphere_time0 s) / (MovingSphere_time1 s - MovingSphere_time0 s))
       (Vec3_sub (MovingSphere_center1 s) (MovingSphere_center0 s))).

Definition MovingSphere_record (s : MovingSphere) (r : Ray) (temp : f64) (rec : HitRecord)
  : HitRecord :=
  let rec := set_t rec temp in
  let rec := set_p rec (Ray_at r (t rec)) in
  let outward_normal :=
    Vec3_div (Vec3_sub (p rec) (MovingSphere_center s (Ray_time r))) (MovingSphere_radius s) in
  let rec := set_face_normal rec r outward_normal in
  set_mat_ptr rec (Some (MovingSphere_mat_ptr s)).

Definition MovingSphere_hit (s : MovingSphere) (r : Ray) (t_min t_max : f64) (rec : HitRecord)
  : bool * HitRecord :=
  let oc := Vec3_sub (Ray_origin r) (MovingSphere_center s (Ray_time r)) in
  let a := Vec3_length_squared (Ray_direction r) in
  let half_b := Vec3_dot oc (Ray_direction r) in
  let c := Vec3_length_squared oc - MovingSphere_radius s * MovingSphere_radius s in
  let discriminant := half_b * half_b - a * c in
  if discriminant >? 0 then
    let root := f64_sqrt discriminant in
    let temp := (- half_b - root) / a in
    if (temp <? t_max) && (temp >? t_min) then (true, MovingSphere_record s r temp rec)
    else
      let temp := (- half_b + root) / a in
      if (temp <? t_max) && (temp >? t_min) then (true, MovingSphere_record s r temp rec)
      else (false, rec)
  else (false, rec).

Definition MovingSphere_bounding_box (s : MovingSphere) (time0 time1 : f64) (output_box : Aabb)
  : bool * Aabb :=
  let rad := MovingSphere_radius s in
  let box0 := Aabb_new
    (Vec3_sub (MovingSphere_center s time0) (Vec3_new rad rad rad))
    (Vec3_add (MovingSphere_center s time0) (Vec3_new rad rad rad)) in
  let box1 := Aabb_new
    (Vec3_sub (MovingSphere_center s time1) (Vec3_new rad rad rad))
    (Vec3_add (MovingSphere_center s time1) (Vec3_new rad rad rad)) in
  (true, Aabb_surrounding_box box0 box1).

(** *** The axis-aligned rectangles (post "Ch 7. Rectangles and Lights") *)

Record XyRect : Type := mkXyRect
  { XyRect_mp : M; XyRect_x0 : f64; XyRect_x1 : f64; XyRect_y0 : f64; XyRect_y1 : f64;
    XyRect_k : f64 }.

Definition XyRect_new (x0 x1 y0 y1 k : f64) (mp : M) : XyRect := mkXyRect mp x0 x1 y0 y1 k.

Definition XyRect_hit (s : XyRect) (r : Ray) (t_min t_max : f64) (rec : HitRecord)
  : bool * HitRecord :=
  let t' := (XyRect_k s - Vec3_z (Ray_origin r)) / Vec3_z (Ray_direction r) in
  if (t' <? t_min) || (t' >? t_max) then (false, rec)
  else
    let x := Vec3_x (Ray_origin r) + t' * Vec3_x (Ray_direction r) in
    let y := Vec3_y (Ray_origin r) + t' * Vec3_y (Ray_direction r) in
    if (x <? XyRect_x0 s) || (x >? XyRect_x1 s) || (y <? XyRect_y0 s) || (y >? XyRect_y1 s)
    then (false, rec)
    else
      let rec := set_u rec ((x - XyRect_x0 s) / (XyRect_x1 s - XyRect_x0 s)) in
      let rec := set_v rec ((y - XyRect_y0 s) / (XyRect_y1 s - XyRect_y0 s)) in
      let rec := set_t rec t' in
      let rec := set_face_normal rec r (Vec3_new 0 0 1) in
      let rec := set_mat_ptr rec (Some (XyRect_mp s)) in
      let rec := set_p rec (Ray_at r t') in
      (true, rec).

Definition XyRect_bounding_box (s : XyRect) (_time0 _time1 : f64) (output_box : Aabb)
  : bool * Aabb :=
  (true,
   Aabb_new (Vec3_new (XyRect_x0 s) (XyRect_y0 s) (XyRect_k s - 0.0001))
            (Vec3_new (XyRect_x1 s) (XyRect_y1 s) (XyRect_k s + 0.0001))).

Record XzRect : Type := mkXzRect
  { XzRect_mp : M; XzRect_x0 : f64; XzRect_x1 : f64; XzRect_z0 : f64; XzRect_z1 : f64;
    XzRect_k : f64 }.

Definition XzRect_new (x0 x1 z0 z1 k : f64) (mp : M) : XzRect := mkXzRect mp x0 x1 z0 z1 k.

Definition XzRect_hit (s : XzRect) (r : Ray) (t_min t_max : f64) (rec : HitRecord)
  : bool * HitRecord :=
  let t' := (XzRect_k s - Vec3_y (Ray_origin r)) / Vec3_y (Ray_direction r) in
  if (t' <? t_min) || (t' >? t_max) then (false, rec)
  else
    let x := Vec3_x (Ray_origin r) + t' * Vec3_x (Ray_direction r) in
    let z := Vec3_z (Ray_origin r) + t' * Vec3_z (Ray_direction r) in
    if (x <? XzRect_x0 s) || (x >? XzRect_x1 s) || (z <? XzRect_z0 s) || (z >? XzRect_z1 s)
    then (false, rec)
    else
      let rec := set_u rec ((x - XzRect_x0 s) / (XzRect_x1 s - XzRect_x0 s)) in
      let rec := set_v rec ((z - XzRect_z0 s) / (XzRect_z1 s - XzRect_z0 s)) in
      let rec := set_t rec t' in
      let rec := set_face_normal rec r (Vec3_new 0 1 0) in
      let rec := set_mat_ptr rec (Some (XzRect_mp s)) in
      let rec := set_p rec (Ray_at r t') in
      (true, rec).

Definition XzRect_bounding_box (s : XzRect) (_time0 _time1 : f64) (output_box : Aabb)
  : bool * Aabb :=
  (true,
   Aabb_new (Vec3_new (XzRect_x0 s) (XzRect_z0 s) (XzRect_k s - 0.0001))
            (Vec3_new (XzRect_x1 s) (XzRect_z1 s) (XzRect_k s + 0.0001))).

Record YzRect : Type := mkYzRect
  { YzRect_mp : M; YzRect_y0 : f64; YzRect_y1 : f64; YzRect_z0 : f64; YzRect_z1 : f64;
    YzRect_k : f64 }.

Definition YzRect_new (y0 y1 z0 z1 k : f64) (mp : M) : YzRect := mkYzRect mp y0 y1 z0 z1 k.

Definition YzRect_hit (s : YzRect) (r : Ray) (t_min t_max : f64) (rec : HitRecord)
  : bool * HitRecord :=
  let t' := (YzRect_k s - Vec3_x (Ray_origin r)) / Vec3_x (Ray_direction r) in
  if (t' <? t_min) || (t' >? t_max) then (false, rec)
  else
    let y := Vec3_y (Ray_origin r) + t' * Vec3_y (Ray_direction r) in
    let z := Vec3_z (Ray_origin r) + t' * Vec3_z (Ray_direction r) in
    if (y <? YzRect_y0 s) || (y >? YzRect_y1 s) || (z <? YzRect_z0 s) || (z >? YzRect_z1 s)
    then (false, rec)
    else
      let rec := set_u rec ((y - YzRect_y0 s) / (YzRect_y1 s - YzRect_y0 s)) in
      let rec := set_v rec ((z - YzRect_z0 s) / (YzRect_z1 s - YzRect_z0 s)) in
      let rec := set_t rec t' in
      let rec := set_face_normal rec r (Vec3_new 1 0 0) in
      let rec := set_mat_ptr rec (Some (YzRect_mp s)) in
      let rec := set_p rec (Ray_at r t') in
      (true, rec).

Definition YzRect_bounding_box (s : YzRect) (_time0 _time1 : f64) (output_box : Aabb)
  : bool * Aabb :=
  (true,
   Aabb_new (Vec3_new (YzRect_y0 s) (YzRect_z0 s) (YzRect_k s - 0.0001))
            (Vec3_new (YzRect_y1 s) (YzRect_z1 s) (YzRect_k s + 0.0001))).

(** The box the specification describes for a rectangle: its two in-plane
    bounds on their own axes and [k - 1e-4 .. k + 1e-4] on the axis of zero
    thickness ([axis] 0 for x, 1 for y, 2 for z). *)
Definition rect_box_spec (axis : nat) (a0 a1 b0 b1 k : f64) : Aabb :=
  match axis with
  | 0%nat => Aabb_new (Vec3_new (k - 0.0001) a0 b0) (Vec3_new (k + 0.0001) a1 b1)
  | 1%nat => Aabb_new (Vec3_new a0 (k - 0.0001) b0) (Vec3_new a1 (k + 0.0001) b1)
  | _ => Aabb_new (Vec3_new a0 b0 (k - 0.0001)) (Vec3_new a1 b1 (k + 0.0001))
  end.

(** *** The trait objects

    [Rc<dyn Hittable>] ranges over the implementations the posts give; the
    variant type below is their closed union (section 9 of the
    specification).  [HittableList] holds a [Vec] of them and [BvhNode] two
    of them and a box. *)
#[local] Unset Elimination Schemes.
Inductive Hittable : Type :=
  | HSphere (s : Sphere)
  | HMovingSphere (s : MovingSphere)
  | HXyRect (s : XyRect)
  | HXzRect (s : XzRect)
  | HYzRect (s : YzRect)
  | HHittableList (objects : list Hittable)
  | HBvhNode (left right : Hittable) (bounding_box : Aabb).
#[local] Set Elimination Schemes.

Definition hit_fn : Type := Ray -> f64 -> f64 -> HitRecord -> bool * HitRecord.
Definition bounding_box_fn : Type := f64 -> f64 -> Aabb -> bool * Aabb.

Section TraitMethods.

(** The methods of the objects held behind [Rc<dyn Hittable>]. *)
Variable hit_of : Hittable -> hit_fn.
Variable bounding_box_of : Hittable -> bounding_box_fn.

(** The loop of [HittableList::hit] (post "Ch 6"), over the objects still to
    visit, with its three mutable variables. *)
Fixpoint HittableList_hit_loop (objects : list Hittable)
  (r : Ray) (t_min : f64) (hit_anything : bool) (closest_so_far : f64) (rec : HitRecord)
  : bool * HitRecord :=
  match objects with
  | [] => (hit_anything, rec)
  | object :: rest =>
      let temp_rec := HitRecord_new in
      let '(h, temp_rec) := hit_of object r t_min closest_so_far temp_rec in
      if h then HittableList_hit_loop rest r t_min true (t temp_rec) temp_rec
      else HittableList_hit_loop rest r t_min hit_anything closest_so_far rec
  end.

Definition HittableList_hit (objects : list Hittable) : hit_fn :=
  fun r t_min t_max rec =>
    HittableList_hit_loop objects r t_min false t_max rec.

(** [BvhNode::hit] (post "Ch 3. Bounding Volume Hierarchies"). *)
Definition BvhNode_hit (left right : Hittable) (bounding_box : Aabb) : hit_fn :=
  fun r t_min t_max rec =>
    if negb (Aabb_hit bounding_box r t_min t_max) then (false, rec)
    else
      let '(hit_left, rec) := hit_of left r t_min t_max rec in
      let t_max := if hit_left then t rec else t_max in
      let '(hit_right, rec) := hit_of right r t_min t_max rec in
      (hit_left || hit_right, rec).

(** The loop of [HittableList::bounding_box] (post "Ch 3. Bounding Volume
    Hierarchies"), over the objects still to visit. *)
Fixpoint HittableList_bounding_box_loop
  (objects : list Hittable) (time0 time1 : f64) (first_box : bool) (output_box : Aabb)
  : bool * Aabb :=
  match objects with
  | [] => (true, output_box)
  | object :: rest =>
      let temp_box := Aabb_zero in
      let '(ok, temp_box) := bounding_box_of object time0 time1 temp_box in
      if negb ok then (false, output_box)
      else
        let output_box :=
          if first_box then temp_box else Aabb_surrounding_box output_box temp_box in
        HittableList_bounding_box_loop rest time0 time1 false output_box
  end.

Definition HittableList_bounding_box (objects : list Hittable) : bounding_box_fn :=
  fun time0 time1 output_box =>
    match objects with
    | [] => (false, output_box)
    | _ :: _ => HittableList_bounding_box_loop objects time0 time1 true output_box
    end.

Definition BvhNode_bounding_box (bounding_box : Aabb) : bounding_box_fn :=
  fun _time0 _time1 output_box =>
    (true, Aabb_new (Aabb_min bounding_box) (Aabb_max bounding_box)).

End TraitMethods.

(** Dynamic dispatch of [hit]. *)
Fixpoint hit (h : Hittable) : hit_fn :=
  match h with
  | HSphere s => Sphere_hit s
  | HMovingSphere s => MovingSphere_hit s
  | HXyRect s => XyRect_hit s
  | HXzRect s => XzRect_hit s
  | HYzRect s => YzRect_hit s
  | HHittableList objects => HittableList_hit hit objects
  | HBvhNode l r bb => BvhNode_hit hit l r bb
  end.

(** Dynamic dispatch of [bounding_box]. *)
Fixpoint bounding_box (h : Hittable) : bounding_box_fn :=
  match h with
  | HSphere s => Sphere_bounding_box s
  | HMovingSphere s => MovingSphere_bounding_box s
  | HXyRect s => XyRect_bounding_box s
  | HXzRect s => XzRect_bounding_box s
  | HYzRect s => YzRect_bounding_box s
  | HHittableList objects => HittableList_bounding_box bounding_box objects
  | HBvhNode _ _ bb => BvhNode_bounding_box bb
  end.

(** ** 7. Building the hierarchy (post "Ch 3. Bounding Volume Hierarchies") *)

(** [a.partial_cmp(&b)]: no ordering when either side is NaN. *)
Definition f64_partial_cmp (a b : f64) : option comparison :=
  if a <? b then Some Lt
  else if a =? b then Some Eq
  else if a >? b then Some Gt
  else None.

Definition unwrap {A : Type} (o : option A) : result A :=
  match o with
  | Some a => Ok a
  | None => Panic
  end.

(** [objects[i]], a panic out of range. *)
Definition index {A : Type} (objects : list A) (i : nat) : result A :=
  unwrap (nth_error objects i).

(** [box_compare].  The two boxes start as the zero box; the [||] of the
    test does not ask [b] for its box when [a] has none.  The message on
    the diagnostic stream is not modelled.  [box_a.min()[axis]] and
    [box_b.min()[axis]] index a [Vec3]: an axis from 3 on panics. *)
Definition box_compare (a b : Hittable) (axis : nat) : result comparison :=
  let box_a := Aabb_zero in
  let box_b := Aabb_zero in
  let '(ok_a, box_a) := bounding_box a 0 0 box_a in
  let box_b := if ok_a then snd (bounding_box b 0 0 box_b) else box_b in
  do x <- unwrap (Vec3_index (Aabb_min box_a) axis);
  do y <- unwrap (Vec3_index (Aabb_min box_b) axis);
  unwrap (f64_partial_cmp x y).

Definition box_x_compare (a b : Hittable) : result comparison := box_compare a b 0.
Definition box_y_compare (a b : Hittable) : result comparison := box_compare a b 1.
Definition box_z_compare (a b : Hittable) : result comparison := box_compare a b 2.

(** [slice::sort_by]: the standard library's stable sort.  The result of a
    stable sort is fixed by the comparator, whatever the algorithm; it is
    computed here by insertion from the right, [x] going before the first
    element that is not smaller.  The call panics when the comparator does
    (on two or more elements every element is compared at least once). *)
Fixpoint insert_by {A : Type} (compare : A -> A -> result comparison) (x : A) (l : list A)
  : result (list A) :=
  match l with
  | [] => Ok [x]
  | y :: l' =>
      do c <- compare x y;
      match c with
      | Gt => do l'' <- insert_by compare x l'; Ok (y :: l'')
      | _ => Ok (x :: y :: l')
      end
  end.

Fixpoint sort_by {A : Type} (compare : A -> A -> result comparison) (l : list A)
  : result (list A) :=
  match l with
  | [] => Ok []
  | x :: l' => do s <- sort_by compare l'; insert_by compare x s
  end.

(** [objects[start..end].sort_by(comparator)]: the slice panics when
    [start > end] or [end > objects.len()]. *)
Definition sort_slice {A : Type} (compare : A -> A -> result comparison)
  (objects : list A) (start end_ : nat) : result (list A) :=
  if (end_ <? start)%nat || (List.length objects <? end_)%nat then Panic
  else
    do s <- sort_by compare (firstn (end_ - start) (skipn start objects));
    Ok (firstn start objects ++ s ++ skipn end_ objects).

(** [BvhNode::new].  The vector is borrowed mutably: it goes in and comes
    out, sorted where the calls sorted it.  The recursion is on slices of
    the vector, not on a structure, so it is given fuel; [end - start] with
    [end < start] overflows ([usize]) and ends the call either by the
    overflow check or, without it, by the slice of the third branch: both
    are [Panic].  The messages on the diagnostic stream are not modelled;
    as in [box_compare], [right] is not asked for its box when [left] has
    none. *)
Fixpoint BvhNode_new (fuel : nat) (objects : list Hittable) (start end_ : nat)
  (time0 time1 : f64) (g : Rng) : result (Hittable * list Hittable * Rng) :=
  match fuel with
  | O => OutOfFuel
  | S fuel' =>
      do (axis, g) <- random_usize_in_range 0 3 g;
      do comparator <-
        match axis with
        | 0%nat => Ok box_x_compare
        | 1%nat => Ok box_y_compare
        | 2%nat => Ok box_z_compare
        | _ => Panic
        end;
      if (end_ <? start)%nat then Panic
      else
        let object_span := (end_ - start)%nat in
        do (l, r, objects, g) <-
          (if (object_span =? 1)%nat then
             do o <- index objects start;
             Ok (o, o, objects, g)
           else if (object_span =? 2)%nat then
             do a <- index objects start;
             do b <- index objects (start + 1);
             do c <- comparator a b;
             match c with
             | Lt => Ok (a, b, objects, g)
             | _ => Ok (b, a, objects, g)
             end
           else
             do objects <- sort_slice comparator objects start end_;
             let mid := (start + object_span / 2)%nat in
             do (l, objects, g) <- BvhNode_new fuel' objects start mid time0 time1 g;
             do (r, objects, g) <- BvhNode_new fuel' objects mid end_ time0 time1 g;
             Ok (l, r, objects, g));
        let box_left := Aabb_zero in
        let box_right := Aabb_zero in
        let '(ok_left, box_left) := bounding_box l time0 time1 box_left in
        let box_right :=
          if ok_left then snd (bounding_box r time0 time1 box_right) else box_right in
        Ok (HBvhNode l r (Aabb_surrounding_box box_left box_right), objects, g)
  end.

(** ** 8. Materials and the integrator *)

(** [Rc<dyn Texture>], by its method [value(u, v, p)]. *)
Definition Texture : Type := f64 -> f64 -> Point3 -> Color.

(** [SolidColor] (post "Ch 4. Solid Textures"). *)
Definition SolidColor_value (color_value : Color) : Texture := fun _u _v _p => color_value.

(** The trait [Material] (posts "Ch 9. Metal", "Ch 7. Rectangles and
    Lights").  [scatter] writes through [&mut attenuation] and
    [&mut scattered] and may draw random numbers: the two values and the
    generator go in and come out. *)
Class Material : Type :=
  { scatter : M -> Ray -> HitRecord -> Color -> Ray -> Rng -> bool * Color * Ray * Rng;
    emitted : M -> f64 -> f64 -> Point3 -> Color }.

(** The default method [emitted] of the trait. *)
Definition Material_default_emitted (_u _v : f64) (_p : Point3) : Color := Vec3_new 0 0 0.

Context {material : Material}.

(** [ray_color] (post "Ch 7. Rectangles and Lights"); [depth] is a [u32],
    so [depth <= 0] is [depth == 0]. *)
Fixpoint ray_color (r : Ray) (background : Color) (world : Hittable) (depth : nat) (g : Rng)
  {struct depth} : result (Color * Rng) :=
  match depth with
  | O => Ok (Vec3_new 0 0 0, g)
  | S depth_minus_1 =>
      let rec := HitRecord_new in
      let '(h, rec) := hit world r 0.001 f64_INFINITY rec in
      if negb h then Ok (background, g)
      else
        let scattered := Ray_new (Vec3_new 0 0 0) (Vec3_new 0 0 0) 0 in
        let attenuation := Vec3_new 0 0 0 in
        do m <- unwrap (mat_ptr rec);
        let emitted := emitted m (u rec) (v rec) (p rec) in
        let '(ok, attenuation, scattered, g) := scatter m r rec attenuation scattered g in
        if negb ok then Ok (emitted, g)
        else
          do (c, g) <- ray_color scattered background world depth_minus_1 g;
          Ok (Vec3_add emitted (Vec3_mul attenuation c), g)
  end.

(** *** [Dielectric] (posts "Ch 10. Dielectrics", "Ch 2. Motion Blur") *)

Record Dielectric : Type := mkDielectric { ir : f64 }.

Definition Dielectric_new (ir : f64) : Dielectric := mkDielectric ir.

Definition Dielectric_reflectance (cosine ref_idx : f64) : f64 :=
  let r0 := (1 - ref_idx) / (1 + ref_idx) in
  let r0 := r0 * r0 in
  r0 + (1 - r0) * f64_powi (1 - cosine) 5.

(** [||] asks for [random()] only when the first test fails. *)
Definition Dielectric_scatter (self : Dielectric) (r_in : Ray) (rec : HitRecord)
  (attenuation : Color) (scattered : Ray) (g : Rng) : bool * Color * Ray * Rng :=
  let attenuation := Vec3_new 1 1 1 in
  let refraction_ratio := if front_face rec then 1 / ir self else ir self in
  let unit_direction := Vec3_unit_vector (Ray_direction r_in) in
  let cos_theta := f64_min (Vec3_dot (Vec3_neg unit_direction) (normal rec)) 1 in
  let sin_theta := f64_sqrt (1 - cos_theta * cos_theta) in
  let '(reflects, g) :=
    if refraction_ratio * sin_theta >? 1 then (true, g)
    else
      let '(x, g) := random g in
      (Dielectric_reflectance cos_theta refraction_ratio >? x, g) in
  let direction :=
    if reflects then Vec3_reflect unit_direction (normal rec)
    else Vec3_refract unit_direction (normal rec) refraction_ratio in
  let scattered := Ray_new (p rec) direction (Ray_time r_in) in
  (true, attenuation, scattered, g).

(** *** [DiffuseLight] (post "Ch 7. Rectangles and Lights") *)

Record DiffuseLight : Type := mkDiffuseLight { emit : Texture }.

Definition DiffuseLight_scatter (self : DiffuseLight) (_r_in : Ray) (_rec : HitRecord)
  (attenuation : Color) (scattered : Ray) (g : Rng) : bool * Color * Ray * Rng :=
  (false, attenuation, scattered, g).

Definition DiffuseLight_emitted (self : DiffuseLight) (u v : f64) (p : Point3) : Color :=
  emit self u v p.

End Hittables.

Arguments HitRecord M : clear implicits.
Arguments Hittable M : clear implicits.
Arguments Sphere M : clear implicits.
Arguments MovingSphere M : clear implicits.
Arguments XyRect M : clear implicits.
Arguments XzRect M : clear implicits.
Arguments YzRect M : clear implicits.
Arguments Material M : clear implicits.

(** The two materials embedded above behind one [Rc<dyn Material>].  The
    trait's default [emitted] serves [Dielectric]. *)
Inductive DynMaterial : Type :=
  | MDielectric (d : Dielectric)
  | MDiffuseLight (d : DiffuseLight).

#[export] Instance DynMaterial_Material : Material DynMaterial :=
  {| scatter := fun m =>
       match m with
       | MDielectric d => Dielectric_scatter d
       | MDiffuseLight d => DiffuseLight_scatter d
       end;
     emitted := fun m =>
       match m with
       | MDielectric _ => Material_default_emitted
       | MDiffuseLight d => DiffuseLight_emitted d
       end |}.

(** ** 9. The image writer (posts "Ch 7. Antialiasing", "Ch 8. Diffuse
    Materials") *)

Definition clamp (x min max : f64) : f64 :=
  if x <? min then min else if x >? max then max else x.

(** The decimal text of a [u32], as [{}] formats it. *)
Definition u32_to_string (n : Z) : String.string :=
  DecimalString.NilZero.string_of_uint (N.to_uint (Z.to_N n)).

(** One channel of [write_color]: [(256.0 * clamp(c, 0.0, 0.999)) as u32]. *)
Definition channel_byte (c : f64) : Z := f64_as_u32 (256 * clamp c 0 0.999).

(** The three integers [write_color] formats, in order. *)
Definition write_color_channels (color : Color) (samples_per_pixel : Z) : Z * Z * Z :=
  let scale := 1 / f64_of_Z samples_per_pixel in
  let r := f64_sqrt (Vec3_x color * scale) in
  let g := f64_sqrt (Vec3_y color * scale) in
  let b := f64_sqrt (Vec3_z color * scale) in
  (channel_byte r, channel_byte g, channel_byte b).

(** [write_color]: the text handed to the writer,
    ["{} {} {}\n"] of the three integers. *)
Definition write_color (color : Color) (samples_per_pixel : Z) : String.string :=
  let '(r, g, b) := write_color_channels color samples_per_pixel in
  String.append (u32_to_string r)
    (String.append (String.String (Ascii.ascii_of_nat 32) String.EmptyString)
       (String.append (u32_to_string g)
          (String.append (String.String (Ascii.ascii_of_nat 32) String.EmptyString)
             (String.append (u32_to_string b)
                (String.String (Ascii.ascii_of_nat 10) String.EmptyString))))).

(** ** 10. Perlin noise (post "Ch 5. Perlin Noise") *)

Definition POINT_COUNT : nat := 256.

(** [p[i] = x] on an array, a panic out of range. *)
Fixpoint array_set {A : Type} (p : list A) (i : nat) (x : A) : result (list A) :=
  match p, i with
  | [], _ => Panic
  | _ :: rest, O => Ok (x :: rest)
  | y :: rest, S i' => do rest' <- array_set rest i' x; Ok (y :: rest')
  end.

(** The body of the loop of [permute] for index [i]. *)
Definition permute_step (p : list Z) (i : nat) (g : Rng) : result (list Z * Rng) :=
  do (target, g) <- random_usize_in_range 0 i g;
  do tmp <- index p i;
  do pt <- index p target;
  do p <- array_set p i pt;
  do p <- array_set p target tmp;
  Ok (p, g).

Fixpoint permute_loop (p : list Z) (indices : list nat) (g : Rng) : result (list Z * Rng) :=
  match indices with
  | [] => Ok (p, g)
  | i :: rest => do (p, g) <- permute_step p i g; permute_loop p rest g
  end.

(** [permute(p, n)]: [for i in (1..n - 1).rev()]; [n - 1] overflows for
    [n = 0]. *)
Definition permute (p : list Z) (n : nat) (g : Rng) : result (list Z * Rng) :=
  if (n =? 0)%nat then Panic
  else permute_loop p (rev (seq 1 (n - 1 - 1))) g.

(** [perlin_generate_perm]: the array [0, 1, ..., 255], permuted. *)
Definition perlin_generate_perm (g : Rng) : result (list Z * Rng) :=
  let p := map Z.of_nat (seq 0 256) in
  permute p POINT_COUNT g.

Record Perlin : Type := mkPerlin
  { ranvec : list Vec3; perm_x : list Z; perm_y : list Z; perm_z : list Z }.

(** Modelled from the spec: [random_in_range(min, max)] on [f64] is listed
    in no post; section 4.1 has it uniform between the bounds, which is
    [min + (max - min) * random()] on the tape. *)
Definition random_in_range (min max : f64) (g : Rng) : f64 * Rng :=
  let '(x, g) := random g in (min + (max - min) * x, g).

(** [Vec3::random_in_range] (post "Ch 8. Diffuse Materials"). *)
Definition Vec3_random_in_range (min max : f64) (g : Rng) : Vec3 * Rng :=
  let '(x, g) := random_in_range min max g in
  let '(y, g) := random_in_range min max g in
  let '(z, g) := random_in_range min max g in
  (Vec3_new x y z, g).

Fixpoint ranvec_fill (n : nat) (g : Rng) : list Vec3 * Rng :=
  match n with
  | O => ([], g)
  | S n' =>
      let '(x, g) := Vec3_random_in_range (-1) 1 g in
      let '(rest, g) := ranvec_fill n' g in
      (Vec3_unit_vector x :: rest, g)
  end.

Definition Perlin_new (g : Rng) : result (Perlin * Rng) :=
  let '(ranvec, g) := ranvec_fill 256 g in
  do (px, g) <- perlin_generate_perm g;
  do (py, g) <- perlin_generate_perm g;
  do (pz, g) <- perlin_generate_perm g;
  Ok (mkPerlin ranvec px py pz, g).

(** [a + b] on [i32]: with overflow checks (the default of a debug build)
    an overflow panics, without them (a release build) it wraps. *)
Definition i32_wrap (n : Z) : Z := ((n - i32_MIN) mod 2 ^ 32 + i32_MIN)%Z.

Definition i32_add (overflow_checks : bool) (a b : Z) : result Z :=
  let s := (a + b)%Z in
  if ((i32_MIN <=? s) && (s <=? i32_MAX))%Z then Ok s
  else if overflow_checks then Panic else Ok (i32_wrap s).

(** [n as usize] for an [i32]: a negative value becomes a huge index. *)
Definition i32_as_usize (n : Z) : nat := Z.to_nat (n mod 2 ^ 64).

(** One corner of the lattice cell in [Perlin::noise]: the vector stored in
    [c[di][dj][dk]]. *)
Definition Perlin_corner (overflow_checks : bool) (self : Perlin) (i j k di dj dk : Z)
  : result Vec3 :=
  do i' <- i32_add overflow_checks i di;
  let i := i32_as_usize (Z.land i' 255) in
  do j' <- i32_add overflow_checks j dj;
  let j := i32_as_usize (Z.land j' 255) in
  do k' <- i32_add overflow_checks k dk;
  let k := i32_as_usize (Z.land k' 255) in
  do hx <- index (perm_x self) i;
  do hy <- index (perm_y self) j;
  do hz <- index (perm_z self) k;
  let hash := i32_as_usize (Z.lxor (Z.lxor hx hy) hz) in
  index (ranvec self) hash.

(** The eight corners in the order the three nested loops visit them. *)
Definition corners : list (Z * Z * Z) :=
  [(0, 0, 0); (0, 0, 1); (0, 1, 0); (0, 1, 1); (1, 0, 0); (1, 0, 1); (1, 1, 0); (1, 1, 1)]%Z.

Fixpoint Perlin_gather (overflow_checks : bool) (self : Perlin) (i j k : Z)
  (ds : list (Z * Z * Z)) : result (list Vec3) :=
  match ds with
  | [] => Ok []
  | (di, dj, dk) :: rest =>
      do x <- Perlin_corner overflow_checks self i j k di dj dk;
      do xs <- Perlin_gather overflow_checks self i j k rest;
      Ok (x :: xs)
  end.

(** [perlin_interp]: [c] holds [c[i][j][k]] at position [4i + 2j + k]. *)
Definition perlin_interp (c : list Vec3) (u v w : f64) : f64 :=
  let uu := u * u * (3 - 2 * u) in
  let vv := v * v * (3 - 2 * v) in
  let ww := w * w * (3 - 2 * w) in
  fold_left
    (fun accum '((i, j, k), cijk) =>
       let fi := f64_of_Z i in
       let fj := f64_of_Z j in
       let fk := f64_of_Z k in
       let weight_v := Vec3_new (u - fi) (v - fj) (w - fk) in
       accum + 1 * (fi * uu + (1 - fi) * (1 - uu))
                 * (fj * vv + (1 - fj) * (1 - vv))
                 * (fk * ww + (1 - fk) * (1 - ww))
                 * Vec3_dot cijk weight_v)
    (combine corners c) 0.

(** [Perlin::noise], the last version of the post (random vectors on the
    lattice). *)
Definition Perlin_noise (overflow_checks : bool) (self : Perlin) (p : Point3) : result f64 :=
  let u := Vec3_x p - f64_floor (Vec3_x p) in
  let v := Vec3_y p - f64_floor (Vec3_y p) in
  let w := Vec3_z p - f64_floor (Vec3_z p) in
  let i := f64_as_i32 (f64_floor (Vec3_x p)) in
  let j := f64_as_i32 (f64_floor (Vec3_y p)) in
  let k := f64_as_i32 (f64_floor (Vec3_z p)) in
  do c <- Perlin_gather overflow_checks self i j k corners;
  Ok (perlin_interp c u v w).


(** ** 11. The specification's side, and inputs for the examples *)

(** A statement that holds whatever the platform's math library computes. *)
Definition for_every_libm (P : Libm -> Prop) : Prop := forall libm : Libm, P libm.

(** The slab test as the specification describes it: the bounds tightened
    on one axis are the bounds the next axis starts from. *)
Fixpoint Aabb_hit_running (b : Aabb) (r : Ray) (t_min t_max : f64) (axes : list nat) : bool :=
  match axes with
  | [] => true
  | a :: rest =>
      let inv_d := 1 / Vec3_at (Ray_direction r) a in
      let t0 := (Vec3_at (Aabb_min b) a - Vec3_at (Ray_origin r) a) * inv_d in
      let t1 := (Vec3_at (Aabb_max b) a - Vec3_at (Ray_origin r) a) * inv_d in
      let '(t0, t1) := if inv_d <? 0 then (t1, t0) else (t0, t1) in
      let t_min := if t0 >? t_min then t0 else t_min in
      let t_max := if t1 <? t_max then t1 else t_max in
      if t_max <=? t_min then false else Aabb_hit_running b r t_min t_max rest
  end.

(** The unit sphere at the origin, of glass, and a ray that comes down on it
    along (0, -1, -1) from (0, 2, 2). *)
Definition unit_glass_sphere : Sphere DynMaterial :=
  Sphere_new (Vec3_new 0 0 0) 1 (MDielectric (Dielectric_new 1.5)).

Definition diagonal_ray : Ray := Ray_new (Vec3_new 0 2 2) (Vec3_new 0 (-1) (-1)) 0.

Definition unit_box : Aabb := Aabb_new (Vec3_new 0 0 0) (Vec3_new 1 1 1).

(** A ray in the plane z = 0.5 that passes the unit box at a distance: it
    is between x = 0 and x = 1 for t in [2, 3] and between y = 0 and y = 1
    for t in [0.5, 1.5]. *)
Definition passing_ray : Ray := Ray_new (Vec3_new (-2) 1.5 0.5) (Vec3_new 1 (-1) 0) 0.

(** The light of the Cornell box of the post: [XzRect::new(213, 343, 227,
    332, 554, light)], and its green wall [YzRect::new(0, 555, 0, 555, 555,
    green)] (materials aside). *)
Definition cornell_light : XzRect DynMaterial :=
  XzRect_new 213 343 227 332 554 (MDiffuseLight (mkDiffuseLight (SolidColor_value (Vec3_new 15 15 15)))).

Definition cornell_green_wall : YzRect DynMaterial :=
  YzRect_new 0 555 0 555 555 (MDielectric (Dielectric_new 1.5)).

(** A math library that answers as the real functions do at 0, whatever the
    argument. *)
Definition libm_at_zero : Libm :=
  {| f64_cos := fun _ => 1; f64_acos := fun _ => f64_PI / 2; f64_atan2 := fun _ _ => 0 |}.


(** The Schlick reflectance with [r0] computed from the material's index
    [ir], as the specification writes it. *)
Definition reflectance_spec (cosine ir : f64) : f64 :=
  let r0 := (1 - ir) / (1 + ir) in
  let r0 := r0 * r0 in
  r0 + (1 - r0) * f64_powi (1 - cosine) 5.

(** A ray that goes down the z axis onto a front face of glass whose normal
    makes the cosine 0.875 with it, and a generator whose next draw is
    [x]. *)
Definition glass : Dielectric := Dielectric_new 1.5.

Definition ray_down_z : Ray := Ray_new (Vec3_new 0 0 1) (Vec3_new 0 0 (-1)) 0.

Definition tilted_front_face : HitRecord DynMaterial :=
  mkHitRecord (Vec3_new 0 0 0) (Vec3_new (f64_sqrt (1 - 0.875 * 0.875)) 0 0.875)
    None 1 0 0 true.

Definition constant_rng (x : f64) : Rng := mkRng (fun _ => x) (fun _ => O) 0.

(** A scene for the integrator: a square light in the plane z = -2 and a
    glass pane in the plane z = -1, both facing the origin. *)
Definition square_light : Hittable DynMaterial :=
  HXyRect (XyRect_new (-1) 1 (-1) 1 (-2)
             (MDiffuseLight (mkDiffuseLight (SolidColor_value (Vec3_new 4 4 4))))).

Definition glass_pane : Hittable DynMaterial :=
  HXyRect (XyRect_new (-1) 1 (-1) 1 (-1) (MDielectric glass)).

Definition sky : Color := Vec3_new 0.5 0.7 1.

(** The values [ray_color] initialises [attenuation] and [scattered]
    with. *)
Definition black : Color := Vec3_new 0 0 0.
Definition no_ray : Ray := Ray_new (Vec3_new 0 0 0) (Vec3_new 0 0 0) 0.

Definition ray_up_z : Ray := Ray_new (Vec3_new 0 0 0) (Vec3_new 0 0 1) 0.
Definition ray_to_light : Ray := Ray_new (Vec3_new 0 0 0) (Vec3_new 0 0 (-1)) 0.

(** The record [XyRect::hit] writes when [ray_to_light] meets
    [square_light]. *)
Definition light_hit_record : HitRecord DynMaterial :=
  mkHitRecord (Vec3_new 0 0 (-2)) (Vec3_new (-0) (-0) (-1))
    (Some (MDiffuseLight (mkDiffuseLight (SolidColor_value (Vec3_new 4 4 4)))))
    2 0.5 0.5 false.

(** One channel as the claim writes it, with the quotient [channel / n]
    under the square root. *)
Definition channel_byte_spec (channel : f64) (n : Z) : Z :=
  f64_as_u32 (256 * clamp (f64_sqrt (channel / f64_of_Z n)) 0 0.999).

(** The binary64 values 256 = 2^52 * 2^-44 and 0.999. *)
Definition two52 : positive := 4503599627370496.
Definition SF_0_999 : spec_float := S754_finite false 8998192055486251 (-53).

(** Perlin noise: the exchange [permute] makes, the tables it starts
    from and ends with, and the lattice cell of a coordinate. *)
Definition swap_index (i j k : nat) : nat :=
  if (k =? i)%nat then j else if (k =? j)%nat then i else k.

Definition identity_table : list Z := map Z.of_nat (seq 0 256).

Definition table_in_range (p : list Z) : Prop :=
  List.length p = 256%nat /\ Forall (fun x => 0 <= x < 256)%Z p.

Definition Perlin_tables_ok (self : Perlin) : Prop :=
  List.length (ranvec self) = 256%nat
  /\ table_in_range (perm_x self) /\ table_in_range (perm_y self)
  /\ table_in_range (perm_z self).

Definition permutation_table (p : list Z) : Prop :=
  Permutation p identity_table /\ nth_error p 255 = Some 255%Z.

(** The lattice cell of a point: [f64::floor(c) as i32] per coordinate. *)
Definition cell (c : f64) : Z := f64_as_i32 (f64_floor c).

(** A generator for the examples: its draws vary with the position. *)
Definition demo_rng : Rng :=
  mkRng (fun n => f64_of_Z (Z.of_nat ((n * 37) mod 101)) / 101) (fun n => (n * 13)%nat) 0.

(** ** 12. The hierarchy against the list: the nearest candidate

    The definitions of this part are not listings: they say what it means
    for two searches to find the same closest hit, and under which
    conditions on the ray the listings of parts 5 to 7 do. *)

(** *** The order of [f64]

    [a] is not NaN: the only values that differ from themselves. *)
Definition nonnan (a : f64) : bool := a =? a.

(** An integer that orders the values that are not NaN as [<], [<=] and
    [==] order them: the exponent and the mantissa of a finite value, in
    that order, under its sign; both zeros are 0 and the infinities are
    beyond every finite value. *)
Definition SF_rank (f : spec_float) : Z :=
  match f with
  | S754_zero _ => 0
  | S754_infinity s => if s then - 2 ^ 64 else 2 ^ 64
  | S754_nan => 0
  | S754_finite s m e =>
      let k := ((e + 1075) * 2 ^ 53 + Zpos m)%Z in if s then (- k)%Z else k
  end.

Definition rank (a : f64) : Z := SF_rank (Prim2SF a).

Section Nearest.

Context {M : Type}.
Context {libm : Libm}.

(** A distance along the ray at which an object can be hit, and whether
    the object wants it strictly below [t_max] (the spheres test
    [temp < t_max], the rectangles reject [t > t_max]). *)
Definition candidate : Type := (f64 * bool)%type.

Definition accepts (t_max : f64) (c : candidate) : bool :=
  if snd c then fst c <? t_max else negb (t_max <? fst c).

Definition valid_candidates (cs : list candidate) : Prop :=
  Forall (fun c => nonnan (fst c) = true) cs.

(** [x] is a smallest of the candidates within [t_max]. *)
Definition nearest (cs : list candidate) (t_max x : f64) : Prop :=
  (exists c, In c cs /\ accepts t_max c = true /\ (x =? fst c) = true) /\
  (forall c, In c cs -> (fst c <? x) = false).

(** What a search for the candidates [cs] within [t_max] comes to, the
    record being [rec] before: it reports a hit exactly when a candidate is
    within the bound, the [t] of the record is then a smallest such
    candidate, and a record that is not hit is left as it was. *)
Definition outcome (cs : list candidate) (t_max : f64) (rec : HitRecord M)
  (res : bool * HitRecord M) : Prop :=
  fst res = existsb (accepts t_max) cs /\
  (fst res = true -> nearest cs t_max (t (snd res))) /\
  (fst res = false -> snd res = rec).

(** A hit function (the ray and [t_min] fixed) answers for the candidates
    [cs]: it does so for every bound that is a number. *)
Definition answers (f : f64 -> HitRecord M -> bool * HitRecord M) (cs : list candidate)
  : Prop :=
  forall t_max rec, nonnan t_max = true -> outcome cs t_max rec (f t_max rec).

(** The discriminant and the two roots [Sphere::hit] and [MovingSphere::hit]
    compute for a sphere at [center]. *)
Definition sphere_roots (center : Point3) (radius : f64) (r : Ray) : f64 * f64 * f64 :=
  let oc := Vec3_sub (Ray_origin r) center in
  let a := Vec3_length_squared (Ray_direction r) in
  let half_b := Vec3_dot oc (Ray_direction r) in
  let c := Vec3_length_squared oc - radius * radius in
  let discriminant := half_b * half_b - a * c in
  let root := f64_sqrt discriminant in
  (discriminant, (- half_b - root) / a, (- half_b + root) / a).

(** The root a sphere can report from [t_min] on: the first one if it is
    beyond [t_min], else the second one if that is. *)
Definition root_candidates (roots : f64 * f64 * f64) (t_min : f64) : list candidate :=
  let '(discriminant, temp1, temp2) := roots in
  if discriminant >? 0 then
    if temp1 >? t_min then [(temp1, true)]
    else if temp2 >? t_min then [(temp2, true)]
    else []
  else [].

(** The second root is not before the first. *)
Definition roots_ordered (roots : f64 * f64 * f64) : Prop :=
  let '(_, temp1, temp2) := roots in (temp2 <? temp1) = false.

(** Where the ray meets the plane of a rectangle, and whether it does so
    within the rectangle's extent. *)
Definition XyRect_plane (s : XyRect M) (r : Ray) : f64 :=
  (XyRect_k s - Vec3_z (Ray_origin r)) / Vec3_z (Ray_direction r).

Definition XyRect_inside (s : XyRect M) (r : Ray) : bool :=
  let t' := XyRect_plane s r in
  let x := Vec3_x (Ray_origin r) + t' * Vec3_x (Ray_direction r) in
  let y := Vec3_y (Ray_origin r) + t' * Vec3_y (Ray_direction r) in
  negb ((x <? XyRect_x0 s) || (x >? XyRect_x1 s) || (y <? XyRect_y0 s) || (y >? XyRect_y1 s)).

Definition XzRect_plane (s : XzRect M) (r : Ray) : f64 :=
  (XzRect_k s - Vec3_y (Ray_origin r)) / Vec3_y (Ray_direction r).

Definition XzRect_inside (s : XzRect M) (r : Ray) : bool :=
  let t' := XzRect_plane s r in
  let x := Vec3_x (Ray_origin r) + t' * Vec3_x (Ray_direction r) in
  let z := Vec3_z (Ray_origin r) + t' * Vec3_z (Ray_direction r) in
  negb ((x <? XzRect_x0 s) || (x >? XzRect_x1 s) || (z <? XzRect_z0 s) || (z >? XzRect_z1 s)).

Definition YzRect_plane (s : YzRect M) (r : Ray) : f64 :=
  (YzRect_k s - Vec3_x (Ray_origin r)) / Vec3_x (Ray_direction r).

Definition YzRect_inside (s : YzRect M) (r : Ray) : bool :=
  let t' := YzRect_plane s r in
  let y := Vec3_y (Ray_origin r) + t' * Vec3_y (Ray_direction r) in
  let z := Vec3_z (Ray_origin r) + t' * Vec3_z (Ray_direction r) in
  negb ((y <? YzRect_y0 s) || (y >? YzRect_y1 s) || (z <? YzRect_z0 s) || (z >? YzRect_z1 s)).

(** The distance a rectangle can report from [t_min] on. *)
Definition rect_candidates (t' : f64) (inside : bool) (t_min : f64) : list candidate :=
  if t' <? t_min then [] else if inside then [(t', false)] else [].

(** The candidates of a hittable for the ray [r] from [t_min] on: those of
    the primitives it is made of. *)
Fixpoint candidates (r : Ray) (t_min : f64) (h : Hittable M) : list candidate :=
  match h with
  | HSphere s => root_candidates (sphere_roots (Sphere_center s) (Sphere_radius s) r) t_min
  | HMovingSphere s =>
      root_candidates
        (sphere_roots (MovingSphere_center s (Ray_time r)) (MovingSphere_radius s) r) t_min
  | HXyRect s => rect_candidates (XyRect_plane s r) (XyRect_inside s r) t_min
  | HXzRect s => rect_candidates (XzRect_plane s r) (XzRect_inside s r) t_min
  | HYzRect s => rect_candidates (YzRect_plane s r) (YzRect_inside s r) t_min
  | HHittableList objects => flat_map (candidates r t_min) objects
  | HBvhNode l rt _ => candidates r t_min l ++ candidates r t_min rt
  end.

(** The box of a node lets through every bound at which one of its two
    children reports a hit. *)
Definition box_admits (r : Ray) (t_min : f64) (l rt : Hittable M) (b : Aabb) : Prop :=
  forall t_max rec, nonnan t_max = true ->
    fst (hit l r t_min t_max rec) = true \/ fst (hit rt r t_min t_max rec) = true ->
    Aabb_hit b r t_min t_max = true.

(** The ray [r] from [t_min] on is regular for a hittable: the roots of
    its spheres are in order, the ray meets the plane of each of its
    rectangles at a distance that is a number, and the box of each of its
    nodes admits what the node's children report. *)
Fixpoint regular (r : Ray) (t_min : f64) (h : Hittable M) : Prop :=
  match h with
  | HSphere s => roots_ordered (sphere_roots (Sphere_center s) (Sphere_radius s) r)
  | HMovingSphere s =>
      roots_ordered
        (sphere_roots (MovingSphere_center s (Ray_time r)) (MovingSphere_radius s) r)
  | HXyRect s => nonnan (XyRect_plane s r) = true
  | HXzRect s => nonnan (XzRect_plane s r) = true
  | HYzRect s => nonnan (YzRect_plane s r) = true
  | HHittableList objects => fold_right (fun o P => regular r t_min o /\ P) True objects
  | HBvhNode l rt b =>
      box_admits r t_min l rt b /\ regular r t_min l /\ regular r t_min rt
  end.

(** An object whose [hit] answers for its candidates. *)
Definition well_answered (r : Ray) (t_min : f64) (o : Hittable M) : Prop :=
  valid_candidates (candidates r t_min o) /\
  answers (hit o r t_min) (candidates r t_min o).

(** A hittable that answers [false] leaves the record as it was. *)
Definition miss_keeps_record (h : Hittable M) : Prop :=
  forall r t_min t_max rec rec',
    hit h r t_min t_max rec = (false, rec') -> rec' = rec.

(** A hittable that answers [true] has written a material. *)
Definition hit_writes_material (h : Hittable M) : Prop :=
  forall r t_min t_max rec rec',
    hit h r t_min t_max rec = (true, rec') -> mat_ptr rec' <> None.


(** What [box_compare] needs of an object: the minimum of its box at time 0
    is a number on every axis ([partial_cmp] has an answer). *)
Definition comparable (o : Hittable M) : bool :=
  forallb (fun axis => nonnan (Vec3_at (Aabb_min (snd (bounding_box o 0 0 Aabb_zero))) axis))
    [0; 1; 2]%nat.

End Nearest.




(** The node of a result of [BvhNode::new]. *)
Definition node_of {M : Type} (res : result (Hittable M * list (Hittable M) * Rng))
  : option (Hittable M) :=
  match res with
  | Ok (node, _, _) => Some node
  | _ => None
  end.

(** A scene of three objects on the z axis, the ray [ray_down_z] meeting the
    pane at 2, the light at 3 and the sphere at 3.5; and a generator whose
    draws choose the axes x, y, z in turn. *)
Definition far_sphere : Hittable DynMaterial :=
  HSphere (Sphere_new (Vec3_new 0 0 (-3)) 0.5 (MDielectric glass)).

Definition three_objects : list (Hittable DynMaterial) :=
  [far_sphere; glass_pane; square_light].

Definition axis_rng : Rng := mkRng (fun _ => 0) (fun n => n) 0.




(** The ray straight up from the middle of the Cornell box of the post,
    towards its light. *)
Definition ray_up_to_light : Ray := Ray_new (Vec3_new 278 278 280) (Vec3_new 0 1 0) 0.


(** ** 13. Further listings, and what their properties are stated with *)

(** [x] is a zero of either sign or not a number: what a product with a
    zero comes to. *)
Definition zeroish (x : f64) : bool :=
  match Prim2SF x with
  | S754_zero _ | S754_nan => true
  | _ => false
  end.

(** The six coordinates of a box are numbers. *)
Definition Aabb_numbers (b : Aabb) : bool :=
  forallb nonnan
    [e0 (Aabb_min b); e1 (Aabb_min b); e2 (Aabb_min b);
     e0 (Aabb_max b); e1 (Aabb_max b); e2 (Aabb_max b)].

(** [outer] reaches at least as far as [inner] on the three axes. *)
Definition Aabb_encloses (outer inner : Aabb) : bool :=
  forallb
    (fun a => (Vec3_at (Aabb_min outer) a <=? Vec3_at (Aabb_min inner) a)
              && (Vec3_at (Aabb_max inner) a <=? Vec3_at (Aabb_max outer) a))
    [0; 1; 2]%nat.

Section Primitives.

Context {M : Type}.

(** The two spheres among the hittables. *)
Definition is_sphere (h : Hittable M) : bool :=
  match h with
  | HSphere _ | HMovingSphere _ => true
  | _ => false
  end.

(** The outward normal [XyRect::hit] and [XzRect::hit] pass to
    [set_face_normal], negated. *)
Definition back_normal (h : Hittable M) : option Vec3 :=
  match h with
  | HXyRect _ => Some (Vec3_new (-0) (-0) (-1))
  | HXzRect _ => Some (Vec3_new (-0) (-1) (-0))
  | _ => None
  end.

(** For a rectangle and a ray: the offset [k] of the rectangle's plane and
    the coordinates of the ray's origin and direction across the plane. *)
Definition rect_offset (h : Hittable M) (r : Ray) : option (f64 * f64 * f64) :=
  match h with
  | HXyRect s => Some (XyRect_k s, Vec3_z (Ray_origin r), Vec3_z (Ray_direction r))
  | HXzRect s => Some (XzRect_k s, Vec3_y (Ray_origin r), Vec3_y (Ray_direction r))
  | HYzRect s => Some (YzRect_k s, Vec3_x (Ray_origin r), Vec3_x (Ray_direction r))
  | _ => None
  end.

End Primitives.

(** Inputs for the examples: the unit glass sphere as a hittable, and a ray
    that lies in the plane z = -1 of [glass_pane]. *)
Definition glass_ball : Hittable DynMaterial := HSphere unit_glass_sphere.

Definition ray_in_pane : Ray := Ray_new (Vec3_new 0 0 (-1)) (Vec3_new 1 0 0) 0.

(** A box that overlaps [unit_box]. *)
Definition offset_box : Aabb := Aabb_new (Vec3_new (-1) 0.5 2) (Vec3_new 0.5 3 4).

(** *** Sampling (posts "Ch 8. Diffuse Materials", "Ch 9. Metal") *)

(** [Vec3::random_in_unit_sphere]: the [loop] draws a vector of the cube
    [-1, 1]^3 until one has [length_squared() < 1.0].  Nothing bounds the
    number of rounds, so the loop is given fuel. *)
Fixpoint Vec3_random_in_unit_sphere (fuel : nat) (g : Rng) : result (Vec3 * Rng) :=
  match fuel with
  | O => OutOfFuel
  | S fuel' =>
      let '(p, g) := Vec3_random_in_range (-1) 1 g in
      if Vec3_length_squared p <? 1 then Ok (p, g)
      else Vec3_random_in_unit_sphere fuel' g
  end.

(** The generator [k] draws further on. *)
Definition Rng_at (g : Rng) (k : nat) : Rng :=
  mkRng (f64_draws g) (usize_draws g) (pos g + k).

(** The vector the round number [n] of the loop draws (rounds count from 0,
    three draws each). *)
Definition cube_sample (g : Rng) (n : nat) : Vec3 :=
  fst (Vec3_random_in_range (-1) 1 (Rng_at g (3 * n))).

(** *** [Metal] (posts "Ch 9. Metal", "Ch 2. Motion Blur") *)

Record Metal : Type := mkMetal { albedo : Color; fuzz : f64 }.

(** [Metal::new]: [fuzz: f.min(1.0)]. *)
Definition Metal_new (albedo : Color) (f : f64) : Metal := mkMetal albedo (f64_min f 1).

(** [Metal::scatter]: the attenuation, the scattered ray and the generator
    come out beside the answer. *)
Definition Metal_scatter {M : Type} (fuel : nat) (self : Metal) (r_in : Ray)
  (rec : HitRecord M) (g : Rng) : result (bool * Color * Ray * Rng) :=
  let reflected := Vec3_reflect (Vec3_unit_vector (Ray_direction r_in)) (normal rec) in
  do (s, g) <- Vec3_random_in_unit_sphere fuel g;
  let scattered :=
    Ray_new (p rec) (Vec3_add reflected (Vec3_scale (fuzz self) s)) (Ray_time r_in) in
  let attenuation := albedo self in
  Ok (Vec3_dot (Ray_direction scattered) (normal rec) >? 0, attenuation, scattered, g).

(** [x] is NaN or +infinity: what a sum of squares comes to when a term is
    not finite. *)
Definition overflowed (x : f64) : bool :=
  match Prim2SF x with
  | S754_nan | S754_infinity false => true
  | _ => false
  end.

(** *** The first [Perlin] of the post "Ch 5. Perlin Noise": hashed random
    floats, before the lattice cell and the interpolation come in *)

Module Hashed.

Record Perlin : Type := mkPerlin
  { ranfloat : list f64; perm_x : list Z; perm_y : list Z; perm_z : list Z }.

(** [for i in 0..ranfloat.len() { ranfloat[i] = random(); }] *)
Fixpoint ranfloat_fill (n : nat) (g : Rng) : list f64 * Rng :=
  match n with
  | O => ([], g)
  | S n' =>
      let '(x, g) := random g in
      let '(rest, g) := ranfloat_fill n' g in
      (x :: rest, g)
  end.

Definition Perlin_new (g : Rng) : result (Perlin * Rng) :=
  let '(ranfloat, g) := ranfloat_fill 256 g in
  do (px, g) <- perlin_generate_perm g;
  do (py, g) <- perlin_generate_perm g;
  do (pz, g) <- perlin_generate_perm g;
  Ok (mkPerlin ranfloat px py pz, g).

(** [Perlin::noise]: [((4.0 * p.x()) as i32 & 255) as usize] per axis. *)
Definition Perlin_noise (self : Perlin) (p : Point3) : result f64 :=
  let i := i32_as_usize (Z.land (f64_as_i32 (4 * Vec3_x p)) 255) in
  let j := i32_as_usize (Z.land (f64_as_i32 (4 * Vec3_y p)) 255) in
  let k := i32_as_usize (Z.land (f64_as_i32 (4 * Vec3_z p)) 255) in
  do hx <- index (perm_x self) i;
  do hy <- index (perm_y self) j;
  do hz <- index (perm_z self) k;
  index (ranfloat self) (i32_as_usize (Z.lxor (Z.lxor hx hy) hz)).

End Hashed.

(** *** Turbulence *)

(** [impl ops::MulAssign<f64> for Vec3]. *)
Definition Vec3_mul_assign (self : Vec3) (rhs : f64) : Vec3 :=
  Vec3_new (e0 self * rhs) (e1 self * rhs) (e2 self * rhs).

(** The loop of [Perlin::turb], [n] rounds to go. *)
Fixpoint turb_loop (overflow_checks : bool) (self : Perlin) (n : nat)
  (accum : f64) (temp_p : Point3) (weight : f64) : result f64 :=
  match n with
  | O => Ok accum
  | S n' =>
      do x <- Perlin_noise overflow_checks self temp_p;
      let accum := accum + weight * x in
      let weight := weight * 0.5 in
      let temp_p := Vec3_mul_assign temp_p 2 in
      turb_loop overflow_checks self n' accum temp_p weight
  end.

(** [Perlin::turb]; [depth] is an [Option<i32>], and [0..depth] is empty
    for a depth of zero or less. *)
Definition Perlin_turb (overflow_checks : bool) (self : Perlin) (p : Point3)
  (depth : option Z) : result f64 :=
  let depth := match depth with Some d => d | None => 7%Z end in
  do accum <- turb_loop overflow_checks self (Z.to_nat depth) 0 p 1;
  Ok (f64_abs accum).

(** *** Image textures (post "Ch 6. Image Texture Mapping") *)

Module ImageTextureMapping.

(** The two comparisons of [PartialOrd] that [clamp] uses. *)
Class PartialOrd (T : Type) : Type := { lt : T -> T -> bool; gt : T -> T -> bool }.

#[global] Instance f64_PartialOrd : PartialOrd f64 :=
  {| lt := fun a b => a <? b; gt := fun a b => a >? b |}.

#[global] Instance u32_PartialOrd : PartialOrd Z :=
  {| lt := Z.ltb; gt := Z.gtb |}.

(** The generic [clamp<T: PartialOrd>] of the post. *)
Definition clamp {T : Type} `{PartialOrd T} (x min max : T) : T :=
  if lt x min then min else if gt x max then max else x.

(** The [image] crate is not part of the repository; its [DynamicImage] is
    modelled by what the listing uses of it: [width()] and [height()], both
    [u32], and [get_pixel(x, y)], which gives the four bytes of an
    [Rgba<u8>] and panics for a position outside the image. *)
Record DynamicImage : Type := mkDynamicImage
  { width : Z; height : Z;
    pixel_at : Z -> Z -> Byte.byte * Byte.byte * Byte.byte * Byte.byte }.

Definition get_pixel (img : DynamicImage) (x y : Z)
  : result (Byte.byte * Byte.byte * Byte.byte * Byte.byte) :=
  if ((x <? width img) && (y <? height img))%Z then Ok (pixel_at img x y) else Panic.

(** [a - b] on [u32]: an overflow panics with overflow checks and wraps
    without. *)
Definition u32_sub (overflow_checks : bool) (a b : Z) : result Z :=
  let d := (a - b)%Z in
  if (0 <=? d)%Z then Ok d
  else if overflow_checks then Panic else Ok (d mod 2 ^ 32)%Z.

(** [b as f64] for a [u8]. *)
Definition u8_as_f64 (b : Byte.byte) : f64 := f64_of_Z (Z.of_N (Byte.to_N b)).

Definition pixel_color (pixel : Byte.byte * Byte.byte * Byte.byte * Byte.byte) : Color :=
  let '(r, g, b, _) := pixel in
  let color_scale := 1 / 255 in
  Vec3_new (color_scale * u8_as_f64 r) (color_scale * u8_as_f64 g)
    (color_scale * u8_as_f64 b).

(** [ImageTexture::value]. *)
Definition ImageTexture_value (overflow_checks : bool) (img : DynamicImage)
  (u v : f64) (p : Point3) : result Color :=
  let u := clamp u 0 1 in
  let width := width img in
  do w1 <- u32_sub overflow_checks width 1;
  let i := clamp (f64_as_u32 (u * f64_of_Z width)) 0%Z w1 in
  let v := 1 - clamp v 0 1 in
  let height := height img in
  do h1 <- u32_sub overflow_checks height 1;
  let j := clamp (f64_as_u32 (v * f64_of_Z height)) 0%Z h1 in
  do pixel <- get_pixel img i j;
  Ok (pixel_color pixel).

End ImageTextureMapping.

(** A two by two image for the examples. *)
Definition checker_image : ImageTextureMapping.DynamicImage :=
  ImageTextureMapping.mkDynamicImage 2 2
    (fun x y => if ((x + y) mod 2 =? 0)%Z
                then (Byte.xff, Byte.xff, Byte.xff, Byte.xff)
                else (Byte.x00, Byte.x00, Byte.x00, Byte.xff)).

(** ** 14. What the hierarchy is proved with: rounding, and boxes that
    enclose boxes

    The definitions of this part are not listings.  The first ones say what
    binary64 arithmetic rounds an exact result to, in the integers: they
    are what the order of differences and products is read from. *)

Open Scope Z_scope.










(** The value of an [f64] in units of 2^-1074. *)


Close Scope Z_scope.





Section Built.

Context {M : Type}.
Context {libm : Libm}.

Variables time0 time1 : f64.



(** The box [BvhNode::new] stores in the node over [l] and [rt]. *)
Definition node_box (l rt : Hittable M) : Aabb :=
  let '(ok_left, box_left) := bounding_box l time0 time1 Aabb_zero in
  let box_right := if ok_left then snd (bounding_box rt time0 time1 Aabb_zero) else Aabb_zero in
  Aabb_surrounding_box box_left box_right.

(** The nodes [BvhNode::new] builds over the objects [os]: an object of the
    scene, or a node over two of them with the box of the constructor. *)
Inductive built : Hittable M -> list (Hittable M) -> Prop :=
  | built_leaf (o : Hittable M) : built o [o]
  | built_node (l rt : Hittable M) (ls rs : list (Hittable M)) :
      built l ls -> built rt rs -> built (HBvhNode l rt (node_box l rt)) (ls ++ rs).


End Built.
(** * Statements of the specification, checked against the listings *)

(** ** The free function [dot] *)

(** What the listing computes, for every pair of vectors: the second and
    third products are multiplied together, not added. *)
Lemma dot_unfold (a b : Vec3) :
  dot a b = e0 a * e0 b + e1 a * e1 b * e2 a * e2 b.
Proof. reflexivity. Qed.

(** C3, a defect of the listing: for u = (1, 2, 3) and v = (4, 5, 6) the Euclidean dot
    product u0*v0 + u1*v1 + u2*v2 is 32, and the free function [dot]
    returns 184 = 1*4 + 2*5*3*6. *)
Theorem dot_is_not_euclidean :
  dot (Vec3_new 1 2 3) (Vec3_new 4 5 6) = 184
  /\ euclidean_dot (Vec3_new 1 2 3) (Vec3_new 4 5 6) = 32.
Proof. split; reflexivity. Qed.

(** ** The front-face convention *)

Section FrontFace.

Context {M : Type} {libm : Libm}.

(** [set_face_normal] keeps every field but the normal and the flag. *)
Lemma set_face_normal_fields (rec : HitRecord M) (r : Ray) (n : Vec3) :
  p (set_face_normal rec r n) = p rec
  /\ t (set_face_normal rec r n) = t rec
  /\ u (set_face_normal rec r n) = u rec
  /\ v (set_face_normal rec r n) = v rec
  /\ mat_ptr (set_face_normal rec r n) = mat_ptr rec.
Proof. repeat split. Qed.

(** The flag and the normal it stores, in terms of the free function
    [dot]. *)
Lemma set_face_normal_spec (rec : HitRecord M) (r : Ray) (n : Vec3) :
  front_face (set_face_normal rec r n) = (dot (Ray_direction r) n <? 0)
  /\ normal (set_face_normal rec r n)
     = if dot (Ray_direction r) n <? 0 then n else Vec3_neg n.
Proof. split; reflexivity. Qed.

End FrontFace.

(** C4, a defect of the listing: the ray from (0, 2, 2) along (0, -1, -1) meets the unit
    sphere from outside; [Sphere::hit] reports the hit, marks it as a back
    face, and stores a normal on the side the ray leaves by: the product of
    the direction with the stored normal is positive, both as the Euclidean
    dot product and as the free function [dot] computes it. *)
Theorem stored_normal_follows_the_ray :
  for_every_libm (fun libm =>
    let '(h, rec) :=
      hit (HSphere unit_glass_sphere) diagonal_ray 0.001 f64_INFINITY HitRecord_new in
    h = true
    /\ front_face rec = false
    /\ (euclidean_dot (Ray_direction diagonal_ray) (normal rec) >? 0) = true
    /\ (dot (Ray_direction diagonal_ray) (normal rec) >? 0) = true).
Proof. intro libm. vm_compute. repeat split. Qed.

(** ** The slab test of [Aabb] *)

(** What the listing computes: three tests, each against the bounds the
    call was given. *)
Lemma Aabb_hit_unfold (b : Aabb) (r : Ray) (t_min t_max : f64) :
  Aabb_hit b r t_min t_max
  = negb (Aabb_hit_rejects b r t_min t_max 0)
    && negb (Aabb_hit_rejects b r t_min t_max 1)
    && negb (Aabb_hit_rejects b r t_min t_max 2).
Proof. unfold Aabb_hit; simpl. now rewrite andb_true_r, andb_assoc. Qed.

(** C5, a defect of the listing: on the interval [0, 100] the ray [passing_ray] misses
    the unit box (its x slab is [2, 3], its y slab [0.5, 1.5]), so the test
    with a running interval answers false; [Aabb::hit], first and optimized
    version alike, answers true, because no axis alone rejects. *)
Theorem Aabb_hit_does_not_carry_bounds :
  Aabb_hit unit_box passing_ray 0 100 = true
  /\ Aabb_hit_first unit_box passing_ray 0 100 = true
  /\ Aabb_hit_running unit_box passing_ray 0 100 [0; 1; 2]%nat = false.
Proof. repeat split. Qed.

(** ** The boxes of the rectangles *)

Section RectBoxes.

Context {M : Type}.

(** [XyRect] is as the specification says: its thin axis is z. *)
Lemma XyRect_bounding_box_spec (s : XyRect M) (time0 time1 : f64) (output_box : Aabb) :
  XyRect_bounding_box s time0 time1 output_box
  = (true, rect_box_spec 2 (XyRect_x0 s) (XyRect_x1 s) (XyRect_y0 s) (XyRect_y1 s) (XyRect_k s)).
Proof. reflexivity. Qed.

(** [XzRect] and [YzRect] build the box of an [XyRect] from their fields:
    the first pair of bounds on x, the second on y, and [k] on z. *)
Lemma XzRect_bounding_box_unfold (s : XzRect M) (time0 time1 : f64) (output_box : Aabb) :
  XzRect_bounding_box s time0 time1 output_box
  = (true, rect_box_spec 2 (XzRect_x0 s) (XzRect_x1 s) (XzRect_z0 s) (XzRect_z1 s) (XzRect_k s)).
Proof. reflexivity. Qed.

Lemma YzRect_bounding_box_unfold (s : YzRect M) (time0 time1 : f64) (output_box : Aabb) :
  YzRect_bounding_box s time0 time1 output_box
  = (true, rect_box_spec 2 (YzRect_y0 s) (YzRect_y1 s) (YzRect_z0 s) (YzRect_z1 s) (YzRect_k s)).
Proof. reflexivity. Qed.

End RectBoxes.

(** C6, a defect of the listing: the light of the Cornell box lies in the plane y = 554
    over x in [213, 343] and z in [227, 332]; [XzRect::bounding_box]
    returns the box with y in [227, 332] and z in [553.9999, 554.0001], not
    the box the specification describes.  The wall in the plane x = 555
    gets a box with x in [0, 555] and z thin. *)
Theorem rect_boxes_on_the_wrong_axes :
  XzRect_bounding_box cornell_light 0 1 Aabb_zero
    = (true, Aabb_new (Vec3_new 213 227 (554 - 0.0001)) (Vec3_new 343 332 (554 + 0.0001)))
  /\ rect_box_spec 1 213 343 227 332 554
    = Aabb_new (Vec3_new 213 (554 - 0.0001) 227) (Vec3_new 343 (554 + 0.0001) 332)
  /\ YzRect_bounding_box cornell_green_wall 0 1 Aabb_zero
    = (true, Aabb_new (Vec3_new 0 0 (555 - 0.0001)) (Vec3_new 555 555 (555 + 0.0001)))
  /\ rect_box_spec 0 0 555 0 555 555
    = Aabb_new (Vec3_new (555 - 0.0001) 0 0) (Vec3_new (555 + 0.0001) 555 555).
Proof. repeat split. Qed.

(** ** Texture coordinates on the sphere *)

(** What the listing computes, for every point: the second coordinate is the
    cosine of [-y] over pi. *)
Lemma get_sphere_uv_unfold {libm : Libm} (p : Point3) :
  get_sphere_uv p
  = ((f64_atan2 (- Vec3_z p) (Vec3_x p) + f64_PI) / (2 * f64_PI),
     f64_cos (- Vec3_y p) / f64_PI).
Proof. reflexivity. Qed.

(** C7, a defect of the listing: at the point (1, 0, 0) of the unit sphere, on the
    equator, a math library that is right at 0 (cos 0 = 1, acos 0 = pi/2)
    makes the specification's v equal to 0.5 and the listing's v equal to
    1/pi = 0.318...; the first coordinates agree. *)
Theorem get_sphere_uv_uses_cos (libm : Libm) :
  f64_cos (-0) = 1 ->
  f64_acos (-0) = f64_PI / 2 ->
  snd (get_sphere_uv (Vec3_new 1 0 0)) = 0.31830988618379069
  /\ snd (sphere_uv_spec (Vec3_new 1 0 0)) = 0.5
  /\ fst (get_sphere_uv (Vec3_new 1 0 0)) = fst (sphere_uv_spec (Vec3_new 1 0 0)).
Proof.
  intros Hcos Hacos. unfold get_sphere_uv, sphere_uv_spec; simpl.
  simpl in Hcos, Hacos. rewrite Hcos, Hacos. repeat split.
Qed.

Lemma get_sphere_uv_uses_cos_witness :
  @f64_cos libm_at_zero (-0) = 1
  /\ @f64_acos libm_at_zero (-0) = f64_PI / 2
  /\ snd (@get_sphere_uv libm_at_zero (Vec3_new 1 0 0)) = 0.31830988618379069
  /\ snd (@sphere_uv_spec libm_at_zero (Vec3_new 1 0 0)) = 0.5.
Proof.
  split; [reflexivity | split; [reflexivity | ]].
  destruct (get_sphere_uv_uses_cos libm_at_zero eq_refl eq_refl) as (H1 & H2 & _).
  split; assumption.
Defined.

(** ** Structural facts about [hit] *)

Section HitStructure.

Context {M : Type} {libm : Libm}.

(** Induction over the hittables, through the vector of a [HittableList]. *)
Lemma Hittable_induction (P : Hittable M -> Prop)
  (HS : forall s, P (HSphere s))
  (HM : forall s, P (HMovingSphere s))
  (HXy : forall s, P (HXyRect s))
  (HXz : forall s, P (HXzRect s))
  (HYz : forall s, P (HYzRect s))
  (HL : forall objects, Forall P objects -> P (HHittableList objects))
  (HB : forall l r bb, P l -> P r -> P (HBvhNode l r bb)) :
  forall h, P h.
Proof.
  fix IH 1. intros [s | s | s | s | s | objects | l r bb].
  - apply HS.
  - apply HM.
  - apply HXy.
  - apply HXz.
  - apply HYz.
  - apply HL. induction objects as [| o objects IHo]; constructor; [apply IH | exact IHo].
  - apply HB; apply IH.
Qed.

Lemma hit_list_unfold (objects : list (Hittable M)) r t_min t_max rec :
  hit (HHittableList objects) r t_min t_max rec
  = HittableList_hit_loop hit objects r t_min false t_max rec.
Proof. reflexivity. Qed.

Lemma hit_bvh_unfold (l r' : Hittable M) bb r t_min t_max rec :
  hit (HBvhNode l r' bb) r t_min t_max rec = BvhNode_hit hit l r' bb r t_min t_max rec.
Proof. reflexivity. Qed.

Ltac hit_cases :=
  repeat match goal with
  | H : (if ?c then _ else _) = _ |- _ => destruct c
  | H : (_, _) = (_, _) |- _ => inversion H; subst; clear H
  end.

Lemma list_loop_miss (objects : list (Hittable M)) :
  Forall miss_keeps_record objects ->
  forall r t_min any closest rec rec',
    HittableList_hit_loop hit objects r t_min any closest rec = (false, rec') ->
    any = false /\ rec' = rec.
Proof.
  induction 1 as [| o objects Ho _ IH]; intros r t_min any closest rec rec' E; simpl in E.
  - inversion E; auto.
  - destruct (hit o r t_min closest HitRecord_new) as [h temp] eqn:Eo.
    destruct h.
    + apply IH in E. destruct E as [E _]; discriminate.
    + apply IH in E. exact E.
Qed.

Lemma hit_miss_keeps_record : forall h : Hittable M, miss_keeps_record h.
Proof.
  induction h as [s | s | s | s | s | objects IH | l r' bb IHl IHr] using Hittable_induction;
    intros r t_min t_max rec rec' E.
  - simpl in E; unfold Sphere_hit in E. hit_cases; try discriminate; reflexivity.
  - simpl in E; unfold MovingSphere_hit in E. hit_cases; try discriminate; reflexivity.
  - simpl in E; unfold XyRect_hit in E. hit_cases; try discriminate; reflexivity.
  - simpl in E; unfold XzRect_hit in E. hit_cases; try discriminate; reflexivity.
  - simpl in E; unfold YzRect_hit in E. hit_cases; try discriminate; reflexivity.
  - rewrite hit_list_unfold in E. apply list_loop_miss in E; [tauto | exact IH].
  - rewrite hit_bvh_unfold in E. unfold BvhNode_hit in E.
    destruct (negb (Aabb_hit bb r t_min t_max)); [inversion E; reflexivity |].
    destruct (hit l r t_min t_max rec) as [hl rec1] eqn:El.
    destruct (hit r' r t_min (if hl then t rec1 else t_max) rec1) as [hr rec2] eqn:Er.
    injection E as Eh Erec. subst rec2. apply orb_false_elim in Eh. destruct Eh; subst.
    apply IHr in Er. apply IHl in El. congruence.
Qed.

Lemma list_loop_material (objects : list (Hittable M)) :
  Forall hit_writes_material objects ->
  forall r t_min any closest rec rec',
    HittableList_hit_loop hit objects r t_min any closest rec = (true, rec') ->
    (any = true -> mat_ptr rec <> None) ->
    mat_ptr rec' <> None.
Proof.
  induction 1 as [| o objects Ho _ IH]; intros r t_min any closest rec rec' E Hany; simpl in E.
  - inversion E; subst; auto.
  - destruct (hit o r t_min closest HitRecord_new) as [h temp] eqn:Eo.
    destruct h.
    + eapply IH; [exact E | intros _; eapply Ho; exact Eo].
    + eapply IH; [exact E | exact Hany].
Qed.

Lemma hit_hit_writes_material : forall h : Hittable M, hit_writes_material h.
Proof.
  induction h as [s | s | s | s | s | objects IH | l r' bb IHl IHr] using Hittable_induction;
    intros r t_min t_max rec rec' E.
  - simpl in E; unfold Sphere_hit, Sphere_record in E.
    destruct (get_sphere_uv _) in E. hit_cases; try discriminate; simpl; discriminate.
  - simpl in E; unfold MovingSphere_hit in E. hit_cases; try discriminate; simpl; discriminate.
  - simpl in E; unfold XyRect_hit in E. hit_cases; try discriminate; simpl; discriminate.
  - simpl in E; unfold XzRect_hit in E. hit_cases; try discriminate; simpl; discriminate.
  - simpl in E; unfold YzRect_hit in E. hit_cases; try discriminate; simpl; discriminate.
  - rewrite hit_list_unfold in E. eapply list_loop_material; [exact IH | exact E | discriminate].
  - rewrite hit_bvh_unfold in E. unfold BvhNode_hit in E.
    destruct (negb (Aabb_hit bb r t_min t_max)); [discriminate |].
    destruct (hit l r t_min t_max rec) as [hl rec1] eqn:El.
    destruct (hit r' r t_min (if hl then t rec1 else t_max) rec1) as [hr rec2] eqn:Er.
    injection E as Eh Erec. subst rec2. destruct hr.
    + eapply IHr; exact Er.
    + apply hit_miss_keeps_record in Er. subst rec'.
      rewrite orb_false_r in Eh; subst hl. eapply IHl; exact El.
Qed.

End HitStructure.

(** ** The integrator *)

Section Integrator.

Context {M : Type} {libm : Libm} {material : Material M}.

(** [ray_color] always returns: the recursion is bounded by [depth], and
    the [unwrap] of the material cannot panic because every hit writes
    one. *)
Lemma ray_color_returns (world : Hittable M) (background : Color) :
  forall depth r g, exists c g', ray_color r background world depth g = Ok (c, g').
Proof.
  induction depth as [| depth IH]; intros r g; simpl.
  - eauto.
  - destruct (hit world r 0.001 f64_INFINITY HitRecord_new) as [h rec] eqn:E.
    destruct h; simpl; [| eauto].
    pose proof (hit_hit_writes_material world _ _ _ _ _ E) as Hm.
    destruct (mat_ptr rec) as [m |]; [| congruence]. simpl.
    destruct (scatter m r rec (Vec3_new 0 0 0) (Ray_new (Vec3_new 0 0 0) (Vec3_new 0 0 0) 0) g)
      as [[[ok att] sc] g1].
    destruct ok; simpl; [| eauto].
    destruct (IH sc g1) as (c & g2 & Ec). rewrite Ec. simpl. eauto.
Qed.

(** C2: [ray_color] returns black at depth 0; the background when the world
    reports no hit on (0.001, +infinity); the emitted colour of the hit
    material alone when its [scatter] answers false; and otherwise
    emitted + attenuation * c, where c is what [ray_color] returns for the
    scattered ray at depth - 1 (and it does return). *)
Theorem ray_color_cases (world : Hittable M) (background : Color) (r : Ray)
  (depth : nat) (g : Rng) :
  ray_color r background world 0 g = Ok (black, g)
  /\ (fst (hit world r 0.001 f64_INFINITY HitRecord_new) = false ->
      ray_color r background world (S depth) g = Ok (background, g))
  /\ (forall rec, hit world r 0.001 f64_INFINITY HitRecord_new = (true, rec) ->
      exists m, mat_ptr rec = Some m
      /\ (forall att sc g',
            scatter m r rec black no_ray g = (false, att, sc, g') ->
            ray_color r background world (S depth) g
            = Ok (emitted m (u rec) (v rec) (p rec), g'))
      /\ (forall att sc g',
            scatter m r rec black no_ray g = (true, att, sc, g') ->
            exists c g'',
              ray_color sc background world depth g' = Ok (c, g'')
              /\ ray_color r background world (S depth) g
                 = Ok (Vec3_add (emitted m (u rec) (v rec) (p rec)) (Vec3_mul att c), g''))).
Proof.
  split; [reflexivity | split].
  - intro H. simpl. destruct (hit world r 0.001 f64_INFINITY HitRecord_new) as [h rec].
    simpl in H; subst h. reflexivity.
  - intros rec E.
    pose proof (hit_hit_writes_material world _ _ _ _ _ E) as Hm.
    destruct (mat_ptr rec) as [m |] eqn:Em; [| congruence].
    exists m. split; [reflexivity | split].
    + intros att sc g' Es. simpl. rewrite E. simpl. rewrite Em. simpl.
      unfold black, no_ray in Es. rewrite Es. reflexivity.
    + intros att sc g' Es.
      destruct (ray_color_returns world background depth sc g') as (c & g'' & Ec).
      exists c, g''. split; [exact Ec |].
      simpl. rewrite E. simpl. rewrite Em. simpl.
      unfold black, no_ray in Es. rewrite Es. simpl. rewrite Ec. reflexivity.
Qed.

End Integrator.

(** The four cases on a scene with one light: a ray that leaves the scene
    gets the background, a ray that meets the light gets its emission. *)
Lemma ray_color_cases_witness :
  fst (@hit _ libm_at_zero square_light ray_up_z 0.001 f64_INFINITY HitRecord_new) = false
  /\ @ray_color _ libm_at_zero _ ray_up_z sky square_light 1 (constant_rng 0.5)
     = Ok (sky, constant_rng 0.5)
  /\ @hit _ libm_at_zero square_light ray_to_light 0.001 f64_INFINITY HitRecord_new
     = (true, light_hit_record)
  /\ @ray_color _ libm_at_zero _ ray_to_light sky square_light 1 (constant_rng 0.5)
     = Ok (Vec3_new 4 4 4, constant_rng 0.5).
Proof.
  assert (E1 : fst (@hit _ libm_at_zero square_light ray_up_z 0.001 f64_INFINITY HitRecord_new)
               = false) by reflexivity.
  assert (E2 : @hit _ libm_at_zero square_light ray_to_light 0.001 f64_INFINITY HitRecord_new
               = (true, light_hit_record)) by reflexivity.
  split; [exact E1 | split; [| split; [exact E2 |]]].
  - exact (proj1 (proj2 (@ray_color_cases _ libm_at_zero _ square_light sky ray_up_z 0
                           (constant_rng 0.5))) E1).
  - destruct (proj2 (proj2 (@ray_color_cases _ libm_at_zero _ square_light sky ray_to_light 0
                              (constant_rng 0.5))) _ E2) as (m & Em & Hfalse & _).
    injection Em as Em. subst m.
    exact (Hfalse black no_ray (constant_rng 0.5) eq_refl).
Defined.

(** ** [Dielectric::scatter] *)

Section DielectricScatter.

Context {M : Type}.

(** C8, as the listing has it: [Dielectric::scatter] always answers true
    with the attenuation (1, 1, 1) and a ray from the hit point at the time
    of the incoming ray; with refraction_ratio = 1/ir on a front face and ir
    otherwise, cos_theta = min(dot(-unit_direction, normal), 1) and
    sin_theta = sqrt(1 - cos_theta^2), the direction is the reflection of
    the unit incoming direction when refraction_ratio * sin_theta > 1
    (no number is drawn), and otherwise one number x is drawn and the
    direction is the reflection when
    [Dielectric_reflectance cos_theta refraction_ratio > x] and the
    refraction when not: r0 is computed from refraction_ratio, which is
    1/ir on a front face. *)
Theorem Dielectric_scatter_spec (self : Dielectric) (r_in : Ray) (rec : HitRecord M)
  (attenuation : Color) (scattered : Ray) (g : Rng) :
  let refraction_ratio := if front_face rec then 1 / ir self else ir self in
  let unit_direction := Vec3_unit_vector (Ray_direction r_in) in
  let cos_theta := f64_min (Vec3_dot (Vec3_neg unit_direction) (normal rec)) 1 in
  let sin_theta := f64_sqrt (1 - cos_theta * cos_theta) in
  let r0 := ((1 - refraction_ratio) / (1 + refraction_ratio))
            * ((1 - refraction_ratio) / (1 + refraction_ratio)) in
  Dielectric_reflectance cos_theta refraction_ratio
    = r0 + (1 - r0) * f64_powi (1 - cos_theta) 5
  /\ Dielectric_scatter self r_in rec attenuation scattered g
     = if refraction_ratio * sin_theta >? 1 then
         (true, Vec3_new 1 1 1,
          Ray_new (p rec) (Vec3_reflect unit_direction (normal rec)) (Ray_time r_in), g)
       else if Dielectric_reflectance cos_theta refraction_ratio >? fst (random g) then
         (true, Vec3_new 1 1 1,
          Ray_new (p rec) (Vec3_reflect unit_direction (normal rec)) (Ray_time r_in),
          snd (random g))
       else
         (true, Vec3_new 1 1 1,
          Ray_new (p rec) (Vec3_refract unit_direction (normal rec) refraction_ratio)
            (Ray_time r_in),
          snd (random g)).
Proof.
  cbv zeta. split; [reflexivity |].
  unfold Dielectric_scatter.
  destruct (_ >? 1); [reflexivity |].
  destruct (random g) as [x g']. cbn [fst snd].
  destruct (_ >? x); reflexivity.
Qed.

End DielectricScatter.

(** C8, as the claim has it, fails: glass (ir = 1.5), a front face and a ray
    that makes the cosine 0.875 with the normal.  The reflectance with r0
    from ir, r0 = ((1 - 1.5)/(1 + 1.5))^2, is 0.040029296875000009; let the
    number drawn be exactly that.  Nothing is totally reflected
    (refraction_ratio * sin_theta is 0.32) and the claim's reflectance does
    not exceed the draw, so the claim has the ray refracted; the listing
    computes r0 from refraction_ratio = 1/1.5, gets the next binary64 value
    up, 0.040029296875000016, which exceeds the draw, and reflects. *)
Lemma Dielectric_scatter_r0_counterexample :
  let x := reflectance_spec 0.875 1.5 in
  let '(ok, attenuation, scattered, g) :=
    Dielectric_scatter glass ray_down_z tilted_front_face black no_ray (constant_rng x) in
  let unit_direction := Vec3_unit_vector (Ray_direction ray_down_z) in
  let n := normal tilted_front_face in
  f64_min (Vec3_dot (Vec3_neg unit_direction) n) 1 = 0.875
  /\ ((1 / 1.5) * f64_sqrt (1 - 0.875 * 0.875) >? 1) = false
  /\ (reflectance_spec 0.875 1.5 >? x) = false
  /\ (Dielectric_reflectance 0.875 (1 / 1.5) >? x) = true
  /\ Ray_direction scattered = Vec3_reflect unit_direction n
  /\ Ray_direction scattered <> Vec3_refract unit_direction n (1 / 1.5).
Proof. vm_compute. repeat split. discriminate. Qed.

(** ** The image writer *)

(** *** Multiplying by 256 in binary64

    The product of 256 and a float of exponent at most -53 is exact: the
    rounding of [SFmul] shifts the mantissa and drops only zeros. *)

Open Scope Z_scope.

Lemma SF_iter_pos_nat {A} (f : A -> A) (p : positive) (x : A) :
  SpecFloat.iter_pos f p x = Nat.iter (Pos.to_nat p) f x.
Proof.
  revert x. induction p as [p IH | p IH |]; intro x; cbn [SpecFloat.iter_pos].
  - rewrite !IH, Pos2Nat.inj_xI.
    replace (S (2 * Pos.to_nat p)) with (Pos.to_nat p + (Pos.to_nat p + 1))%nat by lia.
    rewrite !Nat.iter_add. reflexivity.
  - rewrite !IH, Pos2Nat.inj_xO.
    replace (2 * Pos.to_nat p)%nat with (Pos.to_nat p + Pos.to_nat p)%nat by lia.
    rewrite Nat.iter_add. reflexivity.
  - reflexivity.
Qed.

Lemma Zpos_iter_xO (k : nat) (z : positive) :
  Zpos (Nat.iter k xO z) = Zpos z * 2 ^ Z.of_nat k.
Proof.
  induction k as [| k IH].
  - simpl. lia.
  - rewrite Nat.iter_succ, Pos2Z.inj_xO, IH, Nat2Z.inj_succ, Z.pow_succ_r by lia. lia.
Qed.

Lemma digits_iter_xO (k : nat) (z : positive) :
  Zpos (digits2_pos (Nat.iter k xO z)) = Zpos (digits2_pos z) + Z.of_nat k.
Proof.
  induction k as [| k IH].
  - simpl. lia.
  - rewrite Nat.iter_succ. cbn [digits2_pos]. rewrite Pos2Z.inj_succ, IH. lia.
Qed.

Lemma shr_iter_exact (k : nat) (z : positive) :
  Nat.iter k shr_1 (Build_shr_record (Zpos (Nat.iter k xO z)) false false)
  = Build_shr_record (Zpos z) false false.
Proof.
  induction k as [| k IH]; [reflexivity |].
  rewrite Nat.iter_succ_r, Nat.iter_succ. cbn [shr_1 orb]. exact IH.
Qed.

Lemma mul_two52 (m : positive) : Pos.mul two52 m = Nat.iter 52 xO m.
Proof. reflexivity. Qed.

(** The product of 256 and a finite positive binary64 value of exponent at
    most -53: the mantissa shifted, nothing rounded away. *)
Lemma SFmul_256 (m : positive) (e : Z) :
  bounded prec emax m e = true ->
  e <= -53 ->
  exists k : nat,
    SFmul prec emax (S754_finite false two52 (-44)) (S754_finite false m e)
    = S754_finite false (Nat.iter k xO m) (e + 8 - Z.of_nat k)
    /\ e + 8 - Z.of_nat k < 0.
Proof.
  intros Hb He.
  unfold bounded, canonical_mantissa, fexp, emin in Hb.
  apply andb_prop in Hb. destruct Hb as [Hc Hle].
  apply Z.eqb_eq in Hc. apply Z.leb_le in Hle.
  set (d := Zpos (digits2_pos m)) in *.
  assert (Hd : 0 < d) by (subst d; lia).
  change prec with 53 in *. change emax with 1024 in *.
  set (n := Z.max (d + e - 45) (-1074) - e + 44).
  assert (Hn : 44 <= n <= 52) by (subst n; lia).
  exists (Z.to_nat (52 - n)).
  unfold SFmul. cbn [xorb]. rewrite mul_two52.
  unfold binary_round_aux, shr_fexp, fexp, emin.
  cbn [Zdigits2]. rewrite digits_iter_xO. fold d.
  change (Z.of_nat 52) with 52. change (3 - 1024 - 53) with (-1074).
  replace (Z.max (d + 52 + (-44 + e) - 53) (-1074) - (-44 + e)) with n by (subst n; lia).
  destruct n as [| pn | pn] eqn:En; try lia.
  unfold shr at 1.
  rewrite SF_iter_pos_nat.
  cbn [shr_record_of_loc].
  replace (Nat.iter 52 xO m) with (Nat.iter (Pos.to_nat pn) xO (Nat.iter (Z.to_nat (52 - Zpos pn)) xO m)).
  2:{ rewrite <- Nat.iter_add. f_equal. lia. }
  rewrite shr_iter_exact.
  cbn [shr_m loc_of_shr_record round_nearest_even].
  cbn [Zdigits2]. rewrite digits_iter_xO. fold d.
  replace (Z.max (d + Z.of_nat (Z.to_nat (52 - Zpos pn)) + (-44 + e + Zpos pn) - 53) (-1074)
           - (-44 + e + Zpos pn)) with 0 by lia.
  cbn [shr shr_record_of_loc shr_m].
  replace (-44 + e + Zpos pn <=? 1024 - 53) with true by (symmetry; apply Z.leb_le; lia).
  split; [f_equal; lia | lia].
Qed.

Lemma SF_trunc_iter_xO (k : nat) (m : positive) (e : Z) :
  e + 8 - Z.of_nat k < 0 -> e + 8 < 0 ->
  SF_trunc false (Nat.iter k xO m) (e + 8 - Z.of_nat k) = Zpos m / 2 ^ (- e - 8).
Proof.
  intros H1 H2. unfold SF_trunc.
  replace (0 <=? e + 8 - Z.of_nat k) with false by (symmetry; apply Z.leb_gt; lia).
  rewrite Zpos_iter_xO.
  replace (- (e + 8 - Z.of_nat k)) with ((- e - 8) + Z.of_nat k) by lia.
  rewrite Z.pow_add_r by lia.
  apply Z.div_mul_cancel_r; apply Z.pow_nonzero; lia.
Qed.

Lemma digits2_pos_bound (m : positive) : Zpos m < 2 ^ Zpos (digits2_pos m).
Proof.
  induction m as [m IH | m IH |]; cbn [digits2_pos].
  - rewrite Pos2Z.inj_succ, Z.pow_succ_r by lia. lia.
  - rewrite Pos2Z.inj_succ, Z.pow_succ_r by lia. lia.
  - reflexivity.
Qed.

Lemma channel_bound_SF (sx : spec_float) :
  SpecFloat.valid_binary prec emax sx = true ->
  SFltb sx (S754_zero false) = false ->
  SFltb SF_0_999 sx = false ->
  0 <= match SFmul prec emax (S754_finite false two52 (-44)) sx with
       | S754_nan => 0
       | S754_zero _ => 0
       | S754_infinity s => if s then 0 else u32_MAX
       | S754_finite s m e => saturate 0 u32_MAX (SF_trunc s m e)
       end <= 255.
Proof.
  intros Hv H0 H1.
  destruct sx as [s | s | | s m e].
  - cbn. lia.
  - destruct s; cbn in H0, H1; discriminate.
  - cbn. lia.
  - destruct s; [cbn in H0; discriminate |].
    cbn [SpecFloat.valid_binary] in Hv.
    assert (He : e <= -53).
    { unfold SFltb, SFcompare, SF_0_999 in H1. destruct (Z.compare_spec (-53) e); try lia; discriminate. }
    destruct (SFmul_256 m e Hv He) as (k & Emul & Hneg).
    rewrite Emul. rewrite SF_trunc_iter_xO by lia.
    assert (Hq : 0 <= Zpos m / 2 ^ (- e - 8) <= 255).
    { split; [apply Z.div_pos; [lia | apply Z.pow_pos_nonneg; lia] |].
      destruct (Z.eq_dec e (-53)) as [-> | Hne].
      - unfold SFltb, SFcompare, SF_0_999 in H1. cbn [Z.compare] in H1.
        rewrite Pos.compare_cont_spec in H1. cbn [Pos.switch_Eq] in H1.
        destruct (Pos.compare_spec 8998192055486251 m) as [Hm | Hm | Hm]; try discriminate.
        + subst m. vm_compute. discriminate.
        + change (- -53 - 8) with 45.
          apply Z.lt_succ_r. apply Z.div_lt_upper_bound; [reflexivity |].
          apply Pos2Z.pos_lt_pos in Hm. lia.
      - unfold bounded, canonical_mantissa, fexp, emin in Hv.
        apply andb_prop in Hv. destruct Hv as [Hc _]. apply Z.eqb_eq in Hc.
        change prec with 53 in Hc. change emax with 1024 in Hc.
        pose proof (digits2_pos_bound m) as Hm.
        assert (Hd : Zpos (digits2_pos m) <= 53) by lia.
        assert (Zpos m < 2 ^ 53).
        { eapply Z.lt_le_trans; [exact Hm | apply Z.pow_le_mono_r; lia]. }
        apply Z.lt_succ_r. apply Z.div_lt_upper_bound; [apply Z.pow_pos_nonneg; lia |].
        assert (2 ^ 46 <= 2 ^ (- e - 8)) by (apply Z.pow_le_mono_r; lia).
        change (2 ^ 46) with 70368744177664 in *. change (2 ^ 53) with 9007199254740992 in *.
        nia. }
    unfold saturate, u32_MAX.
    destruct (Z.ltb_spec (Zpos m / 2 ^ (- e - 8)) 0); [lia |].
    destruct (Z.ltb_spec 4294967295 (Zpos m / 2 ^ (- e - 8))); lia.
Qed.

Close Scope Z_scope.

(** Every channel is a byte, whatever the float: NaN and negative values
    give 0, everything from 0.999 up gives 255. *)
Lemma channel_byte_bounds (c : f64) : (0 <= channel_byte c <= 255)%Z.
Proof.
  unfold channel_byte, clamp.
  destruct (c <? 0) eqn:E0; [vm_compute; split; discriminate |].
  destruct (c >? 0.999) eqn:E1; [vm_compute; split; discriminate |].
  unfold f64_as_u32, f64_as_int.
  rewrite mul_spec. rewrite ltb_spec in E0, E1.
  change (Prim2SF 256) with (S754_finite false two52 (-44)).
  change (Prim2SF 0) with (S754_zero false) in E0.
  change (Prim2SF 0.999) with SF_0_999 in E1.
  exact (channel_bound_SF (Prim2SF c) (Prim2SF_valid c) E0 E1).
Qed.

(** C9, as the listing has it: [write_color] writes the line "R G B" of
    three integers, each the truncation of
    256 * clamp(sqrt(channel * (1 / n)), 0, 0.999) with the reciprocal of
    the sample count rounded first, and each of them lies in [0, 255], for
    every colour and every sample count. *)
Theorem write_color_spec (color : Color) (samples_per_pixel : Z) :
  let scale := 1 / f64_of_Z samples_per_pixel in
  let r := f64_as_u32 (256 * clamp (f64_sqrt (Vec3_x color * scale)) 0 0.999) in
  let g := f64_as_u32 (256 * clamp (f64_sqrt (Vec3_y color * scale)) 0 0.999) in
  let b := f64_as_u32 (256 * clamp (f64_sqrt (Vec3_z color * scale)) 0 0.999) in
  write_color color samples_per_pixel
  = String.append (u32_to_string r)
      (String.append (String.String (Ascii.ascii_of_nat 32) String.EmptyString)
         (String.append (u32_to_string g)
            (String.append (String.String (Ascii.ascii_of_nat 32) String.EmptyString)
               (String.append (u32_to_string b)
                  (String.String (Ascii.ascii_of_nat 10) String.EmptyString)))))
  /\ (0 <= r <= 255)%Z /\ (0 <= g <= 255)%Z /\ (0 <= b <= 255)%Z.
Proof.
  cbv zeta. split; [reflexivity |].
  repeat split; apply channel_byte_bounds.
Qed.

(** C9, as the claim has it, fails: for the accumulated colour
    (49, 49, 49) and 196 samples the quotient 49 / 196 is 0.25, its square
    root 0.5 and the claim's integer 128; the listing multiplies by the
    rounded reciprocal of 196, gets 0.24999999999999997 and writes 127. *)
Lemma write_color_quotient_counterexample :
  write_color_channels (Vec3_new 49 49 49) 196 = (127, 127, 127)%Z
  /\ channel_byte_spec 49 196 = 128%Z.
Proof. split; reflexivity. Qed.

(** ** Perlin noise *)

Lemma swap_index_involutive (i j k : nat) : swap_index i j (swap_index i j k) = k.
Proof.
  unfold swap_index.
  destruct (Nat.eqb_spec k i) as [-> | Hki].
  - destruct (Nat.eqb_spec j i) as [-> | Hji]; [reflexivity |].
    rewrite Nat.eqb_refl. reflexivity.
  - destruct (Nat.eqb_spec k j) as [-> | Hkj].
    + rewrite Nat.eqb_refl. reflexivity.
    + destruct (Nat.eqb_spec k i); [lia |]. destruct (Nat.eqb_spec k j); [lia |]. reflexivity.
Qed.

Lemma swap_index_injective (i j : nat) : Finite.Injective (swap_index i j).
Proof.
  intros a b H. rewrite <- (swap_index_involutive i j a), H. apply swap_index_involutive.
Qed.

Lemma array_set_ok {A : Type} (p : list A) (i : nat) (x : A) :
  (i < List.length p)%nat ->
  exists p', array_set p i x = Ok p'
    /\ List.length p' = List.length p
    /\ forall k, nth_error p' k = if (k =? i)%nat then Some x else nth_error p k.
Proof.
  revert i. induction p as [| y p IH]; intros i Hi; simpl in Hi; [lia |].
  destruct i as [| i]; simpl.
  - exists (x :: p). split; [reflexivity | split; [reflexivity |]].
    intros [| k]; reflexivity.
  - destruct (IH i) as (p' & E & Hl & Hn); [lia |].
    rewrite E. simpl. exists (y :: p'). split; [reflexivity | split; [simpl; lia |]].
    intros [| k]; [reflexivity |]. simpl. apply Hn.
Qed.

Lemma index_ok {A : Type} (p : list A) (i : nat) :
  (i < List.length p)%nat -> exists x, index p i = Ok x /\ nth_error p i = Some x.
Proof.
  intro Hi. unfold index. destruct (nth_error p i) as [x |] eqn:E.
  - exists x. split; reflexivity.
  - apply nth_error_None in E. lia.
Qed.

(** One step of [permute] at an index [i] with [0 < i < len]: it succeeds
    and exchanges the entries at [i] and at a target below [i]. *)
Lemma permute_step_ok (p : list Z) (i : nat) (g : Rng) :
  (0 < i < List.length p)%nat ->
  exists p' g' target,
    permute_step p i g = Ok (p', g')
    /\ (target < i)%nat
    /\ List.length p' = List.length p
    /\ forall k, nth_error p' k = nth_error p (swap_index i target k).
Proof.
  intros Hi. unfold permute_step, random_usize_in_range.
  destruct (Nat.leb_spec i 0) as [H0 | H0]; [lia |]. cbn [bind].
  set (target := (0 + usize_draws g (pos g) mod (i - 0))%nat).
  assert (Ht : (target < i)%nat).
  { subst target. rewrite Nat.sub_0_r. simpl. apply Nat.mod_upper_bound. lia. }
  destruct (index_ok p i) as (tmp & E1 & N1); [lia |].
  destruct (index_ok p target) as (pt & E2 & N2); [lia |].
  rewrite E1. cbn [bind]. rewrite E2. cbn [bind].
  destruct (array_set_ok p i pt) as (p1 & E3 & L3 & N3); [lia |].
  rewrite E3. cbn [bind].
  destruct (array_set_ok p1 target tmp) as (p2 & E4 & L4 & N4); [lia |].
  rewrite E4. cbn [bind].
  exists p2, (Rng_advance g), target. split; [reflexivity | split; [exact Ht | split; [lia |]]].
  intro k. rewrite N4, N3. unfold swap_index.
  destruct (Nat.eqb_spec k target) as [-> | Hkt].
  - destruct (Nat.eqb_spec target i); [lia |]. symmetry; exact N1.
  - destruct (Nat.eqb_spec k i) as [-> | Hki]; [symmetry; exact N2 | reflexivity].
Qed.

Lemma permute_loop_ok (indices : list nat) :
  forall (p : list Z) (g : Rng),
  Forall (fun i => 0 < i < List.length p - 1)%nat indices ->
  exists p' g',
    permute_loop p indices g = Ok (p', g')
    /\ Permutation p' p
    /\ nth_error p' (List.length p - 1) = nth_error p (List.length p - 1).
Proof.
  induction indices as [| i indices IH]; intros p g Hall; simpl.
  - exists p, g. split; [reflexivity | split; [apply Permutation_refl | reflexivity]].
  - inversion Hall as [| ? ? Hi Hrest]; subst.
    destruct (permute_step_ok p i g) as (p1 & g1 & target & E & Ht & L & N); [lia |].
    rewrite E. cbn [bind].
    destruct (IH p1 g1) as (p2 & g2 & E2 & P2 & N2); [rewrite L; exact Hrest |].
    exists p2, g2. split; [exact E2 | split].
    + eapply Permutation_trans; [exact P2 |]. apply Permutation_sym.
      apply Permutation_nth_error. split; [symmetry; exact L |].
      exists (swap_index i target). split; [apply swap_index_injective | exact N].
    + rewrite L in N2. rewrite N2, N. unfold swap_index.
      destruct (Nat.eqb_spec (List.length p - 1) i); [lia |].
      destruct (Nat.eqb_spec (List.length p - 1) target); [lia | reflexivity].
Qed.

(** Every table [perlin_generate_perm] returns, and it always returns one,
    is a permutation of 0..255 whose last entry is 255. *)
Lemma perlin_generate_perm_ok (g : Rng) :
  exists p g',
    perlin_generate_perm g = Ok (p, g')
    /\ Permutation p identity_table
    /\ nth_error p 255 = Some 255%Z.
Proof.
  unfold perlin_generate_perm, permute, POINT_COUNT. cbn [Nat.eqb].
  destruct (permute_loop_ok (rev (seq 1 (256 - 1 - 1))) (map Z.of_nat (seq 0 256)) g)
    as (p & g' & E & P & N).
  { apply Forall_rev. apply Forall_forall. intros i Hi. apply in_seq in Hi.
    rewrite length_map, length_seq. lia. }
  exists p, g'. split; [exact E | split; [exact P |]].
  rewrite length_map, length_seq in N. exact N.
Qed.

Lemma identity_table_in_range : table_in_range identity_table.
Proof.
  split; [reflexivity |]. unfold identity_table.
  apply Forall_forall. intros x Hx. apply in_map_iff in Hx.
  destruct Hx as (n & <- & Hn). apply in_seq in Hn. lia.
Qed.

Lemma permutation_in_range (p : list Z) :
  Permutation p identity_table -> table_in_range p.
Proof.
  intro P. destruct identity_table_in_range as [L F]. split.
  - rewrite (Permutation_length P). exact L.
  - eapply Permutation_Forall; [apply Permutation_sym; exact P | exact F].
Qed.

Lemma ranvec_fill_length (n : nat) (g : Rng) : List.length (fst (ranvec_fill n g)) = n.
Proof.
  revert g. induction n as [| n IH]; intro g; [reflexivity |].
  cbn [ranvec_fill].
  destruct (Vec3_random_in_range (-1) 1 g) as [x g1].
  specialize (IH g1). destruct (ranvec_fill n g1) as [rest g2].
  cbn [fst List.length] in *. congruence.
Qed.

Lemma Perlin_new_ok (g : Rng) :
  exists self g',
    Perlin_new g = Ok (self, g')
    /\ List.length (ranvec self) = 256%nat
    /\ permutation_table (perm_x self)
    /\ permutation_table (perm_y self)
    /\ permutation_table (perm_z self).
Proof.
  unfold Perlin_new.
  pose proof (ranvec_fill_length 256 g) as Hl.
  destruct (ranvec_fill 256 g) as [rv g0]. simpl in Hl.
  destruct (perlin_generate_perm_ok g0) as (px & g1 & E1 & P1 & N1). rewrite E1. cbn [bind].
  destruct (perlin_generate_perm_ok g1) as (py & g2 & E2 & P2 & N2). rewrite E2. cbn [bind].
  destruct (perlin_generate_perm_ok g2) as (pz & g3 & E3 & P3 & N3). rewrite E3. cbn [bind].
  exists (mkPerlin rv px py pz), g3. cbn. repeat split; assumption.
Qed.

Lemma land_255_range (x : Z) : (0 <= Z.land x 255 < 256)%Z.
Proof.
  change 255%Z with (Z.ones 8). rewrite Z.land_ones by lia.
  change (2 ^ 8)%Z with 256%Z. apply Z.mod_pos_bound. lia.
Qed.

Lemma lxor_256 (a b : Z) :
  (0 <= a < 256)%Z -> (0 <= b < 256)%Z -> (0 <= Z.lxor a b < 256)%Z.
Proof.
  intros Ha Hb. split; [apply Z.lxor_nonneg; lia |].
  destruct (Z.eq_dec (Z.lxor a b) 0) as [-> | Hne]; [lia |].
  assert (Hpos : (0 < Z.lxor a b)%Z) by (pose proof (proj2 (Z.lxor_nonneg a b)); lia).
  change 256%Z with (2 ^ 8)%Z. apply Z.log2_lt_pow2; [exact Hpos |].
  eapply Z.le_lt_trans; [apply Z.log2_lxor; lia |].
  assert (La : (Z.log2 a < 8)%Z).
  { destruct (Z.eq_dec a 0) as [-> | ?]; [reflexivity | apply Z.log2_lt_pow2; lia]. }
  assert (Lb : (Z.log2 b < 8)%Z).
  { destruct (Z.eq_dec b 0) as [-> | ?]; [reflexivity | apply Z.log2_lt_pow2; lia]. }
  lia.
Qed.

Lemma i32_as_usize_small (n : Z) : (0 <= n < 256)%Z -> (i32_as_usize n < 256)%nat.
Proof.
  intro H. unfold i32_as_usize. rewrite Z.mod_small by lia. lia.
Qed.

Lemma table_lookup (p : list Z) (i : nat) :
  table_in_range p -> (i < 256)%nat ->
  exists x, index p i = Ok x /\ (0 <= x < 256)%Z.
Proof.
  intros [L F] Hi. destruct (index_ok p i) as (x & E & N); [lia |].
  exists x. split; [exact E |].
  apply nth_error_In in N. rewrite Forall_forall in F. exact (F x N).
Qed.

(** Whatever the three sums are, the four look-ups of a corner are within
    the arrays. *)
Lemma Perlin_corner_in_bounds (checks : bool) (self : Perlin) (i j k di dj dk i' j' k' : Z) :
  Perlin_tables_ok self ->
  i32_add checks i di = Ok i' ->
  i32_add checks j dj = Ok j' ->
  i32_add checks k dk = Ok k' ->
  exists x, Perlin_corner checks self i j k di dj dk = Ok x.
Proof.
  intros (Lr & Tx & Ty & Tz) Ei Ej Ek. unfold Perlin_corner.
  rewrite Ei, Ej, Ek. cbn [bind].
  destruct (table_lookup (perm_x self) (i32_as_usize (Z.land i' 255)) Tx) as (hx & Ex & Rx);
    [apply i32_as_usize_small, land_255_range |].
  destruct (table_lookup (perm_y self) (i32_as_usize (Z.land j' 255)) Ty) as (hy & Ey & Ry);
    [apply i32_as_usize_small, land_255_range |].
  destruct (table_lookup (perm_z self) (i32_as_usize (Z.land k' 255)) Tz) as (hz & Ez & Rz);
    [apply i32_as_usize_small, land_255_range |].
  rewrite Ex, Ey, Ez. cbn [bind].
  destruct (index_ok (ranvec self) (i32_as_usize (Z.lxor (Z.lxor hx hy) hz))) as (x & E & _).
  { rewrite Lr. apply i32_as_usize_small. apply lxor_256; [apply lxor_256 |]; assumption. }
  exists x. exact E.
Qed.

Lemma i32_add_wraps (a b : Z) : exists s, i32_add false a b = Ok s.
Proof. unfold i32_add. destruct (_ && _)%bool; eauto. Qed.

Lemma i32_add_in_range (checks : bool) (a b : Z) :
  (i32_MIN <= a + b <= i32_MAX)%Z -> i32_add checks a b = Ok (a + b)%Z.
Proof.
  intro H. unfold i32_add.
  destruct (Z.leb_spec i32_MIN (a + b)); [| lia].
  destruct (Z.leb_spec (a + b) i32_MAX); [reflexivity | lia].
Qed.

Lemma f64_as_i32_range (x : f64) : (i32_MIN <= f64_as_i32 x <= i32_MAX)%Z.
Proof.
  unfold f64_as_i32, f64_as_int, saturate, i32_MIN, i32_MAX.
  destruct (Prim2SF x) as [s | s | | s m e]; try lia.
  - destruct s; lia.
  - destruct (Z.ltb_spec (SF_trunc s m e) (-2147483648)); [lia |].
    destruct (Z.ltb_spec 2147483647 (SF_trunc s m e)); lia.
Qed.

Lemma Perlin_gather_ok (checks : bool) (self : Perlin) (i j k : Z) (ds : list (Z * Z * Z)) :
  Perlin_tables_ok self ->
  Forall (fun '(di, dj, dk) =>
            (exists i', i32_add checks i di = Ok i')
            /\ (exists j', i32_add checks j dj = Ok j')
            /\ (exists k', i32_add checks k dk = Ok k')) ds ->
  exists c, Perlin_gather checks self i j k ds = Ok c.
Proof.
  intros Hok. induction 1 as [| [[di dj] dk] ds ((i' & Ei) & (j' & Ej) & (k' & Ek)) _ IH]; simpl.
  - eauto.
  - destruct (Perlin_corner_in_bounds checks self i j k di dj dk i' j' k' Hok Ei Ej Ek)
      as (x & Ex).
    rewrite Ex. cbn [bind]. destruct IH as (c & Ec). rewrite Ec. cbn [bind]. eauto.
Qed.

Lemma Perlin_noise_unchecked (self : Perlin) (p : Point3) :
  Perlin_tables_ok self -> exists x, Perlin_noise false self p = Ok x.
Proof.
  intro Hok. unfold Perlin_noise.
  destruct (Perlin_gather_ok false self (cell (Vec3_x p)) (cell (Vec3_y p)) (cell (Vec3_z p))
              corners Hok) as (c & Ec).
  { apply Forall_forall. intros [[di dj] dk] _. repeat split; apply i32_add_wraps. }
  unfold cell in Ec. rewrite Ec. cbn [bind]. eauto.
Qed.

Lemma Perlin_noise_checked (self : Perlin) (p : Point3) :
  Perlin_tables_ok self ->
  (cell (Vec3_x p) < i32_MAX)%Z -> (cell (Vec3_y p) < i32_MAX)%Z ->
  (cell (Vec3_z p) < i32_MAX)%Z ->
  exists x, Perlin_noise true self p = Ok x.
Proof.
  intros Hok Hx Hy Hz. unfold Perlin_noise.
  pose proof (f64_as_i32_range (f64_floor (Vec3_x p))) as Rx.
  pose proof (f64_as_i32_range (f64_floor (Vec3_y p))) as Ry.
  pose proof (f64_as_i32_range (f64_floor (Vec3_z p))) as Rz.
  destruct (Perlin_gather_ok true self (cell (Vec3_x p)) (cell (Vec3_y p)) (cell (Vec3_z p))
              corners Hok) as (c & Ec).
  { unfold cell in *. unfold corners.
    repeat (apply Forall_cons; [repeat split; eexists; apply i32_add_in_range; lia |]).
    apply Forall_nil. }
  unfold cell in Ec. rewrite Ec. cbn [bind]. eauto.
Qed.

(** C10, as the listing has it: [Perlin::new] always returns; each of its
    three tables is a permutation of 0..255 whose entry 255 is 255 and the
    vector array has 256 entries; for every point, finite or not,
    [Perlin::noise] returns a value when overflow wraps (a build without
    overflow checks) and when every floored coordinate is below i32::MAX;
    and in every build a corner whose three sums [i + di], [j + dj],
    [k + dk] are computed reads all four arrays within their bounds. *)
Theorem Perlin_noise_in_bounds (g : Rng) :
  exists self g',
    Perlin_new g = Ok (self, g')
    /\ List.length (ranvec self) = 256%nat
    /\ permutation_table (perm_x self)
    /\ permutation_table (perm_y self)
    /\ permutation_table (perm_z self)
    /\ (forall p : Point3, exists x, Perlin_noise false self p = Ok x)
    /\ (forall p : Point3,
          (cell (Vec3_x p) < i32_MAX)%Z -> (cell (Vec3_y p) < i32_MAX)%Z ->
          (cell (Vec3_z p) < i32_MAX)%Z ->
          exists x, Perlin_noise true self p = Ok x)
    /\ (forall checks i j k di dj dk i' j' k',
          i32_add checks i di = Ok i' -> i32_add checks j dj = Ok j' ->
          i32_add checks k dk = Ok k' ->
          exists x, Perlin_corner checks self i j k di dj dk = Ok x).
Proof.
  destruct (Perlin_new_ok g) as (self & g' & E & Lr & Px & Py & Pz).
  assert (Hok : Perlin_tables_ok self).
  { split; [exact Lr |].
    split; [apply permutation_in_range, Px |].
    split; [apply permutation_in_range, Py | apply permutation_in_range, Pz]. }
  exists self, g'. split; [exact E |]. split; [exact Lr |].
  split; [exact Px |]. split; [exact Py |]. split; [exact Pz |].
  split; [intro p; apply Perlin_noise_unchecked; exact Hok |].
  split; [intros p Hx Hy Hz; apply Perlin_noise_checked; assumption |].
  intros checks i j k di dj dk i' j' k' Ei Ej Ek.
  eapply Perlin_corner_in_bounds; eassumption.
Qed.

(** C10, as the claim has it, fails in a build with overflow checks: the
    point (3e9, 0.5, 0.5) is finite, its first coordinate floors to 3e9 and
    is cast to i32::MAX = 2147483647, and [i + di] with [di = 1] overflows:
    the call panics.  Without the checks the sum wraps and the call
    returns. *)
Lemma Perlin_noise_overflow_counterexample :
  cell 3e9 = i32_MAX
  /\ match Perlin_new demo_rng with
     | Ok (self, _) =>
         Perlin_noise true self (Vec3_new 3e9 0.5 0.5) = Panic
         /\ Perlin_noise false self (Vec3_new 3e9 0.5 0.5) = Ok (-0.22627444259398011)
     | _ => False
     end.
Proof. split; [reflexivity | vm_compute; split; reflexivity]. Qed.

(** ** The hierarchy against the list *)

(** *** The order of [f64] through [rank] *)

Lemma valid_finite_bounds s m e :
  SpecFloat.valid_binary prec emax (S754_finite s m e) = true ->
  (0 < Zpos m < 2 ^ 53 /\ -1074 <= e <= 971)%Z.
Proof.
  cbn [SpecFloat.valid_binary]. unfold bounded. intros H.
  apply andb_true_iff in H. destruct H as [Hc He].
  apply Z.leb_le in He. unfold canonical_mantissa in Hc. apply Z.eqb_eq in Hc.
  unfold fexp, emin, emax, prec in *.
  pose proof (digits2_pos_bound m) as Hd.
  split; [split; [lia|] | lia].
  assert (Z.pos (digits2_pos m) <= 53)%Z by lia.
  eapply Z.lt_le_trans; [apply Hd|]. apply Z.pow_le_mono_r; lia.
Qed.

Lemma SFcompare_rank (f1 f2 : spec_float) :
  SpecFloat.valid_binary prec emax f1 = true ->
  SpecFloat.valid_binary prec emax f2 = true ->
  f1 <> S754_nan -> f2 <> S754_nan ->
  SFcompare f1 f2 = Some (SF_rank f1 ?= SF_rank f2)%Z.
Proof.
  intros V1 V2 N1 N2.
  destruct f1 as [s1 | s1 | | s1 m1 e1]; try congruence;
  destruct f2 as [s2 | s2 | | s2 m2 e2]; try congruence;
  try (apply valid_finite_bounds in V1); try (apply valid_finite_bounds in V2);
  cbn [SFcompare SF_rank]; f_equal;
  change (2 ^ 64)%Z with 18446744073709551616%Z in *;
  change (2 ^ 53)%Z with 9007199254740992%Z in *;
  repeat match goal with s : bool |- _ => destruct s end;
  cbv zeta;
  try (symmetry; first
         [ apply Z.compare_eq_iff; lia
         | apply Z.compare_lt_iff; nia
         | apply Z.compare_gt_iff; nia ]).
  - destruct (Z.compare_spec e1 e2) as [E | E | E].
    + subst e2. fold (Pos.compare m1 m2).
      change (Pos.compare m1 m2) with (Z.compare (Zpos m1) (Zpos m2)).
      destruct (Z.compare_spec (Zpos m1) (Zpos m2)) as [F | F | F]; cbn [CompOpp]; symmetry;
        [apply Z.compare_eq_iff | apply Z.compare_gt_iff | apply Z.compare_lt_iff]; lia.
    + symmetry. apply Z.compare_gt_iff. nia.
    + symmetry. apply Z.compare_lt_iff. nia.
  - destruct (Z.compare_spec e1 e2) as [E | E | E].
    + subst e2. fold (Pos.compare m1 m2).
      change (Pos.compare m1 m2) with (Z.compare (Zpos m1) (Zpos m2)).
      destruct (Z.compare_spec (Zpos m1) (Zpos m2)) as [F | F | F]; symmetry;
        [apply Z.compare_eq_iff | apply Z.compare_lt_iff | apply Z.compare_gt_iff]; lia.
    + symmetry. apply Z.compare_lt_iff. nia.
    + symmetry. apply Z.compare_gt_iff. nia.
Qed.

Lemma nonnan_spec (a : f64) : nonnan a = true <-> Prim2SF a <> S754_nan.
Proof.
  unfold nonnan. rewrite FloatAxioms.eqb_spec. unfold SFeqb. split.
  - intros H E. rewrite E in H. discriminate.
  - intros H. rewrite SFcompare_rank by (auto using Prim2SF_valid).
    now rewrite Z.compare_refl.
Qed.

Lemma ltb_rank (a b : f64) :
  nonnan a = true -> nonnan b = true -> (a <? b) = (rank a <? rank b)%Z.
Proof.
  intros Ha Hb. apply nonnan_spec in Ha, Hb.
  rewrite FloatAxioms.ltb_spec. unfold SFltb. rewrite SFcompare_rank by (auto using Prim2SF_valid).
  reflexivity.
Qed.

Lemma leb_rank (a b : f64) :
  nonnan a = true -> nonnan b = true -> (a <=? b) = (rank a <=? rank b)%Z.
Proof.
  intros Ha Hb. apply nonnan_spec in Ha, Hb.
  rewrite FloatAxioms.leb_spec. unfold SFleb. rewrite SFcompare_rank by (auto using Prim2SF_valid).
  fold (rank a) (rank b). unfold Z.leb. destruct (rank a ?= rank b)%Z; reflexivity.
Qed.

Lemma eqb_rank (a b : f64) :
  nonnan a = true -> nonnan b = true -> (a =? b) = (rank a =? rank b)%Z.
Proof.
  intros Ha Hb. apply nonnan_spec in Ha, Hb.
  rewrite FloatAxioms.eqb_spec. unfold SFeqb. rewrite SFcompare_rank by (auto using Prim2SF_valid).
  fold (rank a) (rank b). rewrite <- Z.eqb_compare. reflexivity.
Qed.

Lemma SFcompare_nan (f1 f2 : spec_float) :
  f1 = S754_nan \/ f2 = S754_nan -> SFcompare f1 f2 = None.
Proof. intros [-> | ->]; [reflexivity | now destruct f1]. Qed.

Lemma nan_spec (a : f64) : nonnan a = false -> Prim2SF a = S754_nan.
Proof.
  intros H. destruct (Prim2SF a) eqn:E; try reflexivity;
    assert (N : nonnan a = true) by (apply nonnan_spec; congruence); congruence.
Qed.

Lemma ltb_nan (a b : f64) : nonnan a = false \/ nonnan b = false -> (a <? b) = false.
Proof.
  intros H. rewrite FloatAxioms.ltb_spec. unfold SFltb. rewrite SFcompare_nan; [reflexivity |].
  destruct H as [H | H]; [left | right]; now apply nan_spec.
Qed.

Lemma leb_nan (a b : f64) : nonnan a = false \/ nonnan b = false -> (a <=? b) = false.
Proof.
  intros H. rewrite FloatAxioms.leb_spec. unfold SFleb. rewrite SFcompare_nan; [reflexivity |].
  destruct H as [H | H]; [left | right]; now apply nan_spec.
Qed.

Lemma eqb_nan (a b : f64) : nonnan a = false \/ nonnan b = false -> (a =? b) = false.
Proof.
  intros H. rewrite FloatAxioms.eqb_spec. unfold SFeqb. rewrite SFcompare_nan; [reflexivity |].
  destruct H as [H | H]; [left | right]; now apply nan_spec.
Qed.

Lemma ltb_nonnan (a b : f64) : (a <? b) = true -> nonnan a = true /\ nonnan b = true.
Proof.
  intros H. destruct (nonnan a) eqn:Ha; [destruct (nonnan b) eqn:Hb; [auto |] |];
    rewrite ltb_nan in H by auto; discriminate.
Qed.

Lemma eqb_nonnan (a b : f64) : (a =? b) = true -> nonnan a = true /\ nonnan b = true.
Proof.
  intros H. destruct (nonnan a) eqn:Ha; [destruct (nonnan b) eqn:Hb; [auto |] |];
    rewrite eqb_nan in H by auto; discriminate.
Qed.

(** Comparisons of values known to be numbers, turned into comparisons of
    their ranks. *)
Ltac float_order :=
  repeat match goal with
    | H : (PrimFloat.ltb ?a ?b) = true |- _ =>
        lazymatch goal with
        | _ : nonnan a = true, _ : nonnan b = true |- _ => fail
        | _ => pose proof (ltb_nonnan a b H) as [? ?]
        end
    | H : (PrimFloat.eqb ?a ?b) = true |- _ =>
        lazymatch goal with
        | _ : nonnan a = true, _ : nonnan b = true |- _ => fail
        | _ => pose proof (eqb_nonnan a b H) as [? ?]
        end
    end;
  repeat match goal with
    | H : context [PrimFloat.ltb ?a ?b] |- _ => rewrite (ltb_rank a b) in H by assumption
    | H : context [PrimFloat.leb ?a ?b] |- _ => rewrite (leb_rank a b) in H by assumption
    | H : context [PrimFloat.eqb ?a ?b] |- _ => rewrite (eqb_rank a b) in H by assumption
    | |- context [PrimFloat.ltb ?a ?b] => rewrite (ltb_rank a b) by assumption
    | |- context [PrimFloat.leb ?a ?b] => rewrite (leb_rank a b) by assumption
    | |- context [PrimFloat.eqb ?a ?b] => rewrite (eqb_rank a b) by assumption
    end;
  repeat match goal with
    | H : negb _ = true |- _ => apply negb_true_iff in H
    | H : negb _ = false |- _ => apply negb_false_iff in H
    | H : Z.ltb _ _ = true |- _ => apply Z.ltb_lt in H
    | H : Z.ltb _ _ = false |- _ => apply Z.ltb_ge in H
    | H : Z.leb _ _ = true |- _ => apply Z.leb_le in H
    | H : Z.leb _ _ = false |- _ => apply Z.leb_gt in H
    | H : Z.eqb _ _ = true |- _ => apply Z.eqb_eq in H
    | H : Z.eqb _ _ = false |- _ => apply Z.eqb_neq in H
    end;
  repeat match goal with
    | |- negb _ = true => apply negb_true_iff
    | |- negb _ = false => apply negb_false_iff
    end;
  try match goal with
    | |- Z.ltb _ _ = true => apply Z.ltb_lt
    | |- Z.ltb _ _ = false => apply Z.ltb_ge
    | |- Z.leb _ _ = true => apply Z.leb_le
    | |- Z.leb _ _ = false => apply Z.leb_gt
    | |- Z.eqb _ _ = true => apply Z.eqb_eq
    | |- Z.eqb _ _ = false => apply Z.eqb_neq
    end;
  try lia.

Lemma ltb_irrefl (a : f64) : (a <? a) = false.
Proof.
  destruct (nonnan a) eqn:Ha; [float_order | apply ltb_nan; auto].
Qed.

Lemma f64_partial_cmp_total (a b : f64) :
  nonnan a = true -> nonnan b = true -> exists c, f64_partial_cmp a b = Some c.
Proof.
  intros Ha Hb. unfold f64_partial_cmp.
  destruct (a <? b) eqn:E1; [eauto |].
  destruct (a =? b) eqn:E2; [eauto |].
  destruct (b <? a) eqn:E3; [eauto |].
  exfalso. float_order.
Qed.

(** *** Candidates *)

Lemma existsb_false {A : Type} (f : A -> bool) (l : list A) :
  existsb f l = false <-> forall x, In x l -> f x = false.
Proof.
  induction l as [| a l IH]; cbn [existsb In].
  - split; [intros _ x [] | reflexivity].
  - rewrite orb_false_iff, IH. split.
    + intros [Ha Hl] x [<- | Hx]; auto.
    + intros H. split; [apply H; auto | intros x Hx; apply H; auto].
Qed.

Section Candidates.

Context {M : Type}.
Context {libm : Libm}.

Lemma valid_candidates_app (cs1 cs2 : list candidate) :
  valid_candidates cs1 -> valid_candidates cs2 -> valid_candidates (cs1 ++ cs2).
Proof. unfold valid_candidates. intros. apply Forall_app. auto. Qed.

Lemma valid_candidates_In (cs : list candidate) (c : candidate) :
  valid_candidates cs -> In c cs -> nonnan (fst c) = true.
Proof. unfold valid_candidates. rewrite Forall_forall. auto. Qed.

Lemma nearest_nonnan (cs : list candidate) (t_max x : f64) :
  nearest cs t_max x -> nonnan x = true.
Proof. intros [(c & _ & _ & E) _]. now apply eqb_nonnan in E. Qed.

(** The nearest of the first candidates stays the nearest when none of the
    others is within it. *)
Lemma nearest_keep (cs1 cs2 : list candidate) (t_max x : f64) :
  valid_candidates cs2 ->
  nearest cs1 t_max x -> existsb (accepts x) cs2 = false ->
  nearest (cs1 ++ cs2) t_max x.
Proof.
  intros V2 N E. pose proof (nearest_nonnan _ _ _ N) as Hx.
  destruct N as [(c & Hc & Ha & He) Hlow]. split.
  - exists c. rewrite in_app_iff. auto.
  - intros c' Hc'. apply in_app_iff in Hc' as [Hc' | Hc']; [auto |].
    pose proof (valid_candidates_In _ _ V2 Hc') as Hn.
    rewrite existsb_false in E. specialize (E c' Hc').
    unfold accepts in E. destruct c' as [y [|]]; cbn [fst snd] in *; float_order.
Qed.

(** With the bound narrowed to the nearest of the first candidates, the
    nearest of the others within it is the nearest of all. *)
Lemma nearest_take (cs1 cs2 : list candidate) (t_max x1 x2 : f64) :
  nonnan t_max = true -> valid_candidates cs1 -> valid_candidates cs2 ->
  nearest cs1 t_max x1 -> nearest cs2 x1 x2 ->
  nearest (cs1 ++ cs2) t_max x2.
Proof.
  intros Ht V1 V2 N1 N2.
  pose proof (nearest_nonnan _ _ _ N1) as Hx1. pose proof (nearest_nonnan _ _ _ N2) as Hx2.
  destruct N1 as [(c1 & Hc1 & Ha1 & He1) Hlow1].
  destruct N2 as [(c2 & Hc2 & Ha2 & He2) Hlow2].
  pose proof (valid_candidates_In _ _ V1 Hc1) as Hn1.
  pose proof (valid_candidates_In _ _ V2 Hc2) as Hn2.
  assert (Hle : (rank x2 <= rank x1 <= rank t_max)%Z).
  { unfold accepts in Ha1, Ha2.
    destruct c1 as [y1 [|]], c2 as [y2 [|]]; cbn [fst snd] in *; float_order. }
  split.
  - exists c2. rewrite in_app_iff. repeat split; auto.
    unfold accepts in *.
    destruct c1 as [y1 [|]], c2 as [y2 [|]]; cbn [fst snd] in *; float_order.
  - intros c' Hc'. apply in_app_iff in Hc' as [Hc' | Hc']; [| auto].
    pose proof (valid_candidates_In _ _ V1 Hc') as Hn.
    specialize (Hlow1 c' Hc'). float_order.
Qed.

(** Candidates none of which is within the bound do not change the
    nearest. *)
Lemma nearest_skip (cs1 cs2 : list candidate) (t_max x : f64) :
  nonnan t_max = true -> valid_candidates cs1 -> valid_candidates cs2 ->
  existsb (accepts t_max) cs1 = false -> nearest cs2 t_max x ->
  nearest (cs1 ++ cs2) t_max x.
Proof.
  intros Ht V1 V2 E N. pose proof (nearest_nonnan _ _ _ N) as Hx.
  destruct N as [(c & Hc & Ha & He) Hlow].
  pose proof (valid_candidates_In _ _ V2 Hc) as Hn.
  split.
  - exists c. rewrite in_app_iff. auto.
  - intros c' Hc'. apply in_app_iff in Hc' as [Hc' | Hc']; [| auto].
    pose proof (valid_candidates_In _ _ V1 Hc') as Hn'.
    rewrite existsb_false in E. specialize (E c' Hc').
    unfold accepts in *.
    destruct c as [y [|]], c' as [y' [|]]; cbn [fst snd] in *; float_order.
Qed.

(** A candidate within a narrowed bound is within the bound. *)
Lemma accepts_narrowed (cs : list candidate) (t_max x : f64) (c : candidate) :
  nonnan t_max = true -> valid_candidates cs -> nonnan (fst c) = true ->
  nearest cs t_max x -> accepts x c = true -> accepts t_max c = true.
Proof.
  intros Ht V Hc N Ha. pose proof (nearest_nonnan _ _ _ N) as Hx.
  destruct N as [(c1 & Hc1 & Ha1 & He1) _].
  pose proof (valid_candidates_In _ _ V Hc1) as Hn1.
  unfold accepts in *.
  destruct c as [y [|]], c1 as [y1 [|]]; cbn [fst snd] in *; float_order.
Qed.


Lemma outcome_miss (cs : list candidate) (t_max : f64) (rec : HitRecord M) :
  existsb (accepts t_max) cs = false -> outcome cs t_max rec (false, rec).
Proof.
  intros E. unfold outcome. cbn [fst snd]. rewrite E.
  split; [reflexivity | split; [discriminate | reflexivity]].
Qed.

Lemma outcome_hit (cs : list candidate) (t_max : f64) (rec rec' : HitRecord M) :
  existsb (accepts t_max) cs = true -> nearest cs t_max (t rec') ->
  outcome cs t_max rec (true, rec').
Proof.
  intros E N. unfold outcome. cbn [fst snd]. rewrite E.
  split; [reflexivity | split; [auto | discriminate]].
Qed.

Lemma nearest_single (x t_max : f64) (s : bool) :
  nonnan x = true -> accepts t_max (x, s) = true -> nearest [(x, s)] t_max x.
Proof.
  intros Hx Ha. split.
  - exists (x, s). cbn [In fst]. auto.
  - intros c [<- | []]. apply ltb_irrefl.
Qed.

(** The two-root test of the spheres answers for the root it can report. *)
Lemma roots_answers (roots : f64 * f64 * f64) (t_min : f64)
  (record : f64 -> HitRecord M -> HitRecord M) :
  (forall x rec, t (record x rec) = x) ->
  roots_ordered roots ->
  valid_candidates (root_candidates roots t_min) /\
  answers
    (fun t_max rec =>
       let '(discriminant, temp1, temp2) := roots in
       if discriminant >? 0 then
         if (temp1 <? t_max) && (temp1 >? t_min) then (true, record temp1 rec)
         else if (temp2 <? t_max) && (temp2 >? t_min) then (true, record temp2 rec)
         else (false, rec)
       else (false, rec))
    (root_candidates roots t_min).
Proof.
  intros Hrec Hord. destruct roots as [[d x1] x2].
  unfold roots_ordered in Hord. unfold root_candidates. split.
  - destruct (0 <? d); [| constructor].
    destruct (t_min <? x1) eqn:E1; [constructor; [| constructor] |].
    + apply ltb_nonnan in E1. apply E1.
    + destruct (t_min <? x2) eqn:E2; constructor; [| constructor].
      apply ltb_nonnan in E2. apply E2.
  - intros t_max rec Ht.
    destruct (0 <? d); [| now apply outcome_miss].
    destruct (t_min <? x1) eqn:E1.
    + pose proof (ltb_nonnan _ _ E1) as [_ Hx1]. rewrite andb_true_r.
      destruct (x1 <? t_max) eqn:E3.
      * apply outcome_hit; cbn [existsb accepts fst snd]; [now rewrite E3 |].
        rewrite Hrec. now apply nearest_single.
      * assert (E4 : (x2 <? t_max) = false).
        { destruct (x2 <? t_max) eqn:E4; [exfalso | reflexivity]. float_order. }
        rewrite E4. apply outcome_miss. cbn [existsb accepts fst snd]. now rewrite E3.
    + rewrite andb_false_r.
      destruct (t_min <? x2) eqn:E2.
      * pose proof (ltb_nonnan _ _ E2) as [_ Hx2]. rewrite andb_true_r.
        destruct (x2 <? t_max) eqn:E3.
        -- apply outcome_hit; cbn [existsb accepts fst snd]; [now rewrite E3 |].
           rewrite Hrec. now apply nearest_single.
        -- apply outcome_miss. cbn [existsb accepts fst snd]. now rewrite E3.
      * rewrite andb_false_r. now apply outcome_miss.
Qed.

(** The plane test of the rectangles answers for the distance to the
    plane. *)
Lemma rect_answers (t' : f64) (outside : bool) (t_min : f64)
  (record : HitRecord M -> HitRecord M) :
  (forall rec, t (record rec) = t') ->
  nonnan t' = true ->
  valid_candidates (rect_candidates t' (negb outside) t_min) /\
  answers
    (fun t_max rec =>
       if (t' <? t_min) || (t' >? t_max) then (false, rec)
       else if outside then (false, rec) else (true, record rec))
    (rect_candidates t' (negb outside) t_min).
Proof.
  intros Hrec Hn. unfold rect_candidates. split.
  - destruct (t' <? t_min); [constructor |]. destruct outside; cbn [negb]; repeat constructor.
    exact Hn.
  - intros t_max rec Ht.
    destruct (t' <? t_min); [now apply outcome_miss |].
    rewrite orb_false_l.
    destruct outside; cbn [negb].
    + destruct (t_max <? t'); now apply outcome_miss.
    + destruct (t_max <? t') eqn:E.
      * apply outcome_miss. cbn [existsb accepts fst snd]. now rewrite E.
      * apply outcome_hit; cbn [existsb accepts fst snd]; [now rewrite E |].
        rewrite Hrec. apply nearest_single; [exact Hn |]. cbn [accepts fst snd]. now rewrite E.
Qed.

End Candidates.

(** *** The list and the node answer for the candidates of their objects *)

Section Searches.

Context {M : Type}.
Context {libm : Libm}.

Variable r : Ray.
Variable t_min : f64.

Lemma valid_candidates_flat_map (objects : list (Hittable M)) :
  Forall (well_answered r t_min) objects ->
  valid_candidates (flat_map (candidates r t_min) objects).
Proof.
  induction 1 as [| o rest [V _] _ IH]; cbn [flat_map].
  - constructor.
  - now apply valid_candidates_app.
Qed.

Lemma list_loop_outcome (objects : list (Hittable M)) :
  Forall (well_answered r t_min) objects ->
  forall hit_anything closest_so_far rec, nonnan closest_so_far = true ->
    let res := HittableList_hit_loop hit objects r t_min hit_anything closest_so_far rec in
    let cs := flat_map (candidates r t_min) objects in
    fst res = hit_anything || existsb (accepts closest_so_far) cs /\
    (existsb (accepts closest_so_far) cs = true -> nearest cs closest_so_far (t (snd res))) /\
    (existsb (accepts closest_so_far) cs = false -> snd res = rec).
Proof.
  induction 1 as [| o rest [V A] Hrest IH]; intros ha csf rec Hn; cbv zeta.
  - cbn. rewrite orb_false_r. auto using eq_refl.
    split; [reflexivity | split; [discriminate | reflexivity]].
  - pose proof (valid_candidates_flat_map rest Hrest) as Vrest.
    cbn [HittableList_hit_loop flat_map]. rewrite existsb_app.
    destruct (A csf HitRecord_new Hn) as (Eb & Enear & _).
    destruct (hit o r t_min csf HitRecord_new) as [h temp]. cbn [fst snd] in *.
    destruct h.
    + specialize (Enear eq_refl). pose proof (nearest_nonnan _ _ _ Enear) as Hx.
      destruct (IH true (t temp) temp Hx) as (Fb & Fnear & Fmiss). cbv zeta in *.
      rewrite <- Eb. cbn [orb]. rewrite orb_true_r.
      split; [exact Fb | split; [| discriminate]].
      intros _. destruct (existsb (accepts (t temp)) (flat_map (candidates r t_min) rest)) eqn:E.
      * eapply nearest_take; eauto.
      * rewrite (Fmiss eq_refl). now apply nearest_keep.
    + destruct (IH ha csf rec Hn) as (Fb & Fnear & Fmiss). cbv zeta in *.
      rewrite <- Eb. cbn [orb].
      split; [exact Fb | split; [| exact Fmiss]].
      intros E. apply nearest_skip; auto.
Qed.

Lemma list_answers (objects : list (Hittable M)) :
  Forall (well_answered r t_min) objects -> well_answered r t_min (HHittableList objects).
Proof.
  intros H. split; [now apply valid_candidates_flat_map |].
  intros t_max rec Hn. rewrite hit_list_unfold.
  destruct (list_loop_outcome objects H false t_max rec Hn) as (Fb & Fnear & Fmiss).
  cbv zeta in *. cbn [orb] in Fb. unfold outcome.
  change (candidates r t_min (HHittableList objects))
    with (flat_map (candidates r t_min) objects).
  split; [exact Fb | split].
  - intros E. apply Fnear. congruence.
  - intros E. apply Fmiss. congruence.
Qed.

Lemma node_answers (l rt : Hittable M) (b : Aabb) :
  well_answered r t_min l -> well_answered r t_min rt -> box_admits r t_min l rt b ->
  well_answered r t_min (HBvhNode l rt b).
Proof.
  intros [Vl Al] [Vr Ar] Hbox. split; [now apply valid_candidates_app |].
  intros t_max rec Hn. rewrite hit_bvh_unfold. unfold BvhNode_hit.
  change (candidates r t_min (HBvhNode l rt b))
    with (candidates r t_min l ++ candidates r t_min rt).
  destruct (Aabb_hit b r t_min t_max) eqn:Ebox; cbn [negb].
  - destruct (Al t_max rec Hn) as (Lb & Lnear & Lmiss).
    destruct (hit l r t_min t_max rec) as [hl rec1]. cbn [fst snd] in *.
    destruct hl.
    + specialize (Lnear eq_refl). pose proof (nearest_nonnan _ _ _ Lnear) as Hx.
      destruct (Ar (t rec1) rec1 Hx) as (Rb & Rnear & Rmiss).
      destruct (hit rt r t_min (t rec1) rec1) as [hr rec2]. cbn [fst snd orb] in *.
      apply outcome_hit; [rewrite existsb_app, <- Lb; reflexivity |].
      destruct hr.
      * eapply nearest_take; eauto.
      * rewrite (Rmiss eq_refl). apply nearest_keep; auto.
    + rewrite (Lmiss eq_refl).
      destruct (Ar t_max rec Hn) as (Rb & Rnear & Rmiss).
      destruct (hit rt r t_min t_max rec) as [hr rec2]. cbn [fst snd orb] in *.
      destruct hr.
      * apply outcome_hit; [rewrite existsb_app, <- Lb, <- Rb; reflexivity |].
        apply nearest_skip; auto.
      * rewrite (Rmiss eq_refl). apply outcome_miss.
        rewrite existsb_app, <- Lb, <- Rb. reflexivity.
  - apply outcome_miss. rewrite existsb_app.
    destruct (Al t_max rec Hn) as (Lb & _). destruct (Ar t_max rec Hn) as (Rb & _).
    rewrite <- Lb, <- Rb.
    destruct (fst (hit l r t_min t_max rec)) eqn:El.
    + rewrite (Hbox t_max rec Hn) in Ebox by (left; exact El). discriminate.
    + destruct (fst (hit rt r t_min t_max rec)) eqn:Er; [| reflexivity].
      rewrite (Hbox t_max rec Hn) in Ebox by (right; exact Er). discriminate.
Qed.

Lemma Sphere_record_t (s : Sphere M) (x : f64) (rec : HitRecord M) :
  t (Sphere_record s r x rec) = x.
Proof. unfold Sphere_record. destruct (get_sphere_uv _). reflexivity. Qed.

Lemma regular_list (objects : list (Hittable M)) :
  regular r t_min (HHittableList objects) <-> Forall (regular r t_min) objects.
Proof.
  cbn [regular]. induction objects as [| o rest IH]; cbn [fold_right].
  - split; auto.
  - rewrite IH. split; [intros [? ?]; constructor; auto | intros H; inversion H; auto].
Qed.

(** On a regular ray every hittable answers for its candidates. *)
Lemma regular_answers (h : Hittable M) : regular r t_min h -> well_answered r t_min h.
Proof.
  induction h as [s | s | s | s | s | objects IH | l rt b IHl IHr] using Hittable_induction.
  - intros H. exact (roots_answers _ t_min (Sphere_record s r) (Sphere_record_t s) H).
  - intros H.
    exact (roots_answers _ t_min (MovingSphere_record s r) (fun _ _ => eq_refl) H).
  - intros H. unfold well_answered. cbn [candidates hit].
    refine (rect_answers (XyRect_plane s r) _ t_min
              (fun rec => set_p (set_mat_ptr (set_face_normal (set_t (set_v (set_u rec _) _) _)
                                                r _) _) _)
              (fun _ => eq_refl) H).
  - intros H. unfold well_answered. cbn [candidates hit].
    refine (rect_answers (XzRect_plane s r) _ t_min
              (fun rec => set_p (set_mat_ptr (set_face_normal (set_t (set_v (set_u rec _) _) _)
                                                r _) _) _)
              (fun _ => eq_refl) H).
  - intros H. unfold well_answered. cbn [candidates hit].
    refine (rect_answers (YzRect_plane s r) _ t_min
              (fun rec => set_p (set_mat_ptr (set_face_normal (set_t (set_v (set_u rec _) _) _)
                                                r _) _) _)
              (fun _ => eq_refl) H).
  - rewrite regular_list. intros H. apply list_answers.
    rewrite Forall_forall in *. auto.
  - intros (Hbox & Hl & Hr). apply node_answers; auto.
Qed.

End Searches.

(** *** [sort_by] and [BvhNode::new] *)

Lemma insert_by_ok {A : Type} (compare : A -> A -> result comparison) (x : A) (l : list A) :
  (forall y, In y l -> exists c, compare x y = Ok c) ->
  exists l', insert_by compare x l = Ok l' /\ Permutation (x :: l) l'.
Proof.
  induction l as [| y l IH]; intros H; cbn [insert_by].
  - eauto.
  - destruct (H y (or_introl eq_refl)) as [c ->]. cbn [bind].
    destruct IH as (l'' & E & P); [intros z Hz; apply H; now right |].
    destruct c; eauto.
    rewrite E. cbn [bind]. eexists. split; [reflexivity |].
    eapply perm_trans; [apply perm_swap | now apply perm_skip].
Qed.

Lemma sort_by_ok {A : Type} (compare : A -> A -> result comparison) (l : list A) :
  (forall x y, In x l -> In y l -> exists c, compare x y = Ok c) ->
  exists l', sort_by compare l = Ok l' /\ Permutation l l'.
Proof.
  induction l as [| x l IH]; intros H; cbn [sort_by].
  - eauto.
  - destruct IH as (s & E & P); [intros a b Ha Hb; apply H; now right |].
    rewrite E. cbn [bind].
    destruct (insert_by_ok compare x s) as (l' & E' & P').
    + intros y Hy. apply H; [now left | right].
      eapply Permutation_in; [apply Permutation_sym; exact P | exact Hy].
    + exists l'. split; [exact E' |].
      eapply perm_trans; [apply perm_skip; exact P | exact P'].
Qed.

Lemma sort_slice_ok {A : Type} (compare : A -> A -> result comparison)
  (pre mid post : list A) :
  (forall x y, In x mid -> In y mid -> exists c, compare x y = Ok c) ->
  exists mid',
    sort_slice compare (pre ++ mid ++ post) (List.length pre) (List.length pre + List.length mid)
    = Ok (pre ++ mid' ++ post) /\ Permutation mid mid'.
Proof.
  intros H. destruct (sort_by_ok compare mid H) as (s & E & P).
  exists s. split; [| exact P]. unfold sort_slice.
  replace (_ || _) with false.
  2:{ symmetry. apply orb_false_iff. split; apply Nat.ltb_ge;
        rewrite ?length_app; lia. }
  replace (List.length pre + List.length mid - List.length pre)%nat
    with (List.length mid) by lia.
  rewrite skipn_app, Nat.sub_diag, skipn_all, skipn_O. cbn [app].
  rewrite firstn_app, Nat.sub_diag, firstn_all, firstn_O, app_nil_r.
  rewrite E. cbn [bind].
  rewrite firstn_app, Nat.sub_diag, firstn_all, firstn_O, app_nil_r.
  rewrite <- length_app, (app_assoc pre mid post).
  rewrite skipn_app, Nat.sub_diag, skipn_all, skipn_O. reflexivity.
Qed.

Section Builder.

Context {M : Type}.
Context {libm : Libm}.

Lemma comparable_axis (o : Hittable M) (axis : nat) :
  comparable o = true ->
  nonnan (Vec3_at (Aabb_min (snd (bounding_box o 0 0 Aabb_zero))) axis) = true.
Proof.
  unfold comparable. cbn [forallb]. rewrite !andb_true_iff. intros (H0 & H1 & H2 & _).
  destruct axis as [| [| [| axis]]]; assumption.
Qed.

Lemma Vec3_index_at (v : Vec3) (axis : nat) :
  (axis < 3)%nat -> Vec3_index v axis = Some (Vec3_at v axis).
Proof. intros H. destruct axis as [| [| [| axis]]]; [reflexivity .. | lia]. Qed.

Lemma box_compare_total (a b : Hittable M) (axis : nat) :
  (axis < 3)%nat ->
  comparable a = true -> comparable b = true -> exists c, box_compare a b axis = Ok c.
Proof.
  intros Hax Ha Hb. unfold box_compare.
  pose proof (comparable_axis a axis Ha) as Na.
  pose proof (comparable_axis b axis Hb) as Nb.
  destruct (bounding_box a 0 0 Aabb_zero) as [ok_a box_a]. cbn [snd] in Na.
  assert (Nz : nonnan (Vec3_at (Aabb_min Aabb_zero) axis) = true)
    by (destruct axis as [| [| [| axis]]]; reflexivity).
  rewrite !Vec3_index_at by exact Hax. cbn [unwrap bind].
  destruct (f64_partial_cmp_total
              (Vec3_at (Aabb_min box_a) axis)
              (Vec3_at (Aabb_min (if ok_a then snd (bounding_box b 0 0 Aabb_zero)
                                  else Aabb_zero)) axis)) as [c E].
  - exact Na.
  - destruct ok_a; assumption.
  - rewrite E. cbn [unwrap]. eauto.
Qed.

Lemma comparable_In (objects : list (Hittable M)) (o : Hittable M) :
  forallb comparable objects = true -> In o objects -> comparable o = true.
Proof. rewrite forallb_forall. auto. Qed.

Lemma index_middle {A : Type} (pre post : list A) (x : A) :
  index (pre ++ x :: post) (List.length pre) = Ok x.
Proof.
  unfold index. rewrite nth_error_app2 by lia. rewrite Nat.sub_diag. reflexivity.
Qed.

Lemma index_next {A : Type} (pre post : list A) (x y : A) :
  index (pre ++ x :: y :: post) (List.length pre + 1) = Ok y.
Proof.
  unfold index. rewrite nth_error_app2 by lia.
  replace (List.length pre + 1 - List.length pre)%nat with 1%nat by lia. reflexivity.
Qed.

(** The last step of [BvhNode::new]: the node over [l] and [rt]. *)
Lemma BvhNode_new_finish (l rt : Hittable M) (objects : list (Hittable M))
  (time0 time1 : f64) (g : Rng) :
  (let '(ok_left, box_left) := bounding_box l time0 time1 Aabb_zero in
   Ok (HBvhNode l rt
         (Aabb_surrounding_box box_left
            (if ok_left then snd (bounding_box rt time0 time1 Aabb_zero) else Aabb_zero)),
       objects, g))
  = Ok (HBvhNode l rt (node_box time0 time1 l rt), objects, g).
Proof. unfold node_box. destruct (bounding_box l time0 time1 Aabb_zero). reflexivity. Qed.

(** [BvhNode::new] on a slice that is not empty, with fuel for its length
    and objects [box_compare] can order: it returns, the vector comes back
    with the slice permuted and the rest untouched, and the node is built
    over the objects of the slice, each node with the box of the
    constructor. *)
Lemma BvhNode_new_slice (fuel : nat) :
  forall (pre mid post : list (Hittable M)) (time0 time1 : f64) (g : Rng),
    mid <> [] -> (List.length mid <= fuel)%nat -> forallb comparable mid = true ->
    exists node mid' g',
      BvhNode_new fuel (pre ++ mid ++ post)
        (List.length pre) (List.length pre + List.length mid) time0 time1 g
      = Ok (node, pre ++ mid' ++ post, g') /\
      Permutation mid mid' /\
      exists os, built time0 time1 node os /\ (forall o, In o os <-> In o mid).
Proof.
  induction fuel as [| fuel IH]; intros pre mid post time0 time1 g Hne Hlen Hcmp.
  - destruct mid; [congruence | cbn in Hlen; lia].
  - cbn [BvhNode_new]. unfold random_usize_in_range. cbn [Nat.leb bind Nat.sub Nat.add].
    set (g1 := Rng_advance g).
    assert (Haxis : exists axis, (axis < 3)%nat /\
      match (usize_draws g (pos g) mod 3)%nat with
      | 0%nat => Ok box_x_compare
      | 1%nat => Ok box_y_compare
      | 2%nat => Ok box_z_compare
      | _ => Panic
      end = Ok (fun a b : Hittable M => box_compare a b axis)).
    { pose proof (Nat.mod_upper_bound (usize_draws g (pos g)) 3 ltac:(lia)) as Hk.
      destruct (usize_draws g (pos g) mod 3)%nat as [| [| [| k]]];
        [exists 0%nat | exists 1%nat | exists 2%nat | lia]; (split; [lia | reflexivity]). }
    destruct Haxis as (axis & Hax & ->). cbn [bind].
    replace (List.length pre + List.length mid <? List.length pre)%nat with false
      by (symmetry; apply Nat.ltb_ge; lia).
    replace (List.length pre + List.length mid - List.length pre)%nat
      with (List.length mid) by lia.
    assert (Htotal : forall x y, In x mid -> In y mid ->
              exists c, box_compare x y axis = Ok c).
    { intros x y Hx Hy. apply box_compare_total; [exact Hax | |]; eapply comparable_In; eauto. }
    destruct mid as [| a [| b [| c mid]]]; [congruence | | |].
    + (* one object *)
      cbn [List.length Nat.eqb]. change ([a] ++ post) with (a :: post).
      rewrite index_middle. cbn [bind].
      rewrite (BvhNode_new_finish a a (pre ++ a :: post) time0 time1 g1).
      exists (HBvhNode a a (node_box time0 time1 a a)), [a], g1. split; [reflexivity | split; [apply Permutation_refl |]].
      exists ([a] ++ [a]). split; [apply built_node; apply built_leaf |].
      intros o. cbn. tauto.
    + (* two objects *)
      cbn [List.length Nat.eqb]. change ([a; b] ++ post) with (a :: b :: post).
      rewrite index_middle. cbn [bind].
      rewrite index_next. cbn [bind].
      destruct (Htotal a b) as [c ->]; [cbn; auto | cbn; auto |]. cbn [bind].
      destruct c; cbn [bind].
      * rewrite (BvhNode_new_finish b a (pre ++ a :: b :: post) time0 time1 g1).
        exists (HBvhNode b a (node_box time0 time1 b a)), [a; b], g1.
        split; [reflexivity | split; [apply Permutation_refl |]].
        exists ([b] ++ [a]). split; [apply built_node; apply built_leaf |].
        intros o. cbn. tauto.
      * rewrite (BvhNode_new_finish a b (pre ++ a :: b :: post) time0 time1 g1).
        exists (HBvhNode a b (node_box time0 time1 a b)), [a; b], g1.
        split; [reflexivity | split; [apply Permutation_refl |]].
        exists ([a] ++ [b]). split; [apply built_node; apply built_leaf |].
        intros o. cbn. tauto.
      * rewrite (BvhNode_new_finish b a (pre ++ a :: b :: post) time0 time1 g1).
        exists (HBvhNode b a (node_box time0 time1 b a)), [a; b], g1.
        split; [reflexivity | split; [apply Permutation_refl |]].
        exists ([b] ++ [a]). split; [apply built_node; apply built_leaf |].
        intros o. cbn. tauto.
    + (* three objects or more *)
      set (objs := a :: b :: c :: mid) in *.
      assert (Hn : (3 <= List.length objs)%nat) by (cbn; lia).
      replace (List.length objs =? 1)%nat with false by (symmetry; apply Nat.eqb_neq; lia).
      replace (List.length objs =? 2)%nat with false by (symmetry; apply Nat.eqb_neq; lia).
      destruct (sort_slice_ok (fun a b => box_compare a b axis) pre objs post Htotal)
        as (s & -> & Ps).
      cbn [bind].
      pose proof (Permutation_length Ps) as Hls.
      set (n := List.length objs) in *.
      pose proof (firstn_skipn (n / 2) s) as Hsplit.
      set (s1 := firstn (n / 2) s) in *. set (s2 := skipn (n / 2) s) in *.
      assert (Hhalf : (1 <= n / 2 /\ n / 2 < n)%nat).
      { split; [apply Nat.div_le_lower_bound; lia | apply Nat.div_lt; lia]. }
      assert (Hl1 : List.length s1 = (n / 2)%nat)
        by (unfold s1; rewrite length_firstn; apply Nat.min_l; lia).
      assert (Hl2 : List.length s2 = (n - n / 2)%nat)
        by (unfold s2; rewrite length_skipn; rewrite <- Hls; reflexivity).
      assert (Hcs : forallb comparable s = true).
      { apply forallb_forall. intros o Ho. eapply comparable_In; [exact Hcmp |].
        eapply Permutation_in; [apply Permutation_sym; exact Ps | exact Ho]. }
      rewrite <- Hsplit in Hcs. rewrite forallb_app in Hcs.
      apply andb_true_iff in Hcs as [Hc1 Hc2].
      (* the left half *)
      destruct (IH pre s1 (s2 ++ post) time0 time1 g1) as (l & s1' & g2 & El & Pl & osl & Cl & Il).
      { intros E. rewrite E in Hl1. cbn [List.length] in Hl1. lia. }
      { lia. }
      { exact Hc1. }
      rewrite <- Hsplit, <- (app_assoc s1 s2 post), <- Hl1, El. cbn [bind].
      (* the right half *)
      destruct (IH (pre ++ s1') s2 post time0 time1 g2) as (rt & s2' & g3 & Er & Pr & osr & Cr & Ir).
      { intros E. rewrite E in Hl2. cbn [List.length] in Hl2. lia. }
      { lia. }
      { exact Hc2. }
      rewrite <- (app_assoc pre s1' (s2' ++ post)) in Er.
      rewrite length_app, <- (Permutation_length Pl) in Er.
      replace (List.length pre + n)%nat
        with (List.length pre + List.length s1 + List.length s2)%nat by lia.
      rewrite <- (app_assoc pre s1' (s2 ++ post)) in Er.
      rewrite Er. cbn [bind].
      rewrite (BvhNode_new_finish l rt (pre ++ s1' ++ s2' ++ post) time0 time1 g3).
      exists (HBvhNode l rt (node_box time0 time1 l rt)), (s1' ++ s2'), g3.
      split; [rewrite <- (app_assoc s1' s2' post); reflexivity |].
      split.
      * eapply perm_trans; [exact Ps |]. rewrite <- Hsplit. now apply Permutation_app.
      * exists (osl ++ osr). split; [now apply built_node |].
        intros o. rewrite in_app_iff, Il, Ir, <- in_app_iff, Hsplit.
        split; apply Permutation_in; [apply Permutation_sym |]; exact Ps.
Qed.

End Builder.

(** On an empty scene [BvhNode::new] calls itself on the same empty slice:
    it does not return, whatever the fuel. *)
Lemma BvhNode_new_empty {M : Type} (fuel : nat) (time0 time1 : f64) (g : Rng) :
  @BvhNode_new M fuel [] 0 0 time0 time1 g = OutOfFuel.
Proof.
  revert g. induction fuel as [| fuel IH]; intros g; [reflexivity |].
  cbn [BvhNode_new]. unfold random_usize_in_range. cbn [Nat.leb bind Nat.sub Nat.add].
  pose proof (Nat.mod_upper_bound (usize_draws g (pos g)) 3 ltac:(lia)) as Hk.
  destruct (usize_draws g (pos g) mod 3)%nat as [| [| [| k]]]; [| | | lia];
    cbn; rewrite IH; reflexivity.
Qed.

(** *** The hierarchy [BvhNode::new] builds against the list *)

Section Hierarchy.

Context {M : Type}.
Context {libm : Libm}.




End Hierarchy.

(** *** Boxes that can be checked *)



Section CheckedBoxes.

Context {M : Type}.
Context {libm : Libm}.



End CheckedBoxes.



(** ** Further properties of the listings *)

(** *** Arithmetic of [f64] at the zeros and at NaN *)

Lemma nonnan_false_spec (a : f64) : nonnan a = false <-> Prim2SF a = S754_nan.
Proof.
  split; [apply nan_spec |].
  intros E. destruct (nonnan a) eqn:H; [| reflexivity].
  apply nonnan_spec in H. congruence.
Qed.

Lemma zeroish_spec (a : f64) :
  zeroish a = true <-> (exists s, Prim2SF a = S754_zero s) \/ Prim2SF a = S754_nan.
Proof.
  unfold zeroish. destruct (Prim2SF a) as [s | s | | s m e]; split; intros H;
    try discriminate; try reflexivity; eauto;
    destruct H as [[s' H] | H]; discriminate.
Qed.

Lemma mul_zeroish_r (a b : f64) : zeroish b = true -> zeroish (a * b) = true.
Proof.
  unfold zeroish. rewrite mul_spec. unfold SF64mul.
  destruct (Prim2SF a) as [sa | sa | | sa ma ea], (Prim2SF b) as [sb | sb | | sb mb eb];
    intros H; try discriminate; reflexivity.
Qed.

Lemma mul_zeroish_l (a b : f64) : zeroish a = true -> zeroish (a * b) = true.
Proof.
  unfold zeroish. rewrite mul_spec. unfold SF64mul.
  destruct (Prim2SF a) as [sa | sa | | sa ma ea], (Prim2SF b) as [sb | sb | | sb mb eb];
    intros H; try discriminate; reflexivity.
Qed.

Lemma add_zeroish (a b : f64) : zeroish a = true -> zeroish b = true -> zeroish (a + b) = true.
Proof.
  unfold zeroish. rewrite add_spec. unfold SF64add.
  destruct (Prim2SF a) as [sa | sa | | sa ma ea], (Prim2SF b) as [sb | sb | | sb mb eb];
    intros Ha Hb; try discriminate; try reflexivity.
  destruct sa, sb; reflexivity.
Qed.

Lemma ltb_zeroish_0 (a : f64) : zeroish a = true -> (a <? 0) = false.
Proof.
  unfold zeroish. rewrite ltb_spec. change (Prim2SF 0) with (S754_zero false).
  destruct (Prim2SF a) as [sa | sa | | sa ma ea]; intros H; try discriminate; reflexivity.
Qed.

Lemma is_finite_spec (a : f64) :
  is_finite a = true ->
  (exists s, Prim2SF a = S754_zero s) \/ (exists s m e, Prim2SF a = S754_finite s m e).
Proof.
  unfold is_finite, is_nan, is_infinity. rewrite !FloatAxioms.eqb_spec, abs_spec.
  change (Prim2SF infinity) with (S754_infinity false).
  destruct (Prim2SF a) as [s | s | | s m e]; intros H.
  - left. eauto.
  - destruct s; discriminate.
  - discriminate.
  - right. eauto.
Qed.

Lemma is_zero_spec (a : f64) : is_zero a = true -> exists s, Prim2SF a = S754_zero s.
Proof.
  unfold is_zero. rewrite FloatAxioms.eqb_spec. change (Prim2SF zero) with (S754_zero false).
  destruct (Prim2SF a) as [s | s | | s m e]; intros H.
  - eauto.
  - destruct s; discriminate.
  - discriminate.
  - destruct s; discriminate.
Qed.

(** [k - k] is a zero for every [k] that is neither infinite nor NaN. *)
Lemma sub_self_zero (k : f64) : is_finite k = true -> is_zero (k - k) = true.
Proof.
  intros H. unfold is_zero. rewrite FloatAxioms.eqb_spec, sub_spec.
  change (Prim2SF zero) with (S754_zero false). unfold SF64sub.
  destruct (is_finite_spec k H) as [[s ->] | (s & m & e & ->)].
  - destruct s; reflexivity.
  - cbn [SFsub]. rewrite Z.sub_diag. reflexivity.
Qed.

(** Zero divided by zero is NaN. *)
Lemma div_zero_zero (a b : f64) : is_zero a = true -> is_zero b = true -> nonnan (a / b) = false.
Proof.
  intros Ha Hb. apply nonnan_false_spec. rewrite div_spec.
  destruct (is_zero_spec a Ha) as [sa ->], (is_zero_spec b Hb) as [sb ->]. reflexivity.
Qed.

Lemma mul_nan_l (a b : f64) : nonnan a = false -> nonnan (a * b) = false.
Proof.
  rewrite !nonnan_false_spec, mul_spec. intros ->. reflexivity.
Qed.

Lemma add_nan_r (a b : f64) : nonnan b = false -> nonnan (a + b) = false.
Proof.
  rewrite !nonnan_false_spec, add_spec. intros ->. unfold SF64add.
  now destruct (Prim2SF a).
Qed.

(** *** What [hit] reports *)

Section HitFacts.

Context {M : Type}.
Context {libm : Libm}.

(** X1: every call of [hit], on a sphere, a moving sphere, a rectangle, a
    list or a node, either answers false and leaves the record as it was,
    or answers true with a material in [rec.mat_ptr] (so the [unwrap] of
    [ray_color] has a value). *)
Theorem hit_misses_or_writes_material (h : Hittable M)
  (r : Ray) (t_min t_max : f64) (rec : HitRecord M) :
  hit h r t_min t_max rec = (false, rec) \/
  (fst (hit h r t_min t_max rec) = true /\
   exists m, mat_ptr (snd (hit h r t_min t_max rec)) = Some m).
Proof.
  destruct (hit h r t_min t_max rec) as [b rec'] eqn:E. destruct b.
  - right. split; [reflexivity |]. cbn [snd].
    pose proof (hit_hit_writes_material h r t_min t_max rec rec' E) as Hm.
    destruct (mat_ptr rec') as [m |]; [eauto | congruence].
  - left. f_equal. exact (hit_miss_keeps_record h r t_min t_max rec rec' E).
Qed.

Lemma MovingSphere_record_fields (s : MovingSphere M) (r : Ray) (x : f64) (rec : HitRecord M) :
  t (MovingSphere_record s r x rec) = x /\
  p (MovingSphere_record s r x rec) = Ray_at r x.
Proof. split; reflexivity. Qed.

Lemma Sphere_record_fields (s : Sphere M) (r : Ray) (x : f64) (rec : HitRecord M) :
  t (Sphere_record s r x rec) = x /\
  p (Sphere_record s r x rec) = Ray_at r x.
Proof. unfold Sphere_record. destruct (get_sphere_uv _). split; reflexivity. Qed.

(** X2: a hit reported by [Sphere::hit] or [MovingSphere::hit] lies strictly
    inside the interval, [t_min < rec.t < t_max], and [rec.p] is the point
    of the ray at [rec.t]. *)
Theorem sphere_hit_within (h : Hittable M) (r : Ray) (t_min t_max : f64) (rec : HitRecord M) :
  is_sphere h = true ->
  fst (hit h r t_min t_max rec) = true ->
  (t_min <? t (snd (hit h r t_min t_max rec))) = true /\
  (t (snd (hit h r t_min t_max rec)) <? t_max) = true /\
  p (snd (hit h r t_min t_max rec)) = Ray_at r (t (snd (hit h r t_min t_max rec))).
Proof.
  destruct h as [s | s | s | s | s | objects | l rt b]; try discriminate; intros _.
  - cbn [hit]. unfold Sphere_hit.
    repeat match goal with
           | |- context [if ?c then _ else _] => destruct c eqn:?
           end; cbn [fst snd]; try discriminate; intros _;
      lazymatch goal with
      | |- context [Sphere_record s r ?x rec] =>
          destruct (Sphere_record_fields s r x rec) as [Ht Hp]; rewrite Ht, Hp
      end;
      match goal with
      | H : (_ && _) = true |- _ => apply andb_true_iff in H as [? ?]
      end; auto.
  - cbn [hit]. unfold MovingSphere_hit.
    repeat match goal with
           | |- context [if ?c then _ else _] => destruct c eqn:?
           end; cbn [fst snd]; try discriminate; intros _;
      match goal with
      | H : (_ && _) = true |- _ => apply andb_true_iff in H as [? ?]
      end; auto.
Qed.

(** With the z axis or the y axis as outward normal, the free function
    [dot] multiplies the only product that is not with a zero by a zero:
    its result is a zero or NaN, never below zero. *)
Lemma dot_axis_zeroish (d : Vec3) :
  zeroish (dot d (Vec3_new 0 0 1)) = true /\ zeroish (dot d (Vec3_new 0 1 0)) = true.
Proof.
  assert (Z0 : zeroish 0 = true) by reflexivity.
  unfold dot, Vec3_new. cbn [e0 e1 e2]. split; apply add_zeroish.
  - now apply mul_zeroish_r.
  - apply mul_zeroish_l, mul_zeroish_l. now apply mul_zeroish_r.
  - now apply mul_zeroish_r.
  - now apply mul_zeroish_r.
Qed.

(** X3: [XyRect::hit] and [XzRect::hit] never report a front face.  They
    call [set_face_normal] with the axis (0, 0, 1), respectively (0, 1, 0),
    and the free function [dot] of that axis with any direction is a zero or
    NaN: every hit is marked as a back face and stores the negated axis,
    from whichever side the ray comes. *)
Theorem flat_rect_hit_back_face (h : Hittable M) (n : Vec3)
  (r : Ray) (t_min t_max : f64) (rec : HitRecord M) :
  back_normal h = Some n ->
  fst (hit h r t_min t_max rec) = true ->
  front_face (snd (hit h r t_min t_max rec)) = false /\
  normal (snd (hit h r t_min t_max rec)) = n.
Proof.
  destruct (dot_axis_zeroish (Ray_direction r)) as [Hz Hy].
  apply ltb_zeroish_0 in Hz, Hy.
  destruct h as [s | s | s | s | s | objects | l rt b]; try discriminate;
    intros E; injection E as <-; cbn [hit].
  - unfold XyRect_hit.
    repeat match goal with
           | |- context [if ?c then _ else _] => destruct c eqn:?
           end; cbn [fst snd]; try discriminate; intros _.
    unfold set_p, set_mat_ptr, set_face_normal. cbn [front_face normal].
    rewrite Hz. split; reflexivity.
  - unfold XzRect_hit.
    repeat match goal with
           | |- context [if ?c then _ else _] => destruct c eqn:?
           end; cbn [fst snd]; try discriminate; intros _.
    unfold set_p, set_mat_ptr, set_face_normal. cbn [front_face normal].
    rewrite Hy. split; reflexivity.
Qed.

(** The plane test of a rectangle with NaN for the distance to the plane:
    no comparison with NaN holds, so nothing rejects the ray. *)
Lemma rect_test_nan (t' o1 d1 o2 d2 a0 a1 b0 b1 t_min t_max : f64) :
  nonnan t' = false ->
  ((t' <? t_min) || (t' >? t_max) = false) /\
  ((o1 + t' * d1 <? a0) || (o1 + t' * d1 >? a1)
   || (o2 + t' * d2 <? b0) || (o2 + t' * d2 >? b1) = false).
Proof.
  intros H.
  pose proof (add_nan_r o1 (t' * d1) (mul_nan_l t' d1 H)) as H1.
  pose proof (add_nan_r o2 (t' * d2) (mul_nan_l t' d2 H)) as H2.
  rewrite !ltb_nan by auto. split; reflexivity.
Qed.

(** X4: a ray that lies in the plane of a rectangle is reported as a hit at
    t = NaN.  When the origin of the ray has the rectangle's offset [k] for
    its coordinate across the plane ([k] finite) and the direction has a
    zero there, the distance to the plane is 0/0; every comparison of the
    plane test is then false, and [XyRect::hit], [XzRect::hit] and
    [YzRect::hit] answer true with [rec.t] = NaN, whatever the interval and
    the extent of the rectangle. *)
Theorem rect_hit_in_plane_is_nan (h : Hittable M) (r : Ray) (k d : f64)
  (t_min t_max : f64) (rec : HitRecord M) :
  rect_offset h r = Some (k, k, d) ->
  is_finite k = true -> is_zero d = true ->
  fst (hit h r t_min t_max rec) = true /\
  nonnan (t (snd (hit h r t_min t_max rec))) = false.
Proof.
  intros E Hk Hd.
  pose proof (div_zero_zero (k - k) d (sub_self_zero k Hk) Hd) as Hnan.
  destruct h as [s | s | s | s | s | objects | l rt b]; try discriminate;
    injection E as Ek Eo Ed; cbn [hit].
  - unfold XyRect_hit. rewrite Ek, Eo, Ed.
    destruct (rect_test_nan ((k - k) / d)
                (Vec3_x (Ray_origin r)) (Vec3_x (Ray_direction r))
                (Vec3_y (Ray_origin r)) (Vec3_y (Ray_direction r))
                (XyRect_x0 s) (XyRect_x1 s) (XyRect_y0 s) (XyRect_y1 s) t_min t_max Hnan)
      as [-> ->].
    cbn [fst snd]. split; [reflexivity | exact Hnan].
  - unfold XzRect_hit. rewrite Ek, Eo, Ed.
    destruct (rect_test_nan ((k - k) / d)
                (Vec3_x (Ray_origin r)) (Vec3_x (Ray_direction r))
                (Vec3_z (Ray_origin r)) (Vec3_z (Ray_direction r))
                (XzRect_x0 s) (XzRect_x1 s) (XzRect_z0 s) (XzRect_z1 s) t_min t_max Hnan)
      as [-> ->].
    cbn [fst snd]. split; [reflexivity | exact Hnan].
  - unfold YzRect_hit. rewrite Ek, Eo, Ed.
    destruct (rect_test_nan ((k - k) / d)
                (Vec3_y (Ray_origin r)) (Vec3_y (Ray_direction r))
                (Vec3_z (Ray_origin r)) (Vec3_z (Ray_direction r))
                (YzRect_y0 s) (YzRect_y1 s) (YzRect_z0 s) (YzRect_z1 s) t_min t_max Hnan)
      as [-> ->].
    cbn [fst snd]. split; [reflexivity | exact Hnan].
Qed.

End HitFacts.

(** The diagonal ray meets the unit glass sphere inside (0.001, +infinity). *)
Lemma sphere_hit_within_witness :
  is_sphere glass_ball = true /\
  fst (@hit _ libm_at_zero glass_ball diagonal_ray 0.001 f64_INFINITY HitRecord_new) = true /\
  (0.001 <? t (snd (@hit _ libm_at_zero glass_ball diagonal_ray 0.001 f64_INFINITY
                      HitRecord_new))) = true /\
  (t (snd (@hit _ libm_at_zero glass_ball diagonal_ray 0.001 f64_INFINITY HitRecord_new))
   <? f64_INFINITY) = true /\
  p (snd (@hit _ libm_at_zero glass_ball diagonal_ray 0.001 f64_INFINITY HitRecord_new))
  = Ray_at diagonal_ray
      (t (snd (@hit _ libm_at_zero glass_ball diagonal_ray 0.001 f64_INFINITY HitRecord_new))).
Proof.
  split; [reflexivity | split; [reflexivity |]].
  apply (@sphere_hit_within _ libm_at_zero glass_ball); reflexivity.
Defined.

(** The ray from the origin down the z axis meets the light, whose plane
    z = -2 faces it, and the hit is marked as a back face. *)
Lemma flat_rect_hit_back_face_witness :
  back_normal square_light = Some (Vec3_new (-0) (-0) (-1)) /\
  fst (@hit _ libm_at_zero square_light ray_to_light 0.001 f64_INFINITY HitRecord_new) = true /\
  front_face (snd (@hit _ libm_at_zero square_light ray_to_light 0.001 f64_INFINITY
                     HitRecord_new)) = false /\
  normal (snd (@hit _ libm_at_zero square_light ray_to_light 0.001 f64_INFINITY HitRecord_new))
  = Vec3_new (-0) (-0) (-1).
Proof.
  split; [reflexivity | split; [reflexivity |]].
  apply (@flat_rect_hit_back_face _ libm_at_zero square_light); reflexivity.
Defined.

(** A ray along x in the plane z = -1 of the glass pane. *)
Lemma rect_hit_in_plane_is_nan_witness :
  rect_offset glass_pane ray_in_pane = Some (-1, -1, 0) /\
  is_finite (-1) = true /\ is_zero 0 = true /\
  fst (@hit _ libm_at_zero glass_pane ray_in_pane 0.001 f64_INFINITY HitRecord_new) = true /\
  nonnan (t (snd (@hit _ libm_at_zero glass_pane ray_in_pane 0.001 f64_INFINITY
                    HitRecord_new))) = false.
Proof.
  split; [reflexivity | split; [reflexivity | split; [reflexivity |]]].
  apply (@rect_hit_in_plane_is_nan _ libm_at_zero glass_pane ray_in_pane (-1) 0); reflexivity.
Defined.

(** *** Boxes *)

Lemma f64_min_spec (a b : f64) :
  nonnan a = true -> nonnan b = true ->
  nonnan (f64_min a b) = true /\
  (f64_min a b <=? a) = true /\ (f64_min a b <=? b) = true.
Proof.
  intros Ha Hb. unfold f64_min, is_nan. fold (nonnan a) (nonnan b). rewrite Ha, Hb. cbn [negb].
  destruct (b <? a) eqn:E; (split; [assumption |]); split; float_order.
Qed.

Lemma f64_max_spec (a b : f64) :
  nonnan a = true -> nonnan b = true ->
  nonnan (f64_max a b) = true /\
  (a <=? f64_max a b) = true /\ (b <=? f64_max a b) = true.
Proof.
  intros Ha Hb. unfold f64_max, is_nan. fold (nonnan a) (nonnan b). rewrite Ha, Hb. cbn [negb].
  destruct (a <? b) eqn:E; (split; [assumption |]); split; float_order.
Qed.

Lemma Aabb_numbers_spec (b : Aabb) :
  Aabb_numbers b = true <->
  forall a, nonnan (Vec3_at (Aabb_min b) a) = true /\ nonnan (Vec3_at (Aabb_max b) a) = true.
Proof.
  unfold Aabb_numbers. cbn [forallb]. rewrite !andb_true_iff. split.
  - intros (H0 & H1 & H2 & H3 & H4 & H5 & _) [| [| a]]; cbn [Vec3_at]; auto.
  - intros H. pose proof (H 0%nat) as [? ?]. pose proof (H 1%nat) as [? ?].
    pose proof (H 2%nat) as [? ?]. cbn [Vec3_at] in *. repeat split; assumption.
Qed.

Lemma Aabb_encloses_spec (outer inner : Aabb) :
  Aabb_encloses outer inner = true <->
  forall a, (Vec3_at (Aabb_min outer) a <=? Vec3_at (Aabb_min inner) a) = true /\
            (Vec3_at (Aabb_max inner) a <=? Vec3_at (Aabb_max outer) a) = true.
Proof.
  unfold Aabb_encloses. cbn [forallb]. rewrite !andb_true_iff. split.
  - intros ([? ?] & [? ?] & [? ?] & _) [| [| a]]; cbn [Vec3_at]; auto.
  - intros H. pose proof (H 0%nat) as [? ?]. pose proof (H 1%nat) as [? ?].
    pose proof (H 2%nat) as [? ?]. cbn [Vec3_at] in *. repeat split; assumption.
Qed.

Lemma surrounding_box_at (b0 b1 : Aabb) (a : nat) :
  Vec3_at (Aabb_min (Aabb_surrounding_box b0 b1)) a
  = f64_min (Vec3_at (Aabb_min b0) a) (Vec3_at (Aabb_min b1) a) /\
  Vec3_at (Aabb_max (Aabb_surrounding_box b0 b1)) a
  = f64_max (Vec3_at (Aabb_max b0) a) (Vec3_at (Aabb_max b1) a).
Proof. destruct a as [| [| a]]; split; reflexivity. Qed.

(** The surrounding box of two boxes of numbers is a box of numbers that
    encloses both. *)
Lemma surrounding_box_covers (b0 b1 : Aabb) :
  Aabb_numbers b0 = true -> Aabb_numbers b1 = true ->
  Aabb_numbers (Aabb_surrounding_box b0 b1) = true /\
  Aabb_encloses (Aabb_surrounding_box b0 b1) b0 = true /\
  Aabb_encloses (Aabb_surrounding_box b0 b1) b1 = true.
Proof.
  rewrite !Aabb_numbers_spec, !Aabb_encloses_spec. intros H0 H1.
  assert (H : forall a,
    (nonnan (Vec3_at (Aabb_min (Aabb_surrounding_box b0 b1)) a) = true /\
     nonnan (Vec3_at (Aabb_max (Aabb_surrounding_box b0 b1)) a) = true) /\
    ((Vec3_at (Aabb_min (Aabb_surrounding_box b0 b1)) a <=? Vec3_at (Aabb_min b0) a) = true /\
     (Vec3_at (Aabb_max b0) a <=? Vec3_at (Aabb_max (Aabb_surrounding_box b0 b1)) a) = true) /\
    ((Vec3_at (Aabb_min (Aabb_surrounding_box b0 b1)) a <=? Vec3_at (Aabb_min b1) a) = true /\
     (Vec3_at (Aabb_max b1) a <=? Vec3_at (Aabb_max (Aabb_surrounding_box b0 b1)) a) = true)).
  { intros a. destruct (surrounding_box_at b0 b1 a) as [-> ->].
    destruct (H0 a) as [M0 X0], (H1 a) as [M1 X1].
    destruct (f64_min_spec _ _ M0 M1) as (? & ? & ?).
    destruct (f64_max_spec _ _ X0 X1) as (? & ? & ?). auto. }
  repeat split; apply H.
Qed.

Lemma f64_min_either (a b : f64) :
  nonnan a = true -> nonnan b = true -> f64_min a b = a \/ f64_min a b = b.
Proof.
  intros Ha Hb. unfold f64_min, is_nan. fold (nonnan a) (nonnan b). rewrite Ha, Hb. cbn [negb].
  destruct (b <? a); auto.
Qed.

Lemma f64_max_either (a b : f64) :
  nonnan a = true -> nonnan b = true -> f64_max a b = a \/ f64_max a b = b.
Proof.
  intros Ha Hb. unfold f64_max, is_nan. fold (nonnan a) (nonnan b). rewrite Ha, Hb. cbn [negb].
  destruct (a <? b); auto.
Qed.

(** X5: [Aabb::surrounding_box] of two boxes whose coordinates are numbers
    is the least box around both: it is a box of numbers, on every axis its
    minimum is at most the minimum of each box and its maximum at least the
    maximum of each, and every box that encloses the two encloses it. *)
Theorem surrounding_box_encloses (b0 b1 : Aabb) :
  Aabb_numbers b0 = true -> Aabb_numbers b1 = true ->
  Aabb_numbers (Aabb_surrounding_box b0 b1) = true /\
  Aabb_encloses (Aabb_surrounding_box b0 b1) b0 = true /\
  Aabb_encloses (Aabb_surrounding_box b0 b1) b1 = true /\
  forall outer : Aabb,
    Aabb_encloses outer b0 = true -> Aabb_encloses outer b1 = true ->
    Aabb_encloses outer (Aabb_surrounding_box b0 b1) = true.
Proof.
  intros H0 H1. destruct (surrounding_box_covers b0 b1 H0 H1) as (Sn & S0 & S1).
  split; [exact Sn | split; [exact S0 | split; [exact S1 |]]].
  intros outer. rewrite !Aabb_encloses_spec. intros E0 E1 a.
  rewrite Aabb_numbers_spec in H0, H1.
  destruct (surrounding_box_at b0 b1 a) as [-> ->].
  destruct (H0 a) as [M0 X0], (H1 a) as [M1 X1], (E0 a) as [L0 U0], (E1 a) as [L1 U1].
  split.
  - destruct (f64_min_either _ _ M0 M1) as [-> | ->]; assumption.
  - destruct (f64_max_either _ _ X0 X1) as [-> | ->]; assumption.
Qed.

(** The unit box and a box that overlaps it. *)
Lemma surrounding_box_encloses_witness :
  Aabb_numbers unit_box = true /\ Aabb_numbers offset_box = true /\
  Aabb_numbers (Aabb_surrounding_box unit_box offset_box) = true /\
  Aabb_encloses (Aabb_surrounding_box unit_box offset_box) unit_box = true /\
  Aabb_encloses (Aabb_surrounding_box unit_box offset_box) offset_box = true.
Proof.
  split; [reflexivity | split; [reflexivity |]].
  destruct (surrounding_box_encloses unit_box offset_box eq_refl eq_refl) as (Sn & S0 & S1 & _).
  split; [exact Sn | split; [exact S0 | exact S1]].
Defined.

Lemma leb_nonnan (a b : f64) : (a <=? b) = true -> nonnan a = true /\ nonnan b = true.
Proof.
  intros H. destruct (nonnan a) eqn:Ha; [destruct (nonnan b) eqn:Hb; [auto |] |];
    rewrite leb_nan in H by auto; discriminate.
Qed.

(** With [t_max <= t_min] the bounds a slab tightens are still in that
    order. *)
Lemma slab_rejects_empty (t0 t1 t_min t_max : f64) :
  (t_max <=? t_min) = true ->
  ((if t1 <? t_max then t1 else t_max) <=? (if t0 >? t_min then t0 else t_min)) = true.
Proof.
  intros H. pose proof (leb_nonnan _ _ H) as [Hmax Hmin].
  destruct (t1 <? t_max) eqn:E1, (t_min <? t0) eqn:E0; float_order.
Qed.

Section EmptyInterval.

Context {M : Type}.
Context {libm : Libm}.

(** X6: on an interval with [t_max <= t_min] the optimized [Aabb::hit]
    answers false for every box and ray (the first axis already rejects),
    and so [BvhNode::hit] reports no hit and leaves the record as it was,
    whatever the node's children are. *)
Theorem Aabb_hit_rejects_empty_interval (b : Aabb) (r : Ray) (t_min t_max : f64) :
  (t_max <=? t_min) = true ->
  Aabb_hit b r t_min t_max = false /\
  forall (l rt : Hittable M) (rec : HitRecord M),
    hit (HBvhNode l rt b) r t_min t_max rec = (false, rec).
Proof.
  intros H.
  assert (E : Aabb_hit b r t_min t_max = false).
  { unfold Aabb_hit. cbn [forallb]. unfold Aabb_hit_rejects at 1.
    destruct (if 1 / Vec3_at (Ray_direction r) 0 <? 0 then _ else _) as [t0 t1].
    rewrite (slab_rejects_empty t0 t1 t_min t_max H). reflexivity. }
  split; [exact E |].
  intros l rt rec. cbn [hit]. unfold BvhNode_hit. rewrite E. reflexivity.
Qed.

End EmptyInterval.

(** The interval from 1 to 1, the unit box and the ray down the z axis. *)
Lemma Aabb_hit_rejects_empty_interval_witness :
  (1 <=? 1) = true /\
  Aabb_hit unit_box ray_down_z 1 1 = false /\
  forall (l rt : Hittable DynMaterial) (rec : HitRecord DynMaterial),
    @hit _ libm_at_zero (HBvhNode l rt unit_box) ray_down_z 1 1 rec = (false, rec).
Proof.
  split; [reflexivity |].
  apply (@Aabb_hit_rejects_empty_interval DynMaterial libm_at_zero). reflexivity.
Defined.

(** *** The box of a list *)

Lemma Aabb_encloses_refl (b : Aabb) : Aabb_numbers b = true -> Aabb_encloses b b = true.
Proof.
  rewrite Aabb_numbers_spec, Aabb_encloses_spec. intros H a. destruct (H a) as [? ?].
  split; float_order.
Qed.

Lemma Aabb_encloses_trans (b0 b1 b2 : Aabb) :
  Aabb_encloses b0 b1 = true -> Aabb_encloses b1 b2 = true -> Aabb_encloses b0 b2 = true.
Proof.
  rewrite !Aabb_encloses_spec. intros H01 H12 a.
  destruct (H01 a) as [L1 U1], (H12 a) as [L2 U2].
  pose proof (leb_nonnan _ _ L1) as [? ?]. pose proof (leb_nonnan _ _ L2) as [? ?].
  pose proof (leb_nonnan _ _ U1) as [? ?]. pose proof (leb_nonnan _ _ U2) as [? ?].
  split; float_order.
Qed.

Section ListBox.

Context {M : Type}.
Context {libm : Libm}.

Variables time0 time1 : f64.

Lemma list_box_loop_succeeds (objects : list (Hittable M)) (first_box : bool) (output_box : Aabb) :
  fst (HittableList_bounding_box_loop bounding_box objects time0 time1 first_box output_box)
  = true <-> Forall (fun o => fst (bounding_box o time0 time1 Aabb_zero) = true) objects.
Proof.
  revert first_box output_box.
  induction objects as [| o rest IH]; intros first_box output_box;
    cbn [HittableList_bounding_box_loop].
  - split; [constructor | reflexivity].
  - destruct (bounding_box o time0 time1 Aabb_zero) as [ok temp_box] eqn:E.
    destruct ok; cbn [negb fst].
    + rewrite IH. split; [intros H; constructor; [now rewrite E | exact H] |].
      intros H. now inversion H.
    + split; [discriminate |]. intros H. inversion H as [| ? ? Ho _].
      rewrite E in Ho. discriminate.
Qed.

(** X7: [HittableList::bounding_box] answers true exactly when the list is
    not empty and every object of it answers true for its own box (asked
    with the zero box, as the loop does); an empty list has no box. *)
Theorem HittableList_bounding_box_succeeds (objects : list (Hittable M)) (output_box : Aabb) :
  fst (bounding_box (HHittableList objects) time0 time1 output_box) = true <->
  objects <> [] /\
  Forall (fun o => fst (bounding_box o time0 time1 Aabb_zero) = true) objects.
Proof.
  cbn [bounding_box]. unfold HittableList_bounding_box.
  destruct objects as [| o rest].
  - cbn [fst]. split; [discriminate | intros [H _]; congruence].
  - rewrite list_box_loop_succeeds. split; [intros H; split; [discriminate | exact H] | tauto].
Qed.

Lemma list_box_loop_encloses (objects : list (Hittable M)) (output_box : Aabb) :
  Aabb_numbers output_box = true ->
  Forall (fun o => fst (bounding_box o time0 time1 Aabb_zero) = true) objects ->
  Forall (fun o => Aabb_numbers (snd (bounding_box o time0 time1 Aabb_zero)) = true) objects ->
  let res :=
    snd (HittableList_bounding_box_loop bounding_box objects time0 time1 false output_box) in
  Aabb_numbers res = true /\ Aabb_encloses res output_box = true /\
  Forall (fun o => Aabb_encloses res (snd (bounding_box o time0 time1 Aabb_zero)) = true)
    objects.
Proof.
  revert output_box.
  induction objects as [| o rest IH]; intros output_box Hout Hb Hn; cbv zeta;
    cbn [HittableList_bounding_box_loop].
  - cbn [snd]. split; [exact Hout | split; [now apply Aabb_encloses_refl | constructor]].
  - inversion Hb as [| ? ? Ho Hrest]. inversion Hn as [| ? ? Hno Hnrest]. subst.
    destruct (bounding_box o time0 time1 Aabb_zero) as [ok temp_box] eqn:E.
    cbn [fst snd] in Ho, Hno. subst ok. cbn [negb].
    destruct (surrounding_box_covers output_box temp_box Hout Hno) as (Sn & S0 & S1).
    destruct (IH (Aabb_surrounding_box output_box temp_box) Sn Hrest Hnrest) as (Rn & Re & Rall).
    cbv zeta in Rn, Re, Rall.
    split; [exact Rn | split].
    + eapply Aabb_encloses_trans; eauto.
    + constructor; [| exact Rall]. rewrite E. cbn [snd].
      eapply Aabb_encloses_trans; eauto.
Qed.

(** X8: when every object of a list has a box whose coordinates are numbers,
    the box [HittableList::bounding_box] writes is a box of numbers that
    encloses the box of every object of the list. *)
Theorem HittableList_bounding_box_encloses (objects : list (Hittable M)) (output_box : Aabb) :
  objects <> [] ->
  Forall (fun o => fst (bounding_box o time0 time1 Aabb_zero) = true) objects ->
  Forall (fun o => Aabb_numbers (snd (bounding_box o time0 time1 Aabb_zero)) = true) objects ->
  fst (bounding_box (HHittableList objects) time0 time1 output_box) = true /\
  Aabb_numbers (snd (bounding_box (HHittableList objects) time0 time1 output_box)) = true /\
  Forall (fun o =>
            Aabb_encloses (snd (bounding_box (HHittableList objects) time0 time1 output_box))
              (snd (bounding_box o time0 time1 Aabb_zero)) = true) objects.
Proof.
  intros Hne Hb Hn.
  cbn [bounding_box]. unfold HittableList_bounding_box.
  destruct objects as [| o rest]; [congruence |].
  split; [apply list_box_loop_succeeds; exact Hb |].
  cbn [HittableList_bounding_box_loop].
  inversion Hb as [| ? ? Ho Hrest]. inversion Hn as [| ? ? Hno Hnrest]. subst.
  destruct (bounding_box o time0 time1 Aabb_zero) as [ok temp_box] eqn:E.
  cbn [fst snd] in Ho, Hno. subst ok. cbn [negb].
  destruct (list_box_loop_encloses rest temp_box Hno Hrest Hnrest) as (Rn & Re & Rall).
  cbv zeta in Rn, Re, Rall. cbn [snd].
  split; [exact Rn |]. constructor; [rewrite E; exact Re | exact Rall].
Qed.

End ListBox.

(** The three objects on the z axis: the sphere, the pane and the light all
    have boxes of numbers, and the box of the list reaches around them. *)
Lemma HittableList_bounding_box_encloses_witness :
  three_objects <> [] /\
  Forall (fun o => fst (bounding_box o 0 1 Aabb_zero) = true) three_objects /\
  Forall (fun o => Aabb_numbers (snd (bounding_box o 0 1 Aabb_zero)) = true) three_objects /\
  fst (bounding_box (HHittableList three_objects) 0 1 Aabb_zero) = true /\
  Aabb_numbers (snd (bounding_box (HHittableList three_objects) 0 1 Aabb_zero)) = true /\
  Forall (fun o =>
            Aabb_encloses (snd (bounding_box (HHittableList three_objects) 0 1 Aabb_zero))
              (snd (bounding_box o 0 1 Aabb_zero)) = true) three_objects.
Proof.
  assert (H1 : three_objects <> []) by discriminate.
  assert (H2 : Forall (fun o : Hittable DynMaterial => fst (bounding_box o 0 1 Aabb_zero) = true)
                 three_objects) by (repeat constructor).
  assert (H3 : Forall (fun o : Hittable DynMaterial =>
                         Aabb_numbers (snd (bounding_box o 0 1 Aabb_zero)) = true)
                 three_objects) by (repeat constructor).
  split; [exact H1 | split; [exact H2 | split; [exact H3 |]]].
  exact (HittableList_bounding_box_encloses 0 1 three_objects Aabb_zero H1 H2 H3).
Defined.

(** *** [box_compare] and [BvhNode::new] *)

Section Comparators.

Context {M : Type}.
Context {libm : Libm}.

(** X9: [box_compare] indexes the minimum of the two boxes with the axis
    and panics on an axis from 3 on (the index of [Vec3] is out of bounds);
    on the axes 0, 1 and 2 it orders the two objects by the minimum of
    their boxes on the axis, and panics exactly when one of the two minima
    is NaN (the [unwrap] of [partial_cmp]).  The first object is taken to
    answer true for its box: the second is not asked otherwise. *)
Theorem box_compare_orders (a b : Hittable M) (axis : nat) :
  fst (bounding_box a 0 0 Aabb_zero) = true ->
  let x := Vec3_at (Aabb_min (snd (bounding_box a 0 0 Aabb_zero))) axis in
  let y := Vec3_at (Aabb_min (snd (bounding_box b 0 0 Aabb_zero))) axis in
  ((3 <= axis)%nat -> box_compare a b axis = Panic) /\
  ((axis < 3)%nat ->
   (box_compare a b axis = Panic <-> nonnan x = false \/ nonnan y = false) /\
   (box_compare a b axis = Ok Lt <-> (x <? y) = true) /\
   (box_compare a b axis = Ok Eq <-> (x =? y) = true) /\
   (box_compare a b axis = Ok Gt <-> (y <? x) = true)).
Proof.
  intros Ha. cbv zeta. unfold box_compare.
  destruct (bounding_box a 0 0 Aabb_zero) as [ok_a box_a]. cbn [fst snd] in *. subst ok_a.
  split.
  { intros Hax. destruct axis as [| [| [| axis]]]; [lia .. |]. reflexivity. }
  intros Hax. rewrite !Vec3_index_at by exact Hax. cbn [unwrap bind].
  set (x := Vec3_at (Aabb_min box_a) axis).
  set (y := Vec3_at (Aabb_min (snd (bounding_box b 0 0 Aabb_zero))) axis).
  unfold f64_partial_cmp.
  destruct (nonnan x) eqn:Nx; [destruct (nonnan y) eqn:Ny |].
  - destruct (x <? y) eqn:E1; [| destruct (x =? y) eqn:E2; [| destruct (y <? x) eqn:E3]];
      cbn [unwrap]; repeat split; intros H;
      try discriminate; try reflexivity; try (destruct H; discriminate);
      exfalso; float_order.
  - rewrite !(ltb_nan x y), (eqb_nan x y), (ltb_nan y x) by auto. cbn [unwrap].
    repeat split; intros H; try discriminate; auto.
  - rewrite !(ltb_nan x y), (eqb_nan x y), (ltb_nan y x) by auto. cbn [unwrap].
    repeat split; intros H; try discriminate; auto.
Qed.

End Comparators.

(** The sphere at z = -3 against the pane at z = -1, along z: the sphere's
    box starts at -3.5, the pane's at -1.0001; and there is no axis 3. *)
Lemma box_compare_orders_witness :
  fst (bounding_box far_sphere 0 0 Aabb_zero) = true /\
  (2 < 3)%nat /\
  (box_compare far_sphere glass_pane 2 = Ok Lt <->
   (Vec3_at (Aabb_min (snd (bounding_box far_sphere 0 0 Aabb_zero))) 2
    <? Vec3_at (Aabb_min (snd (bounding_box glass_pane 0 0 Aabb_zero))) 2) = true) /\
  box_compare far_sphere glass_pane 2 = Ok Lt /\
  box_compare far_sphere glass_pane 3 = Panic.
Proof.
  split; [reflexivity |]. split; [lia |]. split; [| split; reflexivity].
  exact (proj1 (proj2 (proj2 (@box_compare_orders DynMaterial far_sphere glass_pane 2 eq_refl)
                         ltac:(lia)))).
Defined.

Section Slices.

Context {M : Type}.
Context {libm : Libm}.

(** X10: [BvhNode::new] on the slice [start..end] of a vector, not empty,
    with fuel for its length and objects [box_compare] can order: it
    returns, it permutes the objects of the slice among themselves, and
    it leaves every object outside the slice where it was. *)
Theorem BvhNode_new_keeps_the_rest (fuel : nat) (objects : list (Hittable M))
  (start end_ : nat) (time0 time1 : f64) (g : Rng) :
  (start < end_ <= List.length objects)%nat ->
  (end_ - start <= fuel)%nat ->
  forallb comparable (firstn (end_ - start) (skipn start objects)) = true ->
  exists node objects' g',
    BvhNode_new fuel objects start end_ time0 time1 g = Ok (node, objects', g') /\
    firstn start objects' = firstn start objects /\
    skipn end_ objects' = skipn end_ objects /\
    Permutation (firstn (end_ - start) (skipn start objects))
                (firstn (end_ - start) (skipn start objects')).
Proof.
  intros Hse Hfuel Hcmp.
  set (pre := firstn start objects).
  set (mid := firstn (end_ - start) (skipn start objects)) in *.
  set (post := skipn end_ objects).
  assert (Lpre : List.length pre = start) by (unfold pre; rewrite length_firstn; lia).
  assert (Lmid : List.length mid = (end_ - start)%nat)
    by (unfold mid; rewrite length_firstn, length_skipn; lia).
  assert (Esplit : objects = pre ++ mid ++ post).
  { unfold pre, mid, post.
    rewrite <- (firstn_skipn start objects) at 1. f_equal.
    rewrite <- (firstn_skipn (end_ - start) (skipn start objects)) at 1. f_equal.
    rewrite skipn_skipn. f_equal. lia. }
  destruct (BvhNode_new_slice fuel pre mid post time0 time1 g) as
    (node & mid' & g' & E & P & _).
  { intros E. rewrite E in Lmid. cbn [List.length] in Lmid. lia. }
  { lia. }
  { exact Hcmp. }
  rewrite Lpre, Lmid in E. replace (start + (end_ - start))%nat with end_ in E by lia.
  rewrite <- Esplit in E.
  exists node, (pre ++ mid' ++ post), g'. split; [exact E |].
  pose proof (Permutation_length P) as Lmid'.
  split; [| split].
  - rewrite firstn_app, <- Lpre, Nat.sub_diag, firstn_all, firstn_O, app_nil_r. reflexivity.
  - replace end_ with (List.length (pre ++ mid')) at 1
      by (rewrite length_app; lia).
    rewrite app_assoc, skipn_app, Nat.sub_diag, skipn_all, skipn_O. reflexivity.
  - replace (skipn start (pre ++ mid' ++ post)) with (mid' ++ post).
    2:{ rewrite <- Lpre at 1. rewrite skipn_app, Nat.sub_diag, skipn_all, skipn_O. reflexivity. }
    rewrite firstn_app. replace (end_ - start - List.length mid')%nat with 0%nat by lia.
    rewrite firstn_O, app_nil_r, firstn_all2 by lia. exact P.
Qed.

Lemma surrounding_box_same (b : Aabb) : Aabb_surrounding_box b b = b.
Proof.
  assert (Hmin : forall a, f64_min a a = a).
  { intros a. unfold f64_min. destruct (is_nan a); [reflexivity |].
    destruct (a <? a); reflexivity. }
  assert (Hmax : forall a, f64_max a a = a).
  { intros a. unfold f64_max. destruct (is_nan a); [reflexivity |].
    destruct (a <? a); reflexivity. }
  destruct b as [[x0 y0 z0] [x1 y1 z1]].
  unfold Aabb_surrounding_box, Aabb_new, Vec3_new, Aabb_min, Aabb_max, Vec3_x, Vec3_y, Vec3_z.
  cbn [minimum maximum e0 e1 e2]. now rewrite !Hmin, !Hmax.
Qed.

(** X11: the node [BvhNode::new] builds over a single object that has a box:
    both children are that object, the box of the node is the object's own
    box, coordinate for coordinate, the vector is left as it was and one
    random number is drawn (the axis, which is not used). *)
Theorem BvhNode_new_single (fuel : nat) (o : Hittable M) (time0 time1 : f64) (g : Rng) :
  fst (bounding_box o time0 time1 Aabb_zero) = true ->
  BvhNode_new (S fuel) [o] 0 1 time0 time1 g
  = Ok (HBvhNode o o (snd (bounding_box o time0 time1 Aabb_zero)), [o], Rng_advance g).
Proof.
  intros Hb. cbn [BvhNode_new]. unfold random_usize_in_range.
  cbn [Nat.leb bind Nat.sub Nat.add].
  pose proof (Nat.mod_upper_bound (usize_draws g (pos g)) 3 ltac:(lia)) as Hk.
  destruct (bounding_box o time0 time1 Aabb_zero) as [ok bb] eqn:E.
  cbn [fst snd] in *. subst ok.
  destruct (usize_draws g (pos g) mod 3)%nat as [| [| [| k]]]; [| | | lia];
    cbn; rewrite E; cbn; now rewrite surrounding_box_same.
Qed.

End Slices.

(** The last two of the three objects, built into a node of their own. *)
Lemma BvhNode_new_keeps_the_rest_witness :
  (1 < 3 <= List.length three_objects)%nat /\
  (3 - 1 <= 2)%nat /\
  forallb comparable (firstn (3 - 1) (skipn 1 three_objects)) = true /\
  exists node objects' g',
    BvhNode_new 2 three_objects 1 3 0 1 axis_rng = Ok (node, objects', g') /\
    firstn 1 objects' = firstn 1 three_objects /\
    skipn 3 objects' = skipn 3 three_objects /\
    Permutation (firstn (3 - 1) (skipn 1 three_objects)) (firstn (3 - 1) (skipn 1 objects')).
Proof.
  assert (H1 : (1 < 3 <= List.length three_objects)%nat) by (cbn; lia).
  assert (H2 : (3 - 1 <= 2)%nat) by lia.
  assert (H3 : forallb comparable (firstn (3 - 1) (skipn 1 three_objects)) = true)
    by reflexivity.
  split; [exact H1 | split; [exact H2 | split; [exact H3 |]]].
  exact (@BvhNode_new_keeps_the_rest DynMaterial 2 three_objects 1 3 0 1 axis_rng H1 H2 H3).
Defined.

(** The node over the far sphere alone. *)
Lemma BvhNode_new_single_witness :
  fst (bounding_box far_sphere 0 1 Aabb_zero) = true /\
  BvhNode_new 1 [far_sphere] 0 1 0 1 axis_rng
  = Ok (HBvhNode far_sphere far_sphere (snd (bounding_box far_sphere 0 1 Aabb_zero)),
        [far_sphere], Rng_advance axis_rng).
Proof.
  split; [reflexivity |].
  exact (@BvhNode_new_single DynMaterial 0 far_sphere 0 1 axis_rng eq_refl).
Defined.

(** *** The linear scan reports the nearest *)

Section ListNearest.

Context {M : Type}.
Context {libm : Libm}.

(** X12: on a ray regular for a list (the roots of its spheres in order, the
    distance to the plane of each rectangle a number) and for a bound that
    is a number, [HittableList::hit] reports a hit whenever one of its
    objects, asked alone with the same interval, reports one, and the [t] it
    reports is not beyond the [t] of that object. *)
Theorem HittableList_hit_is_nearest (objects : list (Hittable M)) (o : Hittable M)
  (r : Ray) (t_min t_max : f64) (rec rec_o : HitRecord M) :
  regular r t_min (HHittableList objects) ->
  nonnan t_max = true ->
  In o objects ->
  fst (hit o r t_min t_max rec_o) = true ->
  fst (hit (HHittableList objects) r t_min t_max rec) = true /\
  (t (snd (hit o r t_min t_max rec_o))
   <? t (snd (hit (HHittableList objects) r t_min t_max rec))) = false.
Proof.
  intros Hreg Ht Hin Hhit.
  pose proof (proj1 (regular_list r t_min objects) Hreg) as Hall.
  rewrite Forall_forall in Hall.
  destruct (regular_answers r t_min o (Hall o Hin)) as [Vo Ao].
  destruct (regular_answers r t_min (HHittableList objects) Hreg) as [Vl Al].
  destruct (Ao t_max rec_o Ht) as (Eo & No & _).
  destruct (Al t_max rec Ht) as (El & Nl & _).
  rewrite Hhit in Eo. specialize (No Hhit).
  destruct No as [(c & Hc & Hacc & Heq) _].
  assert (Hcl : In c (candidates r t_min (HHittableList objects))).
  { cbn [candidates]. apply in_flat_map. eauto. }
  assert (Ex : existsb (accepts t_max) (candidates r t_min (HHittableList objects)) = true).
  { apply existsb_exists. eauto. }
  rewrite Ex in El. split; [exact El |].
  specialize (Nl El). pose proof (nearest_nonnan _ _ _ Nl) as Hn.
  destruct Nl as [_ Hlow]. specialize (Hlow c Hcl).
  pose proof (valid_candidates_In _ _ Vl Hcl). float_order.
Qed.

End ListNearest.

(** The list of the three objects on the z axis reports the pane at t = 2,
    before the light, which alone reports t = 3. *)
Lemma HittableList_hit_is_nearest_witness :
  @regular _ libm_at_zero ray_down_z 0.001 (HHittableList three_objects) /\
  nonnan f64_INFINITY = true /\
  In square_light three_objects /\
  fst (@hit _ libm_at_zero square_light ray_down_z 0.001 f64_INFINITY HitRecord_new) = true /\
  fst (@hit _ libm_at_zero (HHittableList three_objects) ray_down_z 0.001 f64_INFINITY
         HitRecord_new) = true /\
  (t (snd (@hit _ libm_at_zero square_light ray_down_z 0.001 f64_INFINITY HitRecord_new))
   <? t (snd (@hit _ libm_at_zero (HHittableList three_objects) ray_down_z 0.001 f64_INFINITY
                HitRecord_new))) = false.
Proof.
  assert (H1 : @regular _ libm_at_zero ray_down_z 0.001 (HHittableList three_objects))
    by (vm_compute; auto).
  assert (H2 : In square_light three_objects) by (cbn; auto).
  split; [exact H1 | split; [reflexivity | split; [exact H2 | split; [reflexivity |]]]].
  exact (@HittableList_hit_is_nearest _ libm_at_zero three_objects square_light ray_down_z
           0.001 f64_INFINITY HitRecord_new HitRecord_new H1 eq_refl H2 eq_refl).
Defined.

(** *** Rejection sampling *)

Lemma Rng_at_0 (g : Rng) : Rng_at g 0 = g.
Proof. destruct g. unfold Rng_at. simpl. now rewrite Nat.add_0_r. Qed.

Lemma Rng_at_at (g : Rng) (j k : nat) : Rng_at (Rng_at g j) k = Rng_at g (j + k).
Proof. unfold Rng_at. simpl. now rewrite Nat.add_assoc. Qed.

Lemma Vec3_random_in_range_advances (min max : f64) (g : Rng) :
  snd (Vec3_random_in_range min max g) = Rng_at g 3.
Proof.
  unfold Vec3_random_in_range, random_in_range, random, Rng_advance, Rng_at.
  simpl. f_equal. lia.
Qed.

Lemma cube_sample_shift (g : Rng) (n : nat) :
  cube_sample (Rng_at g 3) n = cube_sample g (S n).
Proof.
  unfold cube_sample. rewrite Rng_at_at.
  replace (3 + 3 * n)%nat with (3 * S n)%nat by lia. reflexivity.
Qed.

(** X13: what [Vec3::random_in_unit_sphere] comes to.  When it returns, it
    returns the first vector of its rounds that has [length_squared() < 1.0],
    having drawn three numbers for it and three for each vector it rejected
    before; it does not return while every vector is rejected; it never
    panics. *)
Theorem random_in_unit_sphere_spec (fuel : nat) :
  forall g : Rng,
    match Vec3_random_in_unit_sphere fuel g with
    | Ok (p, g') =>
        exists n, (n < fuel)%nat /\ p = cube_sample g n /\ g' = Rng_at g (3 * S n) /\
                  (Vec3_length_squared (cube_sample g n) <? 1) = true /\
                  forall m, (m < n)%nat ->
                            (Vec3_length_squared (cube_sample g m) <? 1) = false
    | OutOfFuel =>
        forall m, (m < fuel)%nat -> (Vec3_length_squared (cube_sample g m) <? 1) = false
    | Panic => False
    end.
Proof.
  induction fuel as [| fuel IH]; intros g; cbn [Vec3_random_in_unit_sphere].
  - intros m Hm. lia.
  - pose proof (Vec3_random_in_range_advances (-1) 1 g) as Hadv.
    assert (H0 : cube_sample g 0 = fst (Vec3_random_in_range (-1) 1 g))
      by (unfold cube_sample; now rewrite Rng_at_0).
    destruct (Vec3_random_in_range (-1) 1 g) as [p g1]. cbn [fst snd] in *. subst g1 p.
    destruct (Vec3_length_squared (cube_sample g 0) <? 1) eqn:E.
    + exists 0%nat. repeat split; auto; try lia.
    + specialize (IH (Rng_at g 3)).
      destruct (Vec3_random_in_unit_sphere fuel (Rng_at g 3)) as [[p g'] | |].
      * destruct IH as (n & Hn & Hp & Hg & Hacc & Hrej). exists (S n).
        rewrite cube_sample_shift in Hp, Hacc. rewrite Rng_at_at in Hg.
        replace (3 + 3 * S n)%nat with (3 * S (S n))%nat in Hg by lia.
        repeat split; auto; try lia.
        intros [| m] Hm; [exact E |]. rewrite <- cube_sample_shift. apply Hrej. lia.
      * exact IH.
      * intros [| m] Hm; [exact E |]. rewrite <- cube_sample_shift. apply IH. lia.
Qed.

Lemma is_finite_false_spec (a : f64) :
  is_finite a = false -> Prim2SF a = S754_nan \/ exists s, Prim2SF a = S754_infinity s.
Proof.
  unfold is_finite, is_nan, is_infinity. fold (nonnan a).
  destruct (nonnan a) eqn:N; [| intros _; left; now apply nan_spec].
  cbn [negb orb]. rewrite FloatAxioms.eqb_spec, abs_spec.
  change (Prim2SF infinity) with (S754_infinity false).
  destruct (Prim2SF a) as [s | s | | s m e]; intros H; try discriminate; eauto.
Qed.

Lemma sq_overflowed (a : f64) : is_finite a = false -> overflowed (a * a) = true.
Proof.
  intros H. unfold overflowed. rewrite mul_spec.
  destruct (is_finite_false_spec a H) as [-> | [s ->]]; [reflexivity |].
  destruct s; reflexivity.
Qed.

Lemma add_overflowed_l (a b : f64) : overflowed a = true -> overflowed (a + b) = true.
Proof.
  unfold overflowed. rewrite add_spec. unfold SF64add.
  destruct (Prim2SF a) as [sa | [|] | | sa ma ea]; intros H; try discriminate;
    destruct (Prim2SF b) as [sb | [|] | | sb mb eb]; reflexivity.
Qed.

Lemma add_overflowed_r (a b : f64) : overflowed b = true -> overflowed (a + b) = true.
Proof.
  unfold overflowed. rewrite add_spec. unfold SF64add.
  destruct (Prim2SF b) as [sb | [|] | | sb mb eb]; intros H; try discriminate;
    destruct (Prim2SF a) as [sa | [|] | | sa ma ea]; reflexivity.
Qed.

Lemma ltb_overflowed (a : f64) : overflowed a = true -> (a <? 1) = false.
Proof.
  unfold overflowed. rewrite ltb_spec.
  change (Prim2SF 1) with (S754_finite false 4503599627370496 (-52)).
  destruct (Prim2SF a) as [sa | [|] | | sa ma ea]; intros H; try discriminate; reflexivity.
Qed.

(** A vector with [length_squared() < 1.0] has three finite coordinates. *)
Lemma length_squared_below_1_finite (v : Vec3) :
  (Vec3_length_squared v <? 1) = true ->
  is_finite (e0 v) = true /\ is_finite (e1 v) = true /\ is_finite (e2 v) = true.
Proof.
  unfold Vec3_length_squared. intros H.
  repeat split.
  - destruct (is_finite (e0 v)) eqn:F; [reflexivity | exfalso].
    rewrite ltb_overflowed in H; [discriminate |].
    apply add_overflowed_l, add_overflowed_l. now apply sq_overflowed.
  - destruct (is_finite (e1 v)) eqn:F; [reflexivity | exfalso].
    rewrite ltb_overflowed in H; [discriminate |].
    apply add_overflowed_l, add_overflowed_r. now apply sq_overflowed.
  - destruct (is_finite (e2 v)) eqn:F; [reflexivity | exfalso].
    rewrite ltb_overflowed in H; [discriminate |].
    apply add_overflowed_r. now apply sq_overflowed.
Qed.

Lemma random_in_unit_sphere_accepted (fuel : nat) (g g' : Rng) (p : Vec3) :
  Vec3_random_in_unit_sphere fuel g = Ok (p, g') -> (Vec3_length_squared p <? 1) = true.
Proof.
  revert g. induction fuel as [| fuel IH]; intros g; cbn [Vec3_random_in_unit_sphere];
    [discriminate |].
  destruct (Vec3_random_in_range (-1) 1 g) as [q g1].
  destruct (Vec3_length_squared q <? 1) eqn:E; [| apply IH].
  intros H. injection H as <- _. exact E.
Qed.

(** X14: the vector [Vec3::random_in_unit_sphere] returns has
    [length_squared() < 1.0] and three finite coordinates, whatever numbers
    the generator hands out (out of range, infinite or NaN included). *)
Theorem random_in_unit_sphere_finite (fuel : nat) (g g' : Rng) (p : Vec3) :
  Vec3_random_in_unit_sphere fuel g = Ok (p, g') ->
  (Vec3_length_squared p <? 1) = true /\
  is_finite (e0 p) = true /\ is_finite (e1 p) = true /\ is_finite (e2 p) = true.
Proof.
  intros E. pose proof (random_in_unit_sphere_accepted fuel g g' p E) as Hacc.
  split; [exact Hacc | now apply length_squared_below_1_finite].
Qed.

(** A generator that always hands out 0.5: the first vector is (0, 0, 0). *)
Lemma random_in_unit_sphere_finite_witness :
  Vec3_random_in_unit_sphere 1 (constant_rng 0.5)
  = Ok (Vec3_new 0 0 0, Rng_at (constant_rng 0.5) 3) /\
  (Vec3_length_squared (Vec3_new 0 0 0) <? 1) = true /\
  is_finite 0 = true.
Proof.
  assert (E : Vec3_random_in_unit_sphere 1 (constant_rng 0.5)
              = Ok (Vec3_new 0 0 0, Rng_at (constant_rng 0.5) 3)) by reflexivity.
  split; [exact E |].
  destruct (random_in_unit_sphere_finite 1 _ _ _ E) as (H1 & H2 & _).
  split; [exact H1 | exact H2].
Defined.

(** *** [Metal] *)

(** X15: [Metal::new] caps the fuzz at 1: the stored fuzz is [f] when
    [f <= 1.0] and 1 otherwise, NaN included, so it is always a number that
    is at most 1.  (Nothing bounds it from below: a negative [f] is kept.) *)
Theorem Metal_new_caps_fuzz (albedo : Color) (f : f64) :
  fuzz (Metal_new albedo f) = (if f <=? 1 then f else 1) /\
  nonnan (fuzz (Metal_new albedo f)) = true /\
  (1 <? fuzz (Metal_new albedo f)) = false.
Proof.
  unfold Metal_new. cbn [fuzz]. unfold f64_min, is_nan. fold (nonnan f) (nonnan 1).
  change (nonnan 1) with true. cbn [negb].
  assert (N1 : nonnan 1 = true) by reflexivity.
  destruct (nonnan f) eqn:Nf; cbn [negb].
  - destruct (1 <? f) eqn:E1, (f <=? 1) eqn:E2; repeat split; auto; float_order.
  - rewrite (leb_nan f 1) by auto. repeat split; reflexivity.
Qed.

Lemma mul_zero_finite (a b : f64) :
  is_zero a = true -> is_finite b = true -> is_zero (a * b) = true.
Proof.
  intros Ha Hb. unfold is_zero at 1. rewrite FloatAxioms.eqb_spec, mul_spec.
  change (Prim2SF zero) with (S754_zero false).
  destruct (is_zero_spec a Ha) as [sa ->].
  destruct (is_finite_spec b Hb) as [[sb ->] | (sb & mb & eb & ->)]; reflexivity.
Qed.

(** Adding a zero to a number gives the number back, up to the sign of a
    zero. *)
Lemma add_zero_r_eqb (x z : f64) :
  nonnan x = true -> is_zero z = true -> (x + z =? x) = true.
Proof.
  intros Hx Hz. destruct (is_zero_spec z Hz) as [sz Ez].
  destruct (Prim2SF x) as [sx | sx | | sx mx ex] eqn:Ex.
  - rewrite FloatAxioms.eqb_spec, add_spec, Ex, Ez. destruct sx, sz; reflexivity.
  - replace (x + z) with x; [exact Hx |].
    apply Prim2SF_inj. rewrite add_spec, Ex, Ez. reflexivity.
  - apply nonnan_spec in Hx. congruence.
  - replace (x + z) with x; [exact Hx |].
    apply Prim2SF_inj. rewrite add_spec, Ex, Ez. reflexivity.
Qed.

Section MetalMirror.

Context {M : Type}.

(** X16: a metal built with fuzz 0 is a mirror.  Whenever its [scatter]
    returns, the attenuation is the albedo, the scattered ray leaves the hit
    point at the time of the incoming ray, and each coordinate of its
    direction equals ([==]) that coordinate of
    [reflect(unit_vector(r_in.direction()), rec.normal)] when the latter is
    a number: the vector drawn in the unit sphere is finite and is
    multiplied by zero. *)
Theorem Metal_scatter_mirror (fuel : nat) (color : Color) (r_in : Ray) (rec : HitRecord M)
  (g g' : Rng) (b : bool) (attenuation : Color) (scattered : Ray) (a : nat) :
  Metal_scatter fuel (Metal_new color 0) r_in rec g = Ok (b, attenuation, scattered, g') ->
  nonnan (Vec3_at (Vec3_reflect (Vec3_unit_vector (Ray_direction r_in)) (normal rec)) a)
  = true ->
  attenuation = color /\
  Ray_origin scattered = p rec /\ Ray_time scattered = Ray_time r_in /\
  (Vec3_at (Ray_direction scattered) a
   =? Vec3_at (Vec3_reflect (Vec3_unit_vector (Ray_direction r_in)) (normal rec)) a) = true.
Proof.
  unfold Metal_scatter. intros E Hn.
  destruct (Vec3_random_in_unit_sphere fuel g) as [[s g1] | |] eqn:Es; try discriminate.
  cbn [bind] in E. injection E as _ <- <- _.
  repeat split.
  destruct (length_squared_below_1_finite s (random_in_unit_sphere_accepted fuel g g1 s Es))
    as (F0 & F1 & F2).
  change (fuzz (Metal_new color 0)) with 0.
  assert (Z : is_zero 0 = true) by reflexivity.
  unfold Ray_direction, Ray_new. cbn [dir].
  set (v := Vec3_reflect (Vec3_unit_vector (dir r_in)) (normal rec)) in *.
  destruct a as [| [| a]]; cbn [Vec3_at Vec3_add Vec3_scale e0 e1 e2] in *;
    apply add_zero_r_eqb; auto using mul_zero_finite.
Qed.

End MetalMirror.

(** A ray down the z axis on a mirror that faces it, the generator handing
    out 0.5: the ray goes back up the axis. *)
Lemma Metal_scatter_mirror_witness :
  Metal_scatter 1 (Metal_new sky 0) ray_down_z light_hit_record (constant_rng 0.5)
  = Ok (false, sky, Ray_new (p light_hit_record) (Vec3_new 0 0 1) 0,
        Rng_at (constant_rng 0.5) 3) /\
  nonnan (Vec3_at (Vec3_reflect (Vec3_unit_vector (Ray_direction ray_down_z))
                     (normal light_hit_record)) 2) = true /\
  (Vec3_at (Vec3_new 0 0 1) 2
   =? Vec3_at (Vec3_reflect (Vec3_unit_vector (Ray_direction ray_down_z))
                 (normal light_hit_record)) 2) = true.
Proof.
  assert (E : Metal_scatter 1 (Metal_new sky 0) ray_down_z light_hit_record (constant_rng 0.5)
              = Ok (false, sky, Ray_new (p light_hit_record) (Vec3_new 0 0 1) 0,
                    Rng_at (constant_rng 0.5) 3)) by reflexivity.
  split; [exact E | split; [reflexivity |]].
  exact (proj2 (proj2 (proj2 (Metal_scatter_mirror 1 sky ray_down_z light_hit_record _ _ _ _ _ 2
                                E eq_refl)))).
Defined.

(** *** Perlin noise: the hashed version and turbulence *)

Lemma ranfloat_fill_length (n : nat) (g : Rng) :
  List.length (fst (Hashed.ranfloat_fill n g)) = n.
Proof.
  revert g. induction n as [| n IH]; intro g; [reflexivity |].
  cbn [Hashed.ranfloat_fill]. unfold random.
  specialize (IH (Rng_advance g)). destruct (Hashed.ranfloat_fill n (Rng_advance g)) as [rest g2].
  cbn [fst List.length] in *. congruence.
Qed.

(** The table [Perlin::new] fills holds the draws of the generator in
    order. *)
Lemma ranfloat_fill_nth (n : nat) (g : Rng) (k : nat) :
  (k < n)%nat ->
  nth_error (fst (Hashed.ranfloat_fill n g)) k = Some (f64_draws g (pos g + k)).
Proof.
  revert g k. induction n as [| n IH]; intros g k Hk; [lia |].
  cbn [Hashed.ranfloat_fill]. unfold random.
  specialize (IH (Rng_advance g)). destruct (Hashed.ranfloat_fill n (Rng_advance g)) as [rest g2].
  cbn [fst] in *. destruct k as [| k].
  - cbn [nth_error]. now rewrite Nat.add_0_r.
  - cbn [nth_error]. rewrite IH by lia. unfold Rng_advance. simpl.
    now rewrite Nat.add_succ_r.
Qed.

(** X17: the first [Perlin] of the post (hashed random floats) cannot fail:
    [Perlin::new] always returns, and [Perlin::noise] then returns for
    every point, NaN and infinite coordinates included, one of the 256
    numbers [new] drew from the generator. *)
Theorem Hashed_Perlin_noise_total (g : Rng) :
  exists self g',
    Hashed.Perlin_new g = Ok (self, g')
    /\ forall p : Point3, exists n,
         (n < 256)%nat /\ Hashed.Perlin_noise self p = Ok (f64_draws g (pos g + n)).
Proof.
  unfold Hashed.Perlin_new.
  pose proof (ranfloat_fill_length 256 g) as Hl.
  pose proof (ranfloat_fill_nth 256 g) as Hn.
  destruct (Hashed.ranfloat_fill 256 g) as [rf g0]. cbn [fst] in Hl, Hn.
  destruct (perlin_generate_perm_ok g0) as (px & g1 & E1 & P1 & _). rewrite E1. cbn [bind].
  destruct (perlin_generate_perm_ok g1) as (py & g2 & E2 & P2 & _). rewrite E2. cbn [bind].
  destruct (perlin_generate_perm_ok g2) as (pz & g3 & E3 & P3 & _). rewrite E3. cbn [bind].
  exists (Hashed.mkPerlin rf px py pz), g3. split; [reflexivity |].
  intro p. unfold Hashed.Perlin_noise.
  cbn [Hashed.perm_x Hashed.perm_y Hashed.perm_z Hashed.ranfloat].
  destruct (table_lookup px (i32_as_usize (Z.land (f64_as_i32 (4 * Vec3_x p)) 255))
              (permutation_in_range px P1)) as (hx & Ex & Rx);
    [apply i32_as_usize_small, land_255_range |].
  destruct (table_lookup py (i32_as_usize (Z.land (f64_as_i32 (4 * Vec3_y p)) 255))
              (permutation_in_range py P2)) as (hy & Ey & Ry);
    [apply i32_as_usize_small, land_255_range |].
  destruct (table_lookup pz (i32_as_usize (Z.land (f64_as_i32 (4 * Vec3_z p)) 255))
              (permutation_in_range pz P3)) as (hz & Ez & Rz);
    [apply i32_as_usize_small, land_255_range |].
  rewrite Ex, Ey, Ez. cbn [bind].
  assert (Hh : (i32_as_usize (Z.lxor (Z.lxor hx hy) hz) < 256)%nat).
  { apply i32_as_usize_small. apply lxor_256; [apply lxor_256 |]; assumption. }
  exists (i32_as_usize (Z.lxor (Z.lxor hx hy) hz)). split; [exact Hh |].
  unfold index. rewrite (Hn _ Hh). reflexivity.
Qed.

Lemma abs_not_below_zero (a : f64) : (abs a <? 0) = false.
Proof.
  rewrite FloatAxioms.ltb_spec, abs_spec. change (Prim2SF 0) with (S754_zero false).
  destruct (Prim2SF a) as [s | s | | s m e]; reflexivity.
Qed.

Lemma turb_loop_unchecked (self : Perlin) (n : nat) (accum : f64) (temp_p : Point3)
  (weight : f64) :
  Perlin_tables_ok self -> exists x, turb_loop false self n accum temp_p weight = Ok x.
Proof.
  intro Hok. revert accum temp_p weight.
  induction n as [| n IH]; intros accum temp_p weight; cbn [turb_loop]; [eauto |].
  destruct (Perlin_noise_unchecked self temp_p Hok) as (x & ->). cbn [bind]. apply IH.
Qed.

(** X18: [Perlin::turb] on the noise [Perlin::new] builds.  Where overflow
    wraps it returns for every point and every depth, and what it returns
    is never below zero; a depth of zero or less gives 0 without a look at
    the noise, overflow checks or not. *)
Theorem Perlin_turb_returns (g : Rng) :
  exists self g',
    Perlin_new g = Ok (self, g')
    /\ (forall (p : Point3) (depth : option Z), exists x,
          Perlin_turb false self p depth = Ok x /\ (x <? 0) = false)
    /\ (forall (checks : bool) (p : Point3) (d : Z),
          (d <= 0)%Z -> Perlin_turb checks self p (Some d) = Ok 0).
Proof.
  destruct (Perlin_new_ok g) as (self & g' & E & Lr & [Px _] & [Py _] & [Pz _]).
  exists self, g'. split; [exact E | split].
  - intros p depth. unfold Perlin_turb.
    destruct (turb_loop_unchecked self
                (Z.to_nat match depth with Some d => d | None => 7%Z end) 0 p 1)
      as (x & ->).
    { repeat split; auto using permutation_in_range;
        apply permutation_in_range; assumption. }
    cbn [bind]. eexists. split; [reflexivity | apply abs_not_below_zero].
  - intros checks p d Hd. unfold Perlin_turb.
    replace (Z.to_nat d) with 0%nat by lia. reflexivity.
Qed.

(** *** Image textures *)

Lemma f64_as_u32_range (x : f64) : (0 <= f64_as_u32 x <= u32_MAX)%Z.
Proof.
  unfold f64_as_u32, f64_as_int, saturate, u32_MAX.
  destruct (Prim2SF x) as [s | s | | s m e]; try lia.
  - destruct s; lia.
  - destruct (Z.ltb_spec (SF_trunc s m e) 0); [lia |].
    destruct (Z.ltb_spec 4294967295 (SF_trunc s m e)); lia.
Qed.

Lemma clamp_u32_range (x hi : Z) :
  (0 <= x)%Z -> (0 <= hi)%Z -> (0 <= ImageTextureMapping.clamp x 0%Z hi <= hi)%Z.
Proof.
  intros Hx Hh. unfold ImageTextureMapping.clamp. cbn [ImageTextureMapping.lt
    ImageTextureMapping.gt ImageTextureMapping.u32_PartialOrd].
  destruct (Z.ltb_spec x 0); [lia |].
  unfold Z.gtb. destruct (Z.compare_spec x hi); lia.
Qed.

(** A byte scaled by [1.0 / 255.0] lies between 0 and 1. *)
Lemma color_scale_unit (b : Byte.byte) :
  (0 <=? 1 / 255 * ImageTextureMapping.u8_as_f64 b) = true
  /\ (1 / 255 * ImageTextureMapping.u8_as_f64 b <=? 1) = true.
Proof. destruct b; split; vm_compute; reflexivity. Qed.

(** X19: [ImageTexture::value] reads inside the image or panics on an empty
    one.  For an image of at least one pixel it returns for every [u] and
    [v], NaN and infinities included, the colour of a pixel of the image,
    each channel between 0 and 1; a panic means the image has no column or
    no row ([width - 1] overflows, or [get_pixel] is out of range). *)
Theorem ImageTexture_value_in_image (checks : bool) (img : ImageTextureMapping.DynamicImage)
  (u v : f64) (p : Point3) :
  (0 <= ImageTextureMapping.width img <= u32_MAX)%Z ->
  (0 <= ImageTextureMapping.height img <= u32_MAX)%Z ->
  match ImageTextureMapping.ImageTexture_value checks img u v p with
  | Ok c =>
      (exists i j : Z,
         (0 <= i < ImageTextureMapping.width img)%Z
         /\ (0 <= j < ImageTextureMapping.height img)%Z
         /\ c = ImageTextureMapping.pixel_color (ImageTextureMapping.pixel_at img i j))
      /\ forall a : nat, (0 <=? Vec3_at c a) = true /\ (Vec3_at c a <=? 1) = true
  | Panic => ImageTextureMapping.width img = 0%Z \/ ImageTextureMapping.height img = 0%Z
  | OutOfFuel => False
  end.
Proof.
  intros Hw Hh. unfold ImageTextureMapping.ImageTexture_value.
  set (x := f64_as_u32 _). set (y := f64_as_u32 _).
  assert (Rx' : (0 <= x)%Z) by (subst x; apply f64_as_u32_range).
  assert (Ry' : (0 <= y)%Z) by (subst y; apply f64_as_u32_range).
  clearbody x y.
  unfold ImageTextureMapping.u32_sub, ImageTextureMapping.get_pixel.
  destruct (Z.leb_spec 0 (ImageTextureMapping.width img - 1)) as [W | W].
  - cbn [bind].
    pose proof (clamp_u32_range x _ Rx' W) as Ri.
    destruct (Z.leb_spec 0 (ImageTextureMapping.height img - 1)) as [H | H].
    + cbn [bind].
      pose proof (clamp_u32_range y _ Ry' H) as Rj.
      destruct (Z.ltb_spec (ImageTextureMapping.clamp x 0 (ImageTextureMapping.width img - 1))%Z
                  (ImageTextureMapping.width img)); [| lia].
      destruct (Z.ltb_spec (ImageTextureMapping.clamp y 0 (ImageTextureMapping.height img - 1))%Z
                  (ImageTextureMapping.height img)); [| lia].
      cbn [andb bind]. split.
      * eexists _, _. split; [| split; [| reflexivity]]; lia.
      * intro a.
        destruct (ImageTextureMapping.pixel_at img _ _) as [[[r g0] b] al].
        unfold ImageTextureMapping.pixel_color.
        destruct a as [| [| a]]; cbn [Vec3_at Vec3_new e0 e1 e2]; apply color_scale_unit.
    + destruct checks; cbn [bind]; [right; lia |].
      assert (Hj : (0 <= ImageTextureMapping.clamp y 0%Z
                          ((ImageTextureMapping.height img - 1) mod 2 ^ 32))%Z).
      { apply clamp_u32_range; [exact Ry' | apply Z.mod_pos_bound; lia]. }
      destruct (Z.ltb_spec (ImageTextureMapping.clamp y 0
                              ((ImageTextureMapping.height img - 1) mod 2 ^ 32))%Z
                  (ImageTextureMapping.height img)); [lia |].
      rewrite andb_false_r. cbn [bind]. right; lia.
  - destruct checks; cbn [bind]; [left; lia |].
    assert (Hi : (0 <= ImageTextureMapping.clamp x 0%Z
                        ((ImageTextureMapping.width img - 1) mod 2 ^ 32))%Z).
    { apply clamp_u32_range; [exact Rx' | apply Z.mod_pos_bound; lia]. }
    destruct (0 <=? ImageTextureMapping.height img - 1)%Z; cbn [bind];
      (destruct (Z.ltb_spec (ImageTextureMapping.clamp x 0
                               ((ImageTextureMapping.width img - 1) mod 2 ^ 32))%Z
                   (ImageTextureMapping.width img)); [lia |]);
      cbn [andb bind]; left; lia.
Qed.

(** Both coordinates at the middle of a two by two image. *)
Lemma ImageTexture_value_in_image_witness :
  (0 <= ImageTextureMapping.width checker_image <= u32_MAX)%Z
  /\ (0 <= ImageTextureMapping.height checker_image <= u32_MAX)%Z
  /\ ImageTextureMapping.ImageTexture_value true checker_image 0.5 0.5 (Vec3_new 0 0 0)
     = Ok (Vec3_new 1 1 1)
  /\ match ImageTextureMapping.ImageTexture_value true checker_image 0.5 0.5 (Vec3_new 0 0 0) with
     | Ok c =>
         (exists i j : Z,
            (0 <= i < ImageTextureMapping.width checker_image)%Z
            /\ (0 <= j < ImageTextureMapping.height checker_image)%Z
            /\ c = ImageTextureMapping.pixel_color
                     (ImageTextureMapping.pixel_at checker_image i j))
         /\ forall a : nat, (0 <=? Vec3_at c a) = true /\ (Vec3_at c a <=? 1) = true
     | Panic => ImageTextureMapping.width checker_image = 0%Z
                \/ ImageTextureMapping.height checker_image = 0%Z
     | OutOfFuel => False
     end.
Proof.
  assert (W : (0 <= ImageTextureMapping.width checker_image <= u32_MAX)%Z)
    by (vm_compute; split; discriminate).
  assert (H : (0 <= ImageTextureMapping.height checker_image <= u32_MAX)%Z)
    by (vm_compute; split; discriminate).
  split; [exact W | split; [exact H | split; [reflexivity |]]].
  exact (ImageTexture_value_in_image true checker_image 0.5 0.5 (Vec3_new 0 0 0) W H).
Defined.

(** *** [BvhNode::new] on an empty span *)

Section EmptySpan.

Context {M : Type}.

(** X20: [BvhNode::new] never builds a node for an empty span
    [start..start]: the slice panics when [start] is beyond the vector, and
    otherwise the call sorts nothing and calls itself on the same span, so
    it does not return whatever the fuel.  An empty scene is the case
    [start = end = 0]. *)
Theorem BvhNode_new_empty_span (fuel : nat) (objects : list (Hittable M)) (start : nat)
  (time0 time1 : f64) (g : Rng) :
  match BvhNode_new fuel objects start start time0 time1 g with
  | Ok _ => False
  | Panic => (List.length objects < start)%nat
  | OutOfFuel => (start <= List.length objects)%nat \/ fuel = 0%nat
  end.
Proof.
  revert g. induction fuel as [| fuel IH]; intros g; [right; reflexivity |].
  cbn [BvhNode_new]. unfold random_usize_in_range. cbn [Nat.leb bind Nat.sub Nat.add].
  pose proof (Nat.mod_upper_bound (usize_draws g (pos g)) 3 ltac:(lia)) as Hk.
  assert (E : forall comparator : Hittable M -> Hittable M -> result comparison,
             sort_slice comparator objects start start
             = if (List.length objects <? start)%nat then Panic else Ok objects).
  { intro c. unfold sort_slice. rewrite Nat.ltb_irrefl, Nat.sub_diag. cbn [orb firstn sort_by bind].
    destruct (List.length objects <? start)%nat; [reflexivity |].
    cbn [app]. now rewrite firstn_skipn. }
  rewrite Nat.ltb_irrefl, Nat.sub_diag.
  change (0 =? 1)%nat with false. change (0 =? 2)%nat with false.
  change (0 / 2)%nat with 0%nat. rewrite Nat.add_0_r.
  destruct (usize_draws g (pos g) mod 3)%nat as [| [| [| k]]]; [| | | lia];
    cbn [bind]; rewrite E;
    (destruct (Nat.ltb_spec (List.length objects) start) as [L | L]; cbn [bind]; [exact L |]);
    specialize (IH (Rng_advance g));
    (destruct (BvhNode_new fuel objects start start time0 time1 (Rng_advance g))
       as [[[l o] g1] | |]; cbn [bind]; [contradiction | lia | left; exact L]).
Qed.

End EmptySpan.

(** ** The boxes of the hierarchy *)

(** *** Rounding to nearest even, in order *)

Open Scope Z_scope.

(** *** Rounding to nearest even is monotone *)



















































Close Scope Z_scope.

(** *** Differences and products keep the order *)










(** *** A box that encloses another is hit whenever the other is *)







(** *** The boxes [BvhNode::new] stores *)

Section BuiltBoxes.

Context {M : Type}.
Context {libm : Libm}.

Variables time0 time1 : f64.







End BuiltBoxes.

(** The light of the Cornell box is lost as well: its box lies around the
    plane z = 554 where the light lies in the plane y = 554, the ray
    straight up from the middle of the room runs beside that box, and the
    hierarchy built over the light reports no hit where the linear scan
    reports the hit at 276. *)
Lemma BvhNode_misses_cornell_light :
  for_every_libm (fun libm =>
    fst (bounding_box (HXzRect cornell_light) 0 1 Aabb_zero) = true /\
    exists node,
      node_of (BvhNode_new 1 [HXzRect cornell_light] 0 1 0 1 axis_rng) = Some node /\
      fst (@hit _ libm (HHittableList [HXzRect cornell_light]) ray_up_to_light 0.001
             f64_INFINITY HitRecord_new) = true /\
      fst (@hit _ libm node ray_up_to_light 0.001 f64_INFINITY HitRecord_new) = false).
Proof.
  intros libm. split; [reflexivity |].
  eexists. split; [vm_compute; reflexivity |].
  split; vm_compute; reflexivity.
Qed.
